(** * The migration engine of [migrate.go]: planner, runner, lock coordinator

    A shallow embedding of [migrate.go] (package [migrate]) and of the
    in-memory database driver [database/stub], followed by the properties
    checked against them.

    Conventions.
    - Go's [int] and [uint] are the 64-bit types; values are carried as [Z]
      and every conversion and every arithmetic operation of the source that
      can wrap is written with its wrap-around ([int_of_uint], [int_add],
      [int_sub], [int_neg]).
    - A Go [(value, error)] return is a [result]; a Go [error] that may be
      [nil] is an [option error].
    - The planner goroutine ([read], [readUp], [readDown]), the channel [ret]
      and the runner ([runMigrations]) are an interleaving semantics: a
      schedule is a list of ticks, each tick lets the planner or the runner
      take one step, or delivers the [GracefulStop] signal. A call of [stop]
      is two steps of the goroutine that makes it, the receive from
      [GracefulStop] and the write of [isGracefulStop]: nothing in the source
      orders them with the steps of the other goroutine.
    - Logging, timestamps and the body buffering goroutines have no effect on
      what is planned, run, locked or returned; they are left out, and a
      buffered body is the body the source returned. *)

From Stdlib Require Import ZArith List String Bool Lia DecimalString.
From Stdlib Require DecimalN DecimalFacts.
Import ListNotations.
Local Open Scope string_scope.
Local Open Scope list_scope.
Local Open Scope Z_scope.
Set Warnings "-register-all".

(** ** Machine integers *)

Definition int_bits : Z := 64.
Definition MaxInt : Z := 2 ^ (int_bits - 1) - 1.
Definition MinInt : Z := - 2 ^ (int_bits - 1).
Definition MaxUint : Z := 2 ^ int_bits - 1.

(** Truncation to the signed 64-bit range (two's complement). *)
Definition wrap_int (z : Z) : Z :=
  (z + 2 ^ (int_bits - 1)) mod 2 ^ int_bits - 2 ^ (int_bits - 1).

(** The conversion [int(u)] of a [uint]. *)
Definition int_of_uint (u : Z) : Z := wrap_int u.

(** [a + b], [a - b] and [-a] on [int]. *)
Definition int_add (a b : Z) : Z := wrap_int (a + b).
Definition int_sub (a b : Z) : Z := wrap_int (a - b).
Definition int_neg (a : Z) : Z := wrap_int (- a).

Definition is_int (z : Z) : Prop := MinInt <= z <= MaxInt.
Definition is_uint (z : Z) : Prop := 0 <= z <= MaxUint.

(** ** Errors *)

(** How [os.IsNotExist] and [os.IsExist] classify an error value. *)
Inductive oskind : Type := KNotExist | KExist | KOther.

Inductive error : Type :=
| ErrNoChange                              (* migrate.ErrNoChange *)
| ErrNilVersion                            (* migrate.ErrNilVersion *)
| ErrLocked                                (* migrate.ErrLocked *)
| ErrShortLimit (Short : Z)                (* migrate.ErrShortLimit{Short} *)
| os_ErrNotExist                           (* os.ErrNotExist *)
| database_ErrLocked                       (* database.ErrLocked *)
| DriverError (k : oskind) (msg : string)  (* any other error of a driver *)
| MultiError (Errs : list error).

Definition os_IsNotExist (err : option error) : bool :=
  match err with
  | Some os_ErrNotExist => true
  | Some (DriverError KNotExist _) => true
  | _ => false
  end.

Definition os_IsExist (err : option error) : bool :=
  match err with
  | Some (DriverError KExist _) => true
  | _ => false
  end.

Inductive result (A : Type) : Type :=
| Ok (a : A)
| Err (e : error).
Arguments Ok {A} a.
Arguments Err {A} e.

(** The [err] component of a [(value, err)] return. *)
Definition err_of {A} (r : result A) : option error :=
  match r with
  | Ok _ => None
  | Err e => Some e
  end.

(** [fmt.Sprintf("%v", n)] for an unsigned [n]. *)
Definition decimal (n : Z) : string := NilZero.string_of_uint (N.to_uint (Z.to_N n)).

Definition join (sep : string) (l : list string) : string := String.concat sep l.

(** Modelled from the spec: [MultiError] and [NewMultiError] are declared
    outside [migrate.go]. A multi-error composes the primary error with the
    unlock error; its [Error()] is the concatenation of the sub-messages with a
    separator [sep], which the spec leaves open. A [nil] component has no
    message and is dropped. *)
Definition NewMultiError (prevErr err : option error) : error :=
  MultiError ((match prevErr with Some e => [e] | None => [] end) ++
              (match err with Some e => [e] | None => [] end))%list.

Section ErrorString.
Variable sep : string.

Fixpoint Error (e : error) : string :=
  match e with
  | ErrNoChange => "no change"
  | ErrNilVersion => "no migration"
  | ErrLocked => "database locked"
  | ErrShortLimit n => ("limit " ++ decimal n ++ " short")%string
  | os_ErrNotExist => "file does not exist"
  | database_ErrLocked => "can't acquire lock"
  | DriverError _ msg => msg
  | MultiError errs => join sep (map Error errs)
  end.
End ErrorString.

(** [t] occurs in [s]. *)
Definition contains (s t : string) : Prop :=
  exists pre post : string, s = (pre ++ t ++ post)%string.

(** ** The driver contracts *)

(** [source.Driver]: the calls the planner makes. A source is consulted, not
    changed, by them. *)
Module source.
Record Driver : Type := {
  First : result Z;
  Next : Z -> result Z;
  Prev : Z -> result Z;
  ReadUp : Z -> result (string * string);     (* body, identifier *)
  ReadDown : Z -> result (string * string)
}.
End source.

(** [database.Driver] over a driver state [D]. *)
Module database.
Definition NilVersion : Z := -1.

Record Driver (D : Type) : Type := {
  Lock : D -> D * option error;
  Unlock : D -> D * option error;
  Run : Z -> option string -> D -> D * option error;
  Version : D -> D * result Z;
  Drop : D -> D * option error
}.
Arguments Lock {D} _ _.
Arguments Unlock {D} _ _.
Arguments Run {D} _ _ _ _.
Arguments Version {D} _ _.
Arguments Drop {D} _ _.
End database.

(** ** Migration records *)

Record Migration : Type := {
  Identifier : string;
  Version : Z;                   (* uint *)
  TargetVersion : Z;             (* int *)
  Body : option string;
  BufferedBody : option string
}.

(** Modelled from the spec: [NewMigration] is declared outside [migrate.go].
    Construction takes (stream or absent, identifier, version, targetVersion);
    an absent stream gives a record with both body fields absent, otherwise the
    buffered body yields the bytes of the body. *)
Definition NewMigration (body : option string) (identifier : string)
    (version targetVersion : Z) : result Migration :=
  Ok {| Identifier := identifier; Version := version;
        TargetVersion := targetVersion; Body := body; BufferedBody := body |}.

(** A value travelling on [ret chan interface{}]: the runner's type switch
    tells an [error] from a [*Migration] from anything else. *)
Inductive chanval : Type :=
| VError (e : error)
| VMigration (migr : Migration)
| VOther.

(** ** The planner *)

(** The four [for] loops of the planners: the upward and the downward loop of
    [read] (with their target), the loop of [readUp] and the loop of [readDown]
    (with their limit). *)
Inductive loop : Type :=
| ReadUpLoop (to : Z)
| ReadDownLoop (to : Z)
| UpLoop (limit : Z)
| DownLoop (limit : Z).

(** Where a planner goroutine stands: at the top of a loop with its variables
    [from] and [count], at a send [ret <- v] with what follows, inside [stop]
    between the receive from [GracefulStop] and the write of the flag, returned
    (the deferred [close(ret)] has run), or stopped by a panic. *)
Inductive plan : Type :=
| At (l : loop) (from count : Z)
| Send (v : chanval) (k : plan)
| Latch
| Close
| Panic.

Section Planner.
(** [suint] is declared outside [migrate.go]: the checked conversion of an
    [int] to [uint]. On a non-negative argument it is the conversion; what
    it does on a negative one is the parameter [suint_neg] ([None]: the call
    does not return). *)
Variable suint_neg : Z -> option Z.
Variable sourceDrv : source.Driver.

Definition suint (n : Z) : option Z :=
  if 0 <=? n then Some n else suint_neg n.

Definition versionExists (version : Z) : option error :=
  (* try up migration first *)
  let err := err_of (source.ReadUp sourceDrv version) in
  if os_IsExist err then None
  else if negb (os_IsNotExist err) then err
  else
    (* then try down migration *)
    let err := err_of (source.ReadDown sourceDrv version) in
    if os_IsExist err then None
    else if negb (os_IsNotExist err) then err
    else Some os_ErrNotExist.

Definition newMigration (version targetVersion : Z) : result Migration :=
  if int_of_uint version <=? targetVersion then
    match source.ReadUp sourceDrv version with
    | Err err =>
        if os_IsNotExist (Some err)
        then NewMigration None "" version targetVersion
        else Err err
    | Ok (r, identifier) => NewMigration (Some r) identifier version targetVersion
    end
  else
    match source.ReadDown sourceDrv version with
    | Err err =>
        if os_IsNotExist (Some err)
        then NewMigration None "" version targetVersion
        else Err err
    | Ok (r, identifier) => NewMigration (Some r) identifier version targetVersion
    end.

(** [ret <- err; return] *)
Definition fail (err : error) : plan := Send (VError err) Close.

(** [x := suint(n)], then [k x]. *)
Definition with_suint (n : Z) (k : Z -> plan) : plan :=
  match suint n with
  | Some u => k u
  | None => Panic
  end.

(** [migr, err := m.newMigration(version, target); if err != nil { ret <- err;
    return }; ret <- migr; go migr.Buffer()], then [k]. *)
Definition emit (version target : Z) (k : plan) : plan :=
  match newMigration version target with
  | Err err => fail err
  | Ok migr => Send (VMigration migr) k
  end.

(** The check that opens the three planners:
    [if v >= 0 { if m.versionExists(suint(v)) != nil { ret <- os.ErrNotExist; return } }] *)
Definition check_exists (v : Z) (k : plan) : plan :=
  if 0 <=? v then
    with_suint v (fun u =>
      match versionExists u with
      | Some _ => fail os_ErrNotExist
      | None => k
      end)
  else k.

(** [ret <- ErrShortLimit{suint(limit - count)}] *)
Definition short (limit count : Z) (k : plan) : plan :=
  with_suint (int_sub limit count) (fun s => Send (VError (ErrShortLimit s)) k).

(** The condition of a [for] loop. *)
Definition loop_cond (l : loop) (from count : Z) : bool :=
  match l with
  | ReadUpLoop to => from <? to
  | ReadDownLoop to => (to <? from) && (0 <=? from)
  | UpLoop limit => (count <? limit) || (limit =? -1)
  | DownLoop limit => (count <? limit) || (limit =? -1)
  end.

(** One iteration of a loop, after its [if m.stop() { return }]. *)
Definition loop_body (l : loop) (from count : Z) : plan :=
  match l with
  | ReadUpLoop to =>
      with_suint from (fun u =>
        match source.Next sourceDrv u with
        | Err err => fail err
        | Ok next =>
            emit next (int_of_uint next) (At (ReadUpLoop to) (int_of_uint next) count)
        end)
  | ReadDownLoop to =>
      with_suint from (fun u =>
        let r := source.Prev sourceDrv u in
        if os_IsNotExist (err_of r) && (to =? -1) then
          (* apply nil migration *)
          with_suint from (fun u' => emit u' (-1) Close)
        else
          match r with
          | Err err => fail err
          | Ok prev =>
              with_suint from (fun u' =>
                emit u' (int_of_uint prev)
                     (At (ReadDownLoop to) (int_of_uint prev) count))
          end)
  | UpLoop limit =>
      if from =? -1 then
        (* apply first migration if from is nil version *)
        match source.First sourceDrv with
        | Err err => fail err
        | Ok firstVersion =>
            emit firstVersion (int_of_uint firstVersion)
                 (At (UpLoop limit) (int_of_uint firstVersion) (int_add count 1))
        end
      else
        (* apply next migration *)
        with_suint from (fun u =>
          let r := source.Next sourceDrv u in
          let rest :=
            match r with
            | Err err => fail err
            | Ok next =>
                emit next (int_of_uint next)
                     (At (UpLoop limit) (int_of_uint next) (int_add count 1))
            end in
          if os_IsNotExist (err_of r) then
            if (limit =? -1) && (count =? 0) then fail ErrNoChange
            else if limit =? -1 then Close
            else if (0 <? limit) && (count =? 0) then fail os_ErrNotExist
            else if count <? limit then short limit count Close
            else rest
          else rest)
  | DownLoop limit =>
      with_suint from (fun u =>
        let r := source.Prev sourceDrv u in
        if os_IsNotExist (err_of r) then
          let finish (count : Z) : plan :=
            if count <? limit then short limit count Close else Close in
          (* no limit or haven't reached limit, apply "first" migration *)
          if (limit =? -1) || (0 <? int_sub limit count) then
            match source.First sourceDrv with
            | Err err => fail err
            | Ok firstVersion => emit firstVersion (-1) (finish (int_add count 1))
            end
          else finish count
        else
          match r with
          | Err err => fail err
          | Ok prev =>
              with_suint from (fun u' =>
                emit u' (int_of_uint prev)
                     (At (DownLoop limit) (int_of_uint prev) (int_add count 1)))
          end)
  end.

(** [func (m *Migrate) read(from int, to int, ret chan<- interface{})] *)
Definition read (from to : Z) : plan :=
  check_exists from (
  check_exists to (
    if from =? to then fail ErrNoChange
    else if from <? to then
      (* it's going up: apply first migration if from is nil version *)
      if from =? -1 then
        match source.First sourceDrv with
        | Err err => fail err
        | Ok firstVersion =>
            emit firstVersion (int_of_uint firstVersion)
                 (At (ReadUpLoop to) (int_of_uint firstVersion) 0)
        end
      else At (ReadUpLoop to) from 0
    else
      (* it's going down *)
      At (ReadDownLoop to) from 0)).

(** [func (m *Migrate) readUp(from int, limit int, ret chan<- interface{})] *)
Definition readUp (from limit : Z) : plan :=
  check_exists from (
    if limit =? 0 then fail ErrNoChange
    else At (UpLoop limit) from 0).

(** [func (m *Migrate) readDown(from int, limit int, ret chan<- interface{})] *)
Definition readDown (from limit : Z) : plan :=
  check_exists from (
    if limit =? 0 then fail ErrNoChange
    (* no change if already at nil version *)
    else if (from =? -1) && (limit =? -1) then fail ErrNoChange
    (* can't go over limit if already at nil version *)
    else if (from =? -1) && (0 <? limit) then fail os_ErrNotExist
    else At (DownLoop limit) from 0).
End Planner.

(** ** The engine *)

(** [type Migrate struct]: the fields the operations read or write. The
    database driver is held with its state; [GracefulStop] is the content of
    the buffered channel [make(chan bool, 1)]. *)
Record Engine (D : Type) : Type := {
  databaseDrv : D;
  GracefulStop : list bool;
  isGracefulStop : bool;
  isLocked : bool;
  PrefetchMigrations : Z
}.
Arguments databaseDrv {D} _.
Arguments GracefulStop {D} _.
Arguments isGracefulStop {D} _.
Arguments isLocked {D} _.
Arguments PrefetchMigrations {D} _.

Definition set_databaseDrv {D} (d : D) (m : Engine D) : Engine D :=
  {| databaseDrv := d; GracefulStop := GracefulStop m;
     isGracefulStop := isGracefulStop m; isLocked := isLocked m;
     PrefetchMigrations := PrefetchMigrations m |}.

Definition set_isLocked {D} (b : bool) (m : Engine D) : Engine D :=
  {| databaseDrv := databaseDrv m; GracefulStop := GracefulStop m;
     isGracefulStop := isGracefulStop m; isLocked := b;
     PrefetchMigrations := PrefetchMigrations m |}.

(** The capacity of [GracefulStop]. *)
Definition GracefulStop_cap : nat := 1.

(** [m.GracefulStop <- true]: the signal is delivered when the channel has
    room; otherwise the sender stays blocked. *)
Definition signal {D} (m : Engine D) : Engine D :=
  if (List.length (GracefulStop m) <? GracefulStop_cap)%nat then
    {| databaseDrv := databaseDrv m; GracefulStop := (GracefulStop m ++ [true])%list;
       isGracefulStop := isGracefulStop m; isLocked := isLocked m;
       PrefetchMigrations := PrefetchMigrations m |}
  else m.

(** What [stop] finds before it writes anything: the flag set, a signal that
    it has now taken from [GracefulStop], or neither. *)
Inductive observed : Type :=
| Latched
| Taken
| Running.

(** [func (m *Migrate) stop() bool] up to and including its [select]:
    [if m.isGracefulStop { return true }], then the receive from
    [GracefulStop] or the [default] branch. The planner goroutine and the
    runner both call [stop]; nothing orders the statements of one call with
    those of the other, so the write of the flag is a step of its own
    ([stop_latch]). The read of the flag and the [select] are taken as one
    step: between them the other goroutine can only receive from the channel
    or write the flag, and a read of the flag that saw it unset followed by a
    [select] has the same outcome when both are placed where the [select]
    stands, or between the other's receive and its write. *)
Definition stop_receive {D} (m : Engine D) : Engine D * observed :=
  if isGracefulStop m then (m, Latched)
  else
    match GracefulStop m with
    | _ :: q =>
        ({| databaseDrv := databaseDrv m; GracefulStop := q;
            isGracefulStop := isGracefulStop m; isLocked := isLocked m;
            PrefetchMigrations := PrefetchMigrations m |}, Taken)
    | [] => (m, Running)
    end.

(** [m.isGracefulStop = true], the statement of [stop] after the receive. *)
Definition stop_latch {D} (m : Engine D) : Engine D :=
  {| databaseDrv := databaseDrv m; GracefulStop := GracefulStop m;
     isGracefulStop := true; isLocked := isLocked m;
     PrefetchMigrations := PrefetchMigrations m |}.

(** [func (m *Migrate) stop() bool] when nothing else runs between its
    statements. The steps of the planner and of the runner do not go through
    it: they take [stop_receive] and [stop_latch] apart. *)
Definition stop {D} (m : Engine D) : Engine D * bool :=
  let (m', obs) := stop_receive m in
  match obs with
  | Latched => (m', true)
  | Taken => (stop_latch m', true)
  | Running => (m', false)
  end.

(** Where the runner stands in [runMigrations]: at the receive of
    [for r := range ret], inside [m.databaseDrv.Run] for a record it took,
    inside [stop] between the receive from [GracefulStop] and the write of
    the flag, returned, or at [panic("unknown type")]. *)
Inductive runner : Type :=
| RWait
| RRun (migr : Migration)
| RLatch
| RDone (err : option error)
| RPanic.

(** The planner goroutine, the channel between them, the runner, and the
    engine they share. *)
Record config (D : Type) : Type := {
  eng : Engine D;
  pl : plan;
  ret : list chanval;
  rn : runner
}.
Arguments eng {D} _.
Arguments pl {D} _.
Arguments ret {D} _.
Arguments rn {D} _.

Inductive tick : Type :=
| TPlanner      (* the planner goroutine takes a step *)
| TRunner       (* the runner takes a step *)
| TSignal.      (* somebody sends on GracefulStop *)

Definition is_done (r : runner) : bool :=
  match r with
  | RDone _ => true
  | _ => false
  end.

Definition is_panic (p : plan) : bool :=
  match p with
  | Panic => true
  | _ => false
  end.

Section Engine.
Variable suint_neg : Z -> option Z.
Variable sourceDrv : source.Driver.
Variable D : Type.
Variable drv : database.Driver D.

Local Abbreviation Engine := (Engine D).
Local Abbreviation config := (config D).

(** *** The pipeline *)

(** A step of the planner. At a loop top: the loop condition, then [stop] up
    to its receive; with the flag set the planner returns; with a signal taken
    it stands before the write of the flag; otherwise the iteration runs up to
    its first send. Before the write of the flag: the write, and the return.
    At a send: the send if [ret] has room (the planner blocks otherwise). *)
Definition planner_step (c : config) : config :=
  match pl c with
  | At l from count =>
      if loop_cond l from count then
        let (m, obs) := stop_receive (eng c) in
        {| eng := m;
           pl := match obs with
                 | Latched => Close
                 | Taken => Latch
                 | Running => loop_body suint_neg sourceDrv l from count
                 end;
           ret := ret c; rn := rn c |}
      else {| eng := eng c; pl := Close; ret := ret c; rn := rn c |}
  | Send v k =>
      if Z.of_nat (List.length (ret c)) <? PrefetchMigrations (eng c) then
        {| eng := eng c; pl := k; ret := (ret c ++ [v])%list; rn := rn c |}
      else c
  | Latch => {| eng := stop_latch (eng c); pl := Close; ret := ret c; rn := rn c |}
  | Close => c
  | Panic => c
  end.

(** What the runner does with a value it received: [stop] up to its receive;
    with the flag set it returns [nil]; with a signal taken it stands before
    the write of the flag; otherwise the type switch. *)
Definition dispatch (m : Engine) (r : chanval) : Engine * runner :=
  let (m, obs) := stop_receive m in
  match obs with
  | Latched => (m, RDone None)
  | Taken => (m, RLatch)
  | Running =>
      match r with
      | VError err => (m, RDone (Some err))
      | VMigration migr => (m, RRun migr)
      | VOther => (m, RPanic)
      end
  end.

(** [m.databaseDrv.Run(migr.TargetVersion, ...)] with [nil] for an empty
    migration and the buffered body otherwise. *)
Definition run_migration (migr : Migration) (d : D) : D * option error :=
  match Body migr with
  | None => database.Run drv (TargetVersion migr) None d
  | Some _ => database.Run drv (TargetVersion migr) (BufferedBody migr) d
  end.

(** A step of the runner: at the receive, take the oldest value of [ret]; with
    [ret] empty, take the value of a planner that stands at its send; with
    [ret] empty and closed, leave the loop and return [nil]; block otherwise.
    With a record taken, call the driver and return its error or go back to
    the receive. Before the write of the flag: the write, and [return nil]. *)
Definition runner_step (c : config) : config :=
  match rn c with
  | RWait =>
      match ret c with
      | r :: q =>
          let (m, rn') := dispatch (eng c) r in
          {| eng := m; pl := pl c; ret := q; rn := rn' |}
      | [] =>
          match pl c with
          | Send r k =>
              let (m, rn') := dispatch (eng c) r in
              {| eng := m; pl := k; ret := []; rn := rn' |}
          | Close => {| eng := eng c; pl := Close; ret := []; rn := RDone None |}
          | _ => c
          end
      end
  | RRun migr =>
      let (d, err) := run_migration migr (databaseDrv (eng c)) in
      {| eng := set_databaseDrv d (eng c); pl := pl c; ret := ret c;
         rn := match err with Some e => RDone (Some e) | None => RWait end |}
  | RLatch =>
      {| eng := stop_latch (eng c); pl := pl c; ret := ret c; rn := RDone None |}
  | RDone _ => c
  | RPanic => c
  end.

(** One tick. Nothing moves once [runMigrations] has returned (the operation
    is over) or a goroutine has panicked (the process is over). *)
Definition step (t : tick) (c : config) : config :=
  if is_done (rn c) || is_panic (pl c) then c
  else
    match t with
    | TPlanner => planner_step c
    | TRunner => runner_step c
    | TSignal => {| eng := signal (eng c); pl := pl c; ret := ret c; rn := rn c |}
    end.

Fixpoint exec (sched : list tick) (c : config) : config :=
  match sched with
  | [] => c
  | t :: sched' => exec sched' (step t c)
  end.

(** [ret := make(chan interface{}, m.PrefetchMigrations); go planner(ret)] *)
Definition start (p : plan) (m : Engine) : config :=
  {| eng := m; pl := p; ret := []; rn := RWait |}.

(** [func (m *Migrate) runMigrations(ret <-chan interface{}) error], fed by
    the planner [p], under a schedule: [None] when the schedule ends before
    the runner has returned. *)
Definition runMigrations (p : plan) (sched : list tick) (m : Engine)
  : option (Engine * option error) :=
  let c := exec sched (start p m) in
  match rn c with
  | RDone err => Some (eng c, err)
  | _ => None
  end.

(** *** The lock coordinator *)

(** [func (m *Migrate) lock() error] *)
Definition lock (m : Engine) : Engine * option error :=
  if negb (isLocked m) then
    let (d, err) := database.Lock drv (databaseDrv m) in
    match err with
    | Some e => (set_databaseDrv d m, Some e)
    | None => (set_isLocked true (set_databaseDrv d m), None)
    end
  else (m, Some ErrLocked).

(** [func (m *Migrate) unlock() error] *)
Definition unlock (m : Engine) : Engine * option error :=
  let (d, err) := database.Unlock drv (databaseDrv m) in
  match err with
  | Some e => (set_databaseDrv d m, Some e)
  | None => (set_isLocked false (set_databaseDrv d m), None)
  end.

(** [func (m *Migrate) unlockErr(prevErr error) error] *)
Definition unlockErr (prevErr : option error) (m : Engine) : Engine * option error :=
  let (m', err) := unlock m in
  match err with
  | Some e => (m', Some (NewMultiError prevErr (Some e)))
  | None => (m', prevErr)
  end.

(** *** The operations *)

(** The part the four planning operations share: lock, read the current
    version, start the planner on it, run, unlock. *)
Definition locked_run (planner : Z -> plan) (sched : list tick) (m : Engine)
  : option (Engine * option error) :=
  match lock m with
  | (m1, Some err) => Some (m1, Some err)
  | (m1, None) =>
      match database.Version drv (databaseDrv m1) with
      | (d, Err err) => Some (unlockErr (Some err) (set_databaseDrv d m1))
      | (d, Ok curVersion) =>
          match runMigrations (planner curVersion) sched (set_databaseDrv d m1) with
          | Some (m2, err) => Some (unlockErr err m2)
          | None => None
          end
      end
  end.

(** [func (m *Migrate) Migrate(version uint) error] *)
Definition Migrate (version : Z) (sched : list tick) (m : Engine)
  : option (Engine * option error) :=
  locked_run (fun curVersion => read suint_neg sourceDrv curVersion (int_of_uint version))
             sched m.

(** [func (m *Migrate) Steps(n int) error] *)
Definition Steps (n : Z) (sched : list tick) (m : Engine)
  : option (Engine * option error) :=
  if n =? 0 then Some (m, Some ErrNoChange)
  else
    locked_run (fun curVersion =>
                  if 0 <? n then readUp suint_neg sourceDrv curVersion n
                  else readDown suint_neg sourceDrv curVersion (int_neg n))
               sched m.

(** [func (m *Migrate) Up() error] *)
Definition Up (sched : list tick) (m : Engine) : option (Engine * option error) :=
  locked_run (fun curVersion => readUp suint_neg sourceDrv curVersion (-1)) sched m.

(** [func (m *Migrate) Down() error] *)
Definition Down (sched : list tick) (m : Engine) : option (Engine * option error) :=
  locked_run (fun curVersion => readDown suint_neg sourceDrv curVersion (-1)) sched m.

(** [func (m *Migrate) Drop() error] *)
Definition Drop (m : Engine) : Engine * option error :=
  match lock m with
  | (m1, Some err) => (m1, Some err)
  | (m1, None) =>
      match database.Drop drv (databaseDrv m1) with
      | (d, Some err) => unlockErr (Some err) (set_databaseDrv d m1)
      | (d, None) => unlock (set_databaseDrv d m1)
      end
  end.
End Engine.

Arguments planner_step suint_neg sourceDrv {D} c.
Arguments dispatch {D} m r.
Arguments run_migration {D} drv migr d.
Arguments runner_step {D} drv c.
Arguments step suint_neg sourceDrv {D} drv t c.
Arguments exec suint_neg sourceDrv {D} drv sched c.
Arguments start {D} p m.
Arguments runMigrations suint_neg sourceDrv {D} drv p sched m.
Arguments lock {D} drv m.
Arguments unlock {D} drv m.
Arguments unlockErr {D} drv prevErr m.
Arguments locked_run suint_neg sourceDrv {D} drv planner sched m.
Arguments Migrate suint_neg sourceDrv {D} drv version sched m.
Arguments Steps suint_neg sourceDrv {D} drv n sched m.
Arguments Up suint_neg sourceDrv {D} drv sched m.
Arguments Down suint_neg sourceDrv {D} drv sched m.
Arguments Drop {D} drv m.

(** ** The in-memory database driver, [database/stub] *)

Module stub.
(** [type Stub struct]; [Url], [Instance] and [Config] are never read. *)
Record Stub : Type := {
  CurrentVersion : Z;
  MigrationSequence : list string;
  LastRunMigration : option string;
  IsLocked : bool
}.

(** [Open] and [WithInstance] *)
Definition Open : Stub :=
  {| CurrentVersion := -1; MigrationSequence := [];
     LastRunMigration := None; IsLocked := false |}.

Definition Lock (s : Stub) : Stub * option error :=
  if IsLocked s then (s, Some database_ErrLocked)
  else ({| CurrentVersion := CurrentVersion s;
           MigrationSequence := MigrationSequence s;
           LastRunMigration := LastRunMigration s; IsLocked := true |}, None).

Definition Unlock (s : Stub) : Stub * option error :=
  ({| CurrentVersion := CurrentVersion s;
      MigrationSequence := MigrationSequence s;
      LastRunMigration := LastRunMigration s; IsLocked := false |}, None).

(** [ioutil.ReadAll] of a buffered body returns its bytes. *)
Definition Run (version : Z) (migration : option string) (s : Stub)
  : Stub * option error :=
  match migration with
  | Some m =>
      ({| CurrentVersion := version;
          MigrationSequence := (MigrationSequence s ++ [m])%list;
          LastRunMigration := Some m; IsLocked := IsLocked s |}, None)
  | None =>
      ({| CurrentVersion := version;
          MigrationSequence := MigrationSequence s;
          LastRunMigration := LastRunMigration s; IsLocked := IsLocked s |}, None)
  end.

Definition Version (s : Stub) : Stub * result Z :=
  if CurrentVersion s <? 0 then (s, Ok database.NilVersion)
  else (s, Ok (CurrentVersion s)).

Definition DROP : string := "DROP".

Definition Drop (s : Stub) : Stub * option error :=
  ({| CurrentVersion := -1;
      MigrationSequence := (MigrationSequence s ++ [DROP])%list;
      LastRunMigration := None; IsLocked := IsLocked s |}, None).

Definition driver : database.Driver Stub :=
  {| database.Lock := Lock; database.Unlock := Unlock; database.Run := Run;
     database.Version := Version; database.Drop := Drop |}.
End stub.

(** ** A driver that records the calls it receives *)

Inductive call : Type :=
| CLock
| CUnlock
| CRun (version : Z) (migration : option string)
| CVersion
| CDrop.

(** [recorder drv] answers every call as [drv] does and appends the call to a
    log kept next to the state of [drv]: the mock that counts calls. *)
Definition recorder {D} (drv : database.Driver D) : database.Driver (D * list call) :=
  let log (c : call) (f : D -> D * option error) (s : D * list call) :=
    let (d, err) := f (fst s) in ((d, (snd s ++ [c])%list), err) in
  {| database.Lock := log CLock (database.Lock drv);
     database.Unlock := log CUnlock (database.Unlock drv);
     database.Run := fun version migration =>
       log (CRun version migration) (database.Run drv version migration);
     database.Version := fun s =>
       let (d, r) := database.Version drv (fst s) in ((d, (snd s ++ [CVersion])%list), r);
     database.Drop := log CDrop (database.Drop drv) |}.

Definition is_lock (c : call) : bool := match c with CLock => true | _ => false end.
Definition is_unlock (c : call) : bool := match c with CUnlock => true | _ => false end.
Definition is_run (c : call) : bool := match c with CRun _ _ => true | _ => false end.

Definition count_calls (f : call -> bool) (log : list call) : nat :=
  List.length (filter f log).

(** The target versions of the [Run] calls of a log, in order. *)
Definition run_targets (log : list call) : list Z :=
  flat_map (fun c => match c with CRun v _ => [v] | _ => [] end) log.

(** [l'] is [l] followed by [Run] calls only. *)
Definition runs_added (l l' : list call) : Prop :=
  exists new, l' = l ++ new /\ Forall (fun x => is_run x = true) new.

(** ** A source driver over an index of versions *)

(** Modelled from the spec: the source drivers are outside [migrate.go]. A
    source holds an ordered, sparse index of versions, each with an up
    payload, a down payload, or both. [First] is the smallest known version,
    [Next v] the strictly next version after [v], [Prev v] the strictly previous
    version before [v]; [ReadUp v] and [ReadDown v] yield the payload and its
    identifier; whatever is absent is reported by an error that
    [os.IsNotExist] recognises. *)
Module index.
Inductive files : Type :=
| UpOnly (up : string)
| DownOnly (down : string)
| UpDown (up down : string).

Definition entry : Type := (Z * files)%type.

Definition up_of (f : files) : option string :=
  match f with
  | UpOnly u => Some u
  | DownOnly _ => None
  | UpDown u _ => Some u
  end.

Definition down_of (f : files) : option string :=
  match f with
  | UpOnly _ => None
  | DownOnly d => Some d
  | UpDown _ d => Some d
  end.

Definition not_exist : error := DriverError KNotExist "file does not exist".

Definition versions (ix : list entry) : list Z := map fst ix.

Definition First (ix : list entry) : result Z :=
  match versions ix with
  | v :: _ => Ok v
  | [] => Err not_exist
  end.

Definition Next (ix : list entry) (v : Z) : result Z :=
  match find (fun w => v <? w) (versions ix) with
  | Some w => Ok w
  | None => Err not_exist
  end.

Definition Prev (ix : list entry) (v : Z) : result Z :=
  match find (fun w => w <? v) (rev (versions ix)) with
  | Some w => Ok w
  | None => Err not_exist
  end.

Definition lookup (ix : list entry) (v : Z) : option files :=
  option_map snd (find (fun e => fst e =? v) ix).

Definition ReadUp (ix : list entry) (v : Z) : result (string * string) :=
  match option_map up_of (lookup ix v) with
  | Some (Some body) => Ok (body, (decimal v ++ ".up")%string)
  | _ => Err not_exist
  end.

Definition ReadDown (ix : list entry) (v : Z) : result (string * string) :=
  match option_map down_of (lookup ix v) with
  | Some (Some body) => Ok (body, (decimal v ++ ".down")%string)
  | _ => Err not_exist
  end.

Definition driver (ix : list entry) : source.Driver :=
  {| source.First := First ix; source.Next := Next ix; source.Prev := Prev ix;
     source.ReadUp := ReadUp ix; source.ReadDown := ReadDown ix |}.

(** The index is strictly increasing. *)
Fixpoint increasing (l : list Z) : Prop :=
  match l with
  | [] => True
  | v :: l' => match l' with [] => True | w :: _ => v < w end /\ increasing l'
  end.

(** An index as a driver can hold it: strictly increasing versions, each one
    a [uint] that [int] can hold, in a slice (whose length is an [int]). *)
Definition well_formed (ix : list entry) : Prop :=
  increasing (versions ix) /\
  Forall (fun v => 0 <= v <= MaxInt) (versions ix) /\
  Z.of_nat (List.length ix) <= MaxInt.
End index.

(** The record [newMigration] builds over an index for the step from
    [version] to [target]: the up payload when the target is not below the
    version, the down payload otherwise, and an empty migration when the index
    has no such payload. *)
Definition planned (ix : list index.entry) (version target : Z) : Migration :=
  match (if int_of_uint version <=? target
         then index.ReadUp ix version else index.ReadDown ix version) with
  | Ok (body, identifier) =>
      {| Identifier := identifier; Version := version; TargetVersion := target;
         Body := Some body; BufferedBody := Some body |}
  | Err _ =>
      {| Identifier := ""; Version := version; TargetVersion := target;
         Body := None; BufferedBody := None |}
  end.

(** The up steps through the whole index, first to last. *)
Definition ups (ix : list index.entry) : list Migration :=
  map (fun v => planned ix v v) (index.versions ix).

(** The down steps from [v] through the versions [before] it, nearest first,
    and off the beginning to the empty state. *)
Fixpoint downs_from (ix : list index.entry) (before : list Z) (v : Z) : list Migration :=
  match before with
  | [] => [planned ix v (-1)]
  | u :: before' => planned ix v u :: downs_from ix before' u
  end.

(** The down steps through the whole index, last to first. *)
Definition downs (ix : list index.entry) : list Migration :=
  match rev (index.versions ix) with
  | [] => []
  | v :: before => downs_from ix before v
  end.

(** What [suint] does on a negative argument in the examples: it panics. *)
Definition suint_panics : Z -> option Z := fun _ => None.

(** The source of the end-to-end scenarios: versions 1, 3, 4, 5 and 7. *)
Definition scenario_index : list index.entry :=
  [ (1, index.UpDown "up1" "down1"); (3, index.UpDown "up3" "down3");
    (4, index.UpDown "up4" "down4"); (5, index.UpDown "up5" "down5");
    (7, index.UpDown "up7" "down7") ].

Definition DefaultPrefetchMigrations : Z := 10.

(** [newCommon]: a fresh engine, here on a database driver in state [d]. *)
Definition newCommon {D} (d : D) : Engine D :=
  {| databaseDrv := d; GracefulStop := []; isGracefulStop := false;
     isLocked := false; PrefetchMigrations := DefaultPrefetchMigrations |}.

(** The schedule that lets planner and runner alternate, [n] times. *)
Fixpoint alternate (n : nat) : list tick :=
  match n with
  | O => []
  | S n' => TPlanner :: TRunner :: alternate n'
  end.

(** An index whose only version is the largest [uint]. *)
Definition beyond_int : list index.entry := [ (MaxUint, index.UpDown "up" "down") ].

(** A fresh engine with prefetch depth [prefetch] on the recording stub. *)
Definition fresh (prefetch : Z) : Engine (stub.Stub * list call) :=
  {| databaseDrv := (stub.Open, []); GracefulStop := []; isGracefulStop := false;
     isLocked := false; PrefetchMigrations := prefetch |}.

(** The engine of [fresh 10] once an operation has taken the lock and read the
    version of the stub database. *)
Definition fresh_locked : Engine (stub.Stub * list call) :=
  {| databaseDrv := (fst (stub.Lock stub.Open), [CLock; CVersion]);
     GracefulStop := []; isGracefulStop := false; isLocked := true;
     PrefetchMigrations := 10 |}.

(** The schedule that lets the planner send three records before the runner
    takes the first and completes its [Run] call. *)
Definition planner_three_ahead : list tick :=
  (repeat TPlanner 6 ++ [TRunner; TRunner])%list.

(** The schedule under which a pending signal is taken by the planner while
    the runner goes on: the planner sends one record and takes the signal, the
    runner receives the record and makes its [Run] call. *)
Definition pending_overrun : list tick :=
  [TPlanner; TPlanner; TRunner; TRunner].

(** A schedule that brings [Up] into its second [Run] call, and one that lets
    it complete the first and go back to the receive. *)
Definition into_second_run : list tick := [TPlanner; TRunner; TRunner; TPlanner; TRunner].
Definition after_first_run : list tick := [TPlanner; TRunner; TRunner].

(** What an operation returned and what it left behind: the error, the [Run]
    targets the recording stub saw, and the version of the stub. *)
Definition outcome (res : option (Engine (stub.Stub * list call) * option error))
  : option (option error * list Z * Z) :=
  match res with
  | Some (m, err) =>
      Some (err, run_targets (snd (databaseDrv m)),
            stub.CurrentVersion (fst (databaseDrv m)))
  | None => None
  end.

(** ** Notions the properties are stated with *)

(** The mutating operations. *)
Inductive operation : Type :=
| OpMigrate (version : Z)
| OpSteps (n : Z)
| OpUp
| OpDown
| OpDrop.

(** [Steps(0)] returns before it takes the lock; every other call mutates. *)
Definition mutating (op : operation) : Prop :=
  match op with
  | OpSteps n => n <> 0
  | _ => True
  end.

(** The operations that plan and run migrations. *)
Definition planning (op : operation) : Prop :=
  match op with
  | OpSteps n => n <> 0
  | OpDrop => False
  | _ => True
  end.

(** A schedule in which nobody sends on [GracefulStop]. *)
Definition signal_free (sched : list tick) : Prop :=
  Forall (fun t => t <> TSignal) sched.

(** No stop was observed and none is pending. *)
Definition quiet {D} (m : Engine D) : Prop :=
  isGracefulStop m = false /\ GracefulStop m = [].

(** [stop] answers [true] exactly when the flag is set or a signal is pending. *)
Definition stopping {D} (m : Engine D) : bool :=
  isGracefulStop m || negb (match GracefulStop m with [] => true | _ => false end).

(** What [runMigrations] accepts: an [error] or a [*Migration]. *)
Definition error_or_migration (v : chanval) : Prop :=
  match v with
  | VError _ => True
  | VMigration _ => True
  | VOther => False
  end.

(** All the values a planner standing at [p] sends before it is back at a loop
    top satisfy [P]. *)
Fixpoint sends (P : chanval -> Prop) (p : plan) : Prop :=
  match p with
  | Send v k => P v /\ sends P k
  | _ => True
  end.

(** Nothing but errors and records is on its way to the runner, and the runner
    has not met anything else. *)
Definition typed_config {D} (c : config D) : Prop :=
  sends error_or_migration (pl c) /\ Forall error_or_migration (ret c) /\ rn c <> RPanic.

(** An up step has its target at or above its version ([newMigration] reads the
    up payload exactly then); a down step has it below. *)
Definition is_up (migr : Migration) : Prop :=
  int_of_uint (Version migr) <= TargetVersion migr.
Definition is_down (migr : Migration) : Prop :=
  TargetVersion migr < int_of_uint (Version migr).

(** The [Run] call [runMigrations] makes for a record. *)
Definition run_call (migr : Migration) : call :=
  CRun (TargetVersion migr)
       (match Body migr with None => None | Some _ => BufferedBody migr end).

Section Semantics.
Variable suint_neg : Z -> option Z.
Variable sourceDrv : source.Driver.

(** [Outputs p l]: left alone (no stop observed), the planner standing at [p]
    sends exactly the values [l], in this order, and closes [ret]. *)
Inductive Outputs : plan -> list chanval -> Prop :=
| Outputs_close : Outputs Close []
| Outputs_send v k l : Outputs k l -> Outputs (Send v k) (v :: l)
| Outputs_exit lp from count :
    loop_cond lp from count = false -> Outputs (At lp from count) []
| Outputs_iter lp from count l :
    loop_cond lp from count = true ->
    Outputs (loop_body suint_neg sourceDrv lp from count) l ->
    Outputs (At lp from count) l.

(** The same, computed with fuel for the loop iterations. *)
Fixpoint outputs (fuel : nat) (p : plan) : option (list chanval) :=
  match p with
  | Close => Some []
  | Panic => None
  | Latch => None
  | Send v k =>
      match fuel with
      | O => None
      | S fuel' => option_map (cons v) (outputs fuel' k)
      end
  | At lp from count =>
      if loop_cond lp from count then
        match fuel with
        | O => None
        | S fuel' => outputs fuel' (loop_body suint_neg sourceDrv lp from count)
        end
      else Some []
  end.

(** The records of the up steps that follow [from] in the source, up to its
    end: [Next] yields the version of each one in turn and reports that
    nothing exists after the last. *)
Inductive next_chain : Z -> list Migration -> Prop :=
| next_chain_end from err :
    source.Next sourceDrv from = Err err ->
    os_IsNotExist (Some err) = true ->
    next_chain from []
| next_chain_step from next migr rest :
    source.Next sourceDrv from = Ok next ->
    newMigration sourceDrv next (int_of_uint next) = Ok migr ->
    next_chain next rest ->
    next_chain from (migr :: rest).

(** A version that keeps its value through [int] and [suint]: [int(v)] is not
    [-1], the value that stands for no version, and [suint] gives [v] back
    from [int(v)]. Every version up to [MaxInt] does. *)
Definition keeps_int (v : Z) : Prop :=
  int_of_uint v <> -1 /\ suint suint_neg (int_of_uint v) = Some v.

Variable D : Type.
Variable drv : database.Driver D.

(** What the runner does with the values [l], received one after the other
    with no stop observed. *)
Fixpoint sequential (l : list chanval) (d : D) : D * runner :=
  match l with
  | [] => (d, RDone None)
  | VError err :: _ => (d, RDone (Some err))
  | VMigration migr :: l' =>
      let (d', err) := run_migration drv migr d in
      match err with
      | Some e => (d', RDone (Some e))
      | None => sequential l' d'
      end
  | VOther :: _ => (d, RPanic)
  end.

Definition perform (op : operation) (sched : list tick) (m : Engine D)
  : option (Engine D * option error) :=
  match op with
  | OpMigrate version => Migrate suint_neg sourceDrv drv version sched m
  | OpSteps n => Steps suint_neg sourceDrv drv n sched m
  | OpUp => Up suint_neg sourceDrv drv sched m
  | OpDown => Down suint_neg sourceDrv drv sched m
  | OpDrop => Some (Drop drv m)
  end.

(** The planner an operation starts on the current version. *)
Definition planner_of (op : operation) (curVersion : Z) : plan :=
  match op with
  | OpMigrate version => read suint_neg sourceDrv curVersion (int_of_uint version)
  | OpSteps n =>
      if 0 <? n then readUp suint_neg sourceDrv curVersion n
      else readDown suint_neg sourceDrv curVersion (int_neg n)
  | OpUp => readUp suint_neg sourceDrv curVersion (-1)
  | OpDown => readDown suint_neg sourceDrv curVersion (-1)
  | OpDrop => Close
  end.

(** The primary step of an operation, between [lock] and [unlock]: the
    driver's [Drop], or the driver's [Version] followed by [runMigrations]. *)
Definition primary (op : operation) (sched : list tick) (m : Engine D)
  : option (Engine D * option error) :=
  match op with
  | OpDrop =>
      let (d, err) := database.Drop drv (databaseDrv m) in
      Some (set_databaseDrv d m, err)
  | _ =>
      match database.Version drv (databaseDrv m) with
      | (d, Err err) => Some (set_databaseDrv d m, Some err)
      | (d, Ok curVersion) =>
          runMigrations suint_neg sourceDrv drv (planner_of op curVersion) sched
                        (set_databaseDrv d m)
      end
  end.
End Semantics.

Arguments sequential {D} drv l d.
Arguments perform suint_neg sourceDrv {D} drv op sched m.
Arguments primary suint_neg sourceDrv {D} drv op sched m.

(** A configuration of a run that started with the planner output [l] ahead
    and the driver in state [d0] on the engine [m0], and in which no stop was
    observed: what the runner has in hand, then [ret], then what the planner
    has yet to send, takes the runner where [l] would have taken it from
    [d0]. *)
Definition on_course suint_neg sourceDrv {D} (drv : database.Driver D)
    (l : list chanval) (m0 : Engine D) (c : config D) : Prop :=
  quiet (eng c) /\
  eng c = set_databaseDrv (databaseDrv (eng c)) m0 /\
  exists rest,
    Outputs suint_neg sourceDrv (pl c) rest /\
    match rn c with
    | RWait =>
        sequential drv (ret c ++ rest) (databaseDrv (eng c))
        = sequential drv l (databaseDrv m0)
    | RRun migr =>
        sequential drv (VMigration migr :: ret c ++ rest) (databaseDrv (eng c))
        = sequential drv l (databaseDrv m0)
    | RLatch => False
    | RDone err => (databaseDrv (eng c), RDone err) = sequential drv l (databaseDrv m0)
    | RPanic => (databaseDrv (eng c), RPanic) = sequential drv l (databaseDrv m0)
    end.

(** A run whose planner is in the loop of [readUp] without limit with [from]
    at -1 (at the loop top or at the send of a record), with records only in
    [ret], a runner that has not returned, and no stop observed. *)
Definition spinning {D} (c : config D) : Prop :=
  quiet (eng c) /\
  (exists count,
      pl c = At (UpLoop (-1)) (-1) count \/
      exists migr, pl c = Send (VMigration migr) (At (UpLoop (-1)) (-1) count)) /\
  Forall (fun v => exists migr, v = VMigration migr) (ret c) /\
  (rn c = RWait \/ exists migr, rn c = RRun migr).

(** No version the source hands out is one that [int] converts to -1 (of
    the [uint] values, the largest alone). *)
Definition never_nil (sourceDrv : source.Driver) : Prop :=
  (forall v, source.First sourceDrv = Ok v -> int_of_uint v <> -1) /\
  (forall u v, source.Next sourceDrv u = Ok v -> int_of_uint v <> -1) /\
  (forall u v, source.Prev sourceDrv u = Ok v -> int_of_uint v <> -1).

(** Not a record that takes the database to the empty state. *)
Definition not_to_nil (v : chanval) : Prop :=
  match v with
  | VMigration migr => TargetVersion migr <> -1
  | _ => True
  end.

(** Not a [Run] call that takes the database to the empty state. *)
Definition not_run_to_nil (x : call) : Prop :=
  match x with
  | CRun version _ => version <> -1
  | _ => True
  end.

(** The loop the planner [p] will be in after its pending sends, if any, is
    one that [L] describes. *)
Fixpoint heads_for (L : loop -> Z -> Z -> Prop) (p : plan) : Prop :=
  match p with
  | Send _ k => heads_for L k
  | At lp from count => L lp from count
  | Latch => True
  | Close => True
  | Panic => True
  end.

(** A loop of [read] towards a target other than -1. *)
Definition loops_above_nil (lp : loop) (from count : Z) : Prop :=
  match lp with
  | ReadUpLoop to => to <> -1
  | ReadDownLoop to => to <> -1
  | _ => False
  end.

(** The source keeps the order of its versions: [First] is a version, not
    above any present version; [Next(u)] is above [u] and not above any
    present version above [u]; [Prev(u)] is a version below [u]. *)
Definition follows_order (sourceDrv : source.Driver) : Prop :=
  (forall v w, source.First sourceDrv = Ok v ->
               0 <= w -> versionExists sourceDrv w = None -> 0 <= v <= w) /\
  (forall u v w, source.Next sourceDrv u = Ok v ->
                 u < w -> versionExists sourceDrv w = None -> u < v <= w) /\
  (forall u v, source.Prev sourceDrv u = Ok v -> 0 <= v < u).

(** A loop of [read] towards the target [to], other than -1: on the way up
    from a version to the present version [to], on the way down from an
    [int]. *)
Definition loops_in_order (sourceDrv : source.Driver) (to : Z)
    (lp : loop) (from count : Z) : Prop :=
  match lp with
  | ReadUpLoop t =>
      t = to /\ 0 <= from /\ to <= MaxInt /\ versionExists sourceDrv to = None
  | ReadDownLoop t => t = to /\ to <> -1 /\ from <= MaxInt
  | _ => False
  end.

(** A run of [read] whose loops [L] describes, on a driver whose log began as
    [log0]: no record to the empty state is planned, sent or being run, and
    none was run. *)
Definition above_nil {D} (L : loop -> Z -> Z -> Prop) (log0 : list call)
    (c : config (D * list call)) : Prop :=
  sends not_to_nil (pl c) /\
  heads_for L (pl c) /\
  Forall not_to_nil (ret c) /\
  (forall migr, rn c = RRun migr -> TargetVersion migr <> -1) /\
  exists new, snd (databaseDrv (eng c)) = log0 ++ new /\ Forall not_run_to_nil new.

(** A run in which the flag [isGracefulStop] stood written when the driver
    was in state [d1] and the runner stood at [rn1]: the flag stays; a runner
    that stood at the receive has made no [Run] call since and can only return
    [nil]; a runner that stood inside [Run] for a record either is still
    there, or has completed this one call and returned its error or gone back
    to the receive, from where it can only return [nil]. *)
Definition after_latch {D} (drv : database.Driver D) (d1 : D) (rn1 : runner)
    (c : config D) : Prop :=
  isGracefulStop (eng c) = true /\
  match rn1 with
  | RWait => databaseDrv (eng c) = d1 /\ (rn c = RWait \/ rn c = RDone None)
  | RLatch => databaseDrv (eng c) = d1 /\ (rn c = RLatch \/ rn c = RDone None)
  | RRun migr =>
      (rn c = RRun migr /\ databaseDrv (eng c) = d1) \/
      (databaseDrv (eng c) = fst (run_migration drv migr d1) /\
       match snd (run_migration drv migr d1) with
       | Some e => rn c = RDone (Some e)
       | None => rn c = RWait \/ rn c = RDone None
       end)
  | _ => databaseDrv (eng c) = d1 /\ rn c = rn1
  end.

(** ** Drivers of the examples *)

(** A source whose [ReadUp] and [ReadDown] fail with an I/O error. *)
Definition io_error : error := DriverError KOther "input/output error".

Definition failing_source : source.Driver :=
  {| source.First := Ok 1;
     source.Next := fun _ => Err index.not_exist;
     source.Prev := fun _ => Err index.not_exist;
     source.ReadUp := fun _ => Err io_error;
     source.ReadDown := fun _ => Err io_error |}.

(** The stub database, except that [Run] for target [bad] or [Unlock] fails. *)
Definition run_error : error := DriverError KOther "migration failed".
Definition unlock_error : error := DriverError KOther "can't release lock".

Definition failing_run (bad : Z) : database.Driver stub.Stub :=
  {| database.Lock := stub.Lock; database.Unlock := stub.Unlock;
     database.Run := fun version migration s =>
       if version =? bad then (s, Some run_error) else stub.Run version migration s;
     database.Version := stub.Version; database.Drop := stub.Drop |}.

Definition failing_unlock (bad : Z) : database.Driver stub.Stub :=
  {| database.Lock := stub.Lock;
     database.Unlock := fun s => (s, Some unlock_error);
     database.Run := database.Run (failing_run bad);
     database.Version := stub.Version; database.Drop := stub.Drop |}.

(** The stub database at version [v]. *)
Definition stub_at (v : Z) : stub.Stub := fst (stub.Run v None stub.Open).


(** ** The rest of the engine *)

Module engine.
Section Version.
Variable suint_neg : Z -> option Z.
Variable D : Type.
Variable drv : database.Driver D.

(** [func (m *Migrate) Version() (uint, error)]; [None] when [suint] does not
    return. *)
Definition Version (m : Engine D) : option (Engine D * result Z) :=
  let (d, r) := database.Version drv (databaseDrv m) in
  match r with
  | Err err => Some (set_databaseDrv d m, Err err)
  | Ok v =>
      if v =? database.NilVersion then Some (set_databaseDrv d m, Err ErrNilVersion)
      else
        match suint suint_neg v with
        | Some u => Some (set_databaseDrv d m, Ok u)
        | None => None
        end
  end.
End Version.
End engine.

Arguments engine.Version suint_neg {D} drv m.

(** ** Further notions *)

(** The records among the values of a channel, in order. *)
Fixpoint records (l : list chanval) : list Migration :=
  match l with
  | [] => []
  | VMigration migr :: l' => migr :: records l'
  | _ :: l' => records l'
  end.

(** What is left of the planner's output: nothing is said of a planner that
    stands before the write of the stop flag, which sends no more. *)
Definition remaining suint_neg sourceDrv (p : plan) (rest : list chanval) : Prop :=
  match p with
  | Latch => True
  | _ => Outputs suint_neg sourceDrv p rest
  end.

(** A run of a planner whose whole output would be [l], on a recording driver
    whose log began as [log0]: the [Run] calls made so far are those of the
    records of the values [pre] the runner is through with, and [pre], what the
    runner has in hand, [ret] and what the planner has yet to send make up a
    beginning of [l]. *)
Definition in_order suint_neg sourceDrv {D} (l : list chanval) (log0 : list call)
    (c : config (D * list call)) : Prop :=
  exists pre rest suffix,
    snd (databaseDrv (eng c)) = log0 ++ map run_call (records pre) /\
    remaining suint_neg sourceDrv (pl c) rest /\
    match rn c with
    | RWait => pre ++ ret c ++ rest ++ suffix = l
    | RRun migr => pre ++ VMigration migr :: ret c ++ rest ++ suffix = l
    | _ => exists s, pre ++ s = l
    end.

(** An engine an operation can start on, over the recording stub: not
    stopped, not locked, and the stub not locked. *)
Definition ready (m : Engine (stub.Stub * list call)) : Prop :=
  quiet m /\ isLocked m = false /\ stub.IsLocked (fst (databaseDrv m)) = false.

(** The payloads the stub database receives for the records [recs]: the
    buffered body of every record that has a body. *)
Definition bodies (recs : list Migration) : list string :=
  flat_map (fun migr =>
              match Body migr, BufferedBody migr with
              | Some _, Some b => [b]
              | _, _ => []
              end) recs.

(** The end of a planner's output: an error, or nothing. *)
Definition closing (err : option error) : list chanval :=
  match err with
  | Some e => [VError e]
  | None => []
  end.


(** The version the stub database reports for the engine [m]. *)
Definition seen (m : Engine (stub.Stub * list call)) : Z :=
  if stub.CurrentVersion (fst (databaseDrv m)) <? 0 then database.NilVersion
  else stub.CurrentVersion (fst (databaseDrv m)).

(** What a planning operation that ran the records [recs] on the engine [m]
    over the recording stub leaves behind, [m']: an engine ready for the next
    operation, with the database at the target of the last record, the
    payloads of [recs] appended to its sequence, and the calls [Lock],
    [Version], one [Run] per record, [Unlock] appended to the log. *)
Definition applied (m : Engine (stub.Stub * list call)) (recs : list Migration)
    (m' : Engine (stub.Stub * list call)) : Prop :=
  ready m' /\
  PrefetchMigrations m' = PrefetchMigrations m /\
  stub.CurrentVersion (fst (databaseDrv m'))
  = last (map TargetVersion recs) (stub.CurrentVersion (fst (databaseDrv m))) /\
  stub.MigrationSequence (fst (databaseDrv m'))
  = (stub.MigrationSequence (fst (databaseDrv m)) ++ bodies recs)%list /\
  snd (databaseDrv m')
  = (snd (databaseDrv m) ++ CLock :: CVersion :: map run_call recs ++ [CUnlock])%list.

(** The operation [op] on the engine [m] over the recording stub runs the
    records [recs] and returns [err]: it does so whenever it returns under a
    schedule without stop signal, and it returns under some such schedule. *)
Definition settles suint_neg sourceDrv (op : operation)
    (m : Engine (stub.Stub * list call)) (recs : list Migration) (err : option error)
  : Prop :=
  (exists sched m',
      signal_free sched /\
      perform suint_neg sourceDrv (recorder stub.driver) op sched m = Some (m', err)) /\
  (forall sched m' r,
      signal_free sched ->
      perform suint_neg sourceDrv (recorder stub.driver) op sched m = Some (m', r) ->
      r = err /\ applied m recs m').


(** The up steps to the versions [l], in order. *)
Definition ups_of (ix : list index.entry) (l : list Z) : list Migration :=
  map (fun v => planned ix v v) l.

(** The down steps from [v] along the versions [path], each one from where the
    one before arrived. *)
Fixpoint descent (ix : list index.entry) (path : list Z) (v : Z) : list Migration :=
  match path with
  | [] => []
  | u :: path' => planned ix v u :: descent ix path' u
  end.

(** The versions of the index above [cur], and those below it, nearest
    first. *)
Definition above (ix : list index.entry) (cur : Z) : list Z :=
  filter (fun v => cur <? v) (index.versions ix).
Definition below (ix : list index.entry) (cur : Z) : list Z :=
  rev (filter (fun v => v <? cur) (index.versions ix)).

(** The database is in the empty state and the source has a version, or the
    database is at a version of the source. *)
Definition placed (ix : list index.entry) (cur : Z) : Prop :=
  (cur = -1 /\ ix <> []) \/ In cur (index.versions ix).

(** What is left of [l] for a loop with [limit] that has counted [count]
    steps: all of it without limit. *)
Definition allowed (limit count : Z) (l : list Z) : list Z :=
  if limit =? -1 then l else firstn (Z.to_nat (limit - count)) l.

(** How the loops of [readUp] and [readDown] end when the source has [total]
    steps to offer. *)
Definition up_end (limit total : Z) : option error :=
  if limit =? -1 then (if total =? 0 then Some ErrNoChange else None)
  else if limit <=? total then None
  else if total =? 0 then Some os_ErrNotExist
  else Some (ErrShortLimit (limit - total)).
Definition down_end (limit total : Z) : option error :=
  if limit =? -1 then None
  else if limit <=? total then None
  else Some (ErrShortLimit (limit - total)).


(** [m.PrefetchMigrations = n]: the depth of [ret] is a field the caller may
    set before an operation. *)
Definition set_PrefetchMigrations {D} (n : Z) (m : Engine D) : Engine D :=
  {| databaseDrv := databaseDrv m; GracefulStop := GracefulStop m;
     isGracefulStop := isGracefulStop m; isLocked := isLocked m;
     PrefetchMigrations := n |}.

(** The payload [newMigration] asks the source for: the up payload when the
    target is not below the version, the down payload otherwise. *)
Definition payload (sourceDrv : source.Driver) (version targetVersion : Z)
  : result (string * string) :=
  if int_of_uint version <=? targetVersion then source.ReadUp sourceDrv version
  else source.ReadDown sourceDrv version.

(** The schedule that lets the planner take two steps for each step of the
    runner, [n] times. *)
Fixpoint planner_ahead (n : nat) : list tick :=
  match n with
  | O => []
  | S n' => TPlanner :: TPlanner :: TRunner :: planner_ahead n'
  end.

(** An index whose last version is [2^64 - 1], the version [int] turns into
    [-1], and one whose last version is [2^63], the first version above
    [MaxInt]. *)
Definition top_version_index : list index.entry :=
  [ (3, index.UpDown "up3" "down3");
    (18446744073709551615, index.UpDown "upmax" "downmax") ].

Definition above_int_index : list index.entry :=
  [ (3, index.UpDown "up3" "down3");
    (9223372036854775808, index.UpDown "upbig" "downbig") ].

(** An index kept out of order, with the version [2^64 - 1] ahead of the
    version 5: its [Next] answers [2^64 - 1] after 3. *)
Definition unordered_index : list index.entry :=
  [ (3, index.UpDown "up3" "down3");
    (18446744073709551615, index.UpDown "upmax" "downmax");
    (5, index.UpDown "up5" "down5") ].


(** * Properties *)

(** ** The end-to-end scenarios, on the index 1, 3, 4, 5, 7 *)

Section Scenarios.
Let src := index.driver scenario_index.
Let drv := recorder stub.driver.
Let at_version (v : Z) : Engine (stub.Stub * list call) := newCommon (stub_at v, []).

Example scenario_Up :
  outcome (Up suint_panics src drv (alternate 30) (newCommon (stub.Open, [])))
  = Some (None, [1; 3; 4; 5; 7], 7).
Proof. reflexivity. Qed.

Example scenario_Down :
  outcome (Down suint_panics src drv (alternate 30) (at_version 7))
  = Some (None, [5; 4; 3; 1; -1], -1).
Proof. reflexivity. Qed.

Example scenario_Steps_2 :
  outcome (Steps suint_panics src drv 2 (alternate 30) (newCommon (stub.Open, [])))
  = Some (None, [1; 3], 3).
Proof. reflexivity. Qed.

Example scenario_Steps_10 :
  outcome (Steps suint_panics src drv 10 (alternate 30) (at_version 3))
  = Some (Some (ErrShortLimit 7), [4; 5; 7], 7).
Proof. reflexivity. Qed.

Example scenario_Migrate_4 :
  outcome (Migrate suint_panics src drv 4 (alternate 30) (at_version 7))
  = Some (None, [5; 4], 4).
Proof. reflexivity. Qed.

Example scenario_Migrate_absent :
  outcome (Migrate suint_panics src drv 9 (alternate 30) (at_version 7))
  = Some (Some os_ErrNotExist, [], 7).
Proof. reflexivity. Qed.

Example scenario_Up_at_top :
  outcome (Up suint_panics src drv (alternate 30) (at_version 7))
  = Some (Some ErrNoChange, [], 7).
Proof. reflexivity. Qed.

(** With prefetch switched off the channel is unbuffered and every value is
    handed over at the runner's receive. *)
Example scenario_Up_unbuffered :
  outcome (Up suint_panics src drv (alternate 30) (fresh 0))
  = Some (None, [1; 3; 4; 5; 7], 7).
Proof. reflexivity. Qed.

(** A stop signal that is pending when [Up] starts: nothing is run, [nil] is
    returned. *)
Example scenario_Up_stopped :
  outcome (Up suint_panics src drv (alternate 30) (signal (fresh 10)))
  = Some (None, [], -1).
Proof. reflexivity. Qed.
End Scenarios.

(** ** Machine integers *)

Lemma wrap_int_id z : MinInt <= z <= MaxInt -> wrap_int z = z.
Proof.
  unfold MinInt, MaxInt, wrap_int, int_bits.
  change (2 ^ (64 - 1)) with 9223372036854775808.
  change (2 ^ 64) with 18446744073709551616.
  intros H. rewrite Z.mod_small; lia.
Qed.

Lemma MaxInt_pos : 0 < MaxInt.
Proof. reflexivity. Qed.

Lemma MinInt_neg : MinInt < -1.
Proof. reflexivity. Qed.

Lemma int_of_uint_id u : 0 <= u <= MaxInt -> int_of_uint u = u.
Proof.
  intros H. apply wrap_int_id. pose proof MinInt_neg. lia.
Qed.

Lemma int_add_id a b : MinInt <= a + b <= MaxInt -> int_add a b = a + b.
Proof. apply wrap_int_id. Qed.

Lemma int_sub_id a b : MinInt <= a - b <= MaxInt -> int_sub a b = a - b.
Proof. apply wrap_int_id. Qed.

Lemma suint_nonneg suint_neg n : 0 <= n -> suint suint_neg n = Some n.
Proof.
  intros H. unfold suint. destruct (Z.leb_spec 0 n); [reflexivity | lia].
Qed.

(** ** Strings *)

Lemma append_nil_r (s : string) : (s ++ "")%string = s.
Proof. induction s as [|a s IH]; simpl; [reflexivity | now rewrite IH]. Qed.

Lemma append_assoc (s t u : string) : ((s ++ t) ++ u)%string = (s ++ t ++ u)%string.
Proof. induction s as [|a s IH]; simpl; [reflexivity | now rewrite IH]. Qed.

Lemma contains_left s t : contains (s ++ t) s.
Proof. exists ""%string, t. reflexivity. Qed.

Lemma contains_right s t : contains (s ++ t) t.
Proof. exists s, ""%string. now rewrite append_nil_r. Qed.

Lemma contains_middle s t u : contains (s ++ t ++ u) t.
Proof. exists s, u. reflexivity. Qed.

(** ** The stop signal *)

Lemma stop_receive_quiet {D} (m : Engine D) : quiet m -> stop_receive m = (m, Running).
Proof. intros [H1 H2]. unfold stop_receive. now rewrite H1, H2. Qed.

Lemma stop_receive_latched {D} (m : Engine D) :
  isGracefulStop m = true -> stop_receive m = (m, Latched).
Proof. intros H. unfold stop_receive. now rewrite H. Qed.

Lemma stop_receive_isGracefulStop {D} (m : Engine D) :
  isGracefulStop (fst (stop_receive m)) = isGracefulStop m.
Proof.
  unfold stop_receive. destruct (isGracefulStop m) eqn:E; [exact E|].
  destruct (GracefulStop m); simpl; [exact E | reflexivity].
Qed.

Lemma stop_receive_databaseDrv {D} (m : Engine D) :
  databaseDrv (fst (stop_receive m)) = databaseDrv m.
Proof.
  unfold stop_receive. destruct (isGracefulStop m); [reflexivity|].
  now destruct (GracefulStop m).
Qed.

Lemma stop_receive_isLocked {D} (m : Engine D) :
  isLocked (fst (stop_receive m)) = isLocked m.
Proof.
  unfold stop_receive. destruct (isGracefulStop m); [reflexivity|].
  now destruct (GracefulStop m).
Qed.

Lemma stop_receive_PrefetchMigrations {D} (m : Engine D) :
  PrefetchMigrations (fst (stop_receive m)) = PrefetchMigrations m.
Proof.
  unfold stop_receive. destruct (isGracefulStop m); [reflexivity|].
  now destruct (GracefulStop m).
Qed.

Lemma stop_quiet {D} (m : Engine D) : quiet m -> stop m = (m, false).
Proof. intros H. unfold stop. now rewrite (stop_receive_quiet m H). Qed.

Lemma set_databaseDrv_same {D} (m : Engine D) : set_databaseDrv (databaseDrv m) m = m.
Proof. now destruct m. Qed.

Lemma stop_stopping {D} (m : Engine D) : snd (stop m) = stopping m.
Proof.
  unfold stop, stop_receive, stopping. destruct (isGracefulStop m); [reflexivity|].
  now destruct (GracefulStop m).
Qed.

Lemma stop_latches {D} (m : Engine D) :
  snd (stop m) = true -> isGracefulStop (fst (stop m)) = true.
Proof.
  unfold stop, stop_receive. destruct (isGracefulStop m) eqn:E; simpl; [now rewrite E|].
  destruct (GracefulStop m); simpl; [discriminate | reflexivity].
Qed.

Lemma stop_keeps_stopping {D} (m : Engine D) :
  stopping m = true -> stopping (fst (stop m)) = true.
Proof.
  intros H. rewrite <- stop_stopping in H. apply stop_latches in H.
  unfold stopping. now rewrite H.
Qed.

Lemma stop_databaseDrv {D} (m : Engine D) : databaseDrv (fst (stop m)) = databaseDrv m.
Proof.
  unfold stop, stop_receive. destruct (isGracefulStop m); [reflexivity|].
  now destruct (GracefulStop m).
Qed.

Lemma stop_isLocked {D} (m : Engine D) : isLocked (fst (stop m)) = isLocked m.
Proof.
  unfold stop, stop_receive. destruct (isGracefulStop m); [reflexivity|].
  now destruct (GracefulStop m).
Qed.

Lemma stop_PrefetchMigrations {D} (m : Engine D) :
  PrefetchMigrations (fst (stop m)) = PrefetchMigrations m.
Proof.
  unfold stop, stop_receive. destruct (isGracefulStop m); [reflexivity|].
  now destruct (GracefulStop m).
Qed.

(** Left alone, the two steps of a call give [stop]: a planner at a loop top
    whose [stop] takes the signal has, after its next step, written the flag
    and returned, with the engine [stop] gives; a planner that finds no
    signal, or the flag written, is through its [stop] in one step. *)
Lemma stop_in_two_steps suint_neg sourceDrv {D} (c : config D) lp from count :
  pl c = At lp from count -> loop_cond lp from count = true ->
  let c1 := planner_step suint_neg sourceDrv c in
  let c2 := planner_step suint_neg sourceDrv c1 in
  match snd (stop_receive (eng c)) with
  | Taken =>
      pl c1 = Latch /\ eng c2 = fst (stop (eng c)) /\ pl c2 = Close /\
      snd (stop (eng c)) = true
  | Latched =>
      eng c1 = fst (stop (eng c)) /\ pl c1 = Close /\ snd (stop (eng c)) = true
  | Running =>
      eng c1 = fst (stop (eng c)) /\
      pl c1 = loop_body suint_neg sourceDrv lp from count /\
      snd (stop (eng c)) = false
  end.
Proof.
  intros Hp Hc. cbv zeta. unfold stop, planner_step. rewrite Hp, Hc.
  destruct (stop_receive (eng c)) as [m [ | | ]]; simpl; auto.
Qed.

(** ** Schedules *)

Section Exec.
Variable suint_neg : Z -> option Z.
Variable sourceDrv : source.Driver.
Variable D : Type.
Variable drv : database.Driver D.

Local Abbreviation step1 := (step suint_neg sourceDrv drv).
Local Abbreviation run := (exec suint_neg sourceDrv drv).

Lemma exec_app s1 s2 (c : config D) : run (s1 ++ s2) c = run s2 (run s1 c).
Proof. revert c. induction s1 as [|t s1 IH]; intros c; simpl; [reflexivity | apply IH]. Qed.

(** A property that every step keeps holds along every schedule. *)
Lemma exec_invariant (P : config D -> Prop) :
  (forall t c, P c -> P (step1 t c)) ->
  forall sched c, P c -> P (run sched c).
Proof.
  intros Hstep sched. induction sched as [|t sched IH]; intros c Hc; simpl; [exact Hc|].
  apply IH, Hstep, Hc.
Qed.

(** The same for a relation between the configuration before and after. *)
Lemma exec_relation (R : config D -> config D -> Prop) :
  (forall c, R c c) ->
  (forall c1 c2 c3, R c1 c2 -> R c2 c3 -> R c1 c3) ->
  (forall t c, R c (step1 t c)) ->
  forall sched c, R c (run sched c).
Proof.
  intros Hrefl Htrans Hstep sched. induction sched as [|t sched IH]; intros c; simpl.
  - apply Hrefl.
  - eapply Htrans; [apply Hstep | apply IH].
Qed.

Lemma exec_done sched (c : config D) : is_done (rn c) = true -> run sched c = c.
Proof.
  intros H. induction sched as [|t sched IH]; simpl; [reflexivity|].
  unfold step. now rewrite H.
Qed.

Lemma dispatch_eng (m : Engine D) r :
  fst (dispatch m r) = fst (stop_receive m).
Proof.
  unfold dispatch. destruct (stop_receive m) as [m' obs]. destruct obs; try reflexivity.
  now destruct r.
Qed.

(** The steps leave [isLocked] alone. *)
Lemma step_isLocked t (c : config D) : isLocked (eng (step1 t c)) = isLocked (eng c).
Proof.
  unfold step. destruct (is_done (rn c) || is_panic (pl c)); [reflexivity|].
  destruct t; simpl.
  - unfold planner_step. destruct (pl c); try reflexivity.
    + destruct (loop_cond l from count); [|reflexivity].
      pose proof (stop_receive_isLocked (eng c)) as H. destruct (stop_receive (eng c)). exact H.
    + now destruct (_ <? _).
  - unfold runner_step. destruct (rn c); try reflexivity.
    + destruct (ret c).
      * destruct (pl c); try reflexivity.
        pose proof (dispatch_eng (eng c) v) as H. destruct (dispatch (eng c) v).
        simpl in *. subst. apply stop_receive_isLocked.
      * pose proof (dispatch_eng (eng c) c0) as H. destruct (dispatch (eng c) c0).
        simpl in *. subst. apply stop_receive_isLocked.
    + now destruct (run_migration drv migr (databaseDrv (eng c))).
  - unfold signal. now destruct (_ <? _)%nat.
Qed.

Lemma exec_isLocked sched (c : config D) : isLocked (eng (run sched c)) = isLocked (eng c).
Proof.
  apply (exec_relation (fun c c' => isLocked (eng c') = isLocked (eng c))).
  - reflexivity.
  - intros c1 c2 c3 H1 H2. congruence.
  - intros t c0. apply step_isLocked.
Qed.

Lemma runMigrations_isLocked p sched (m m' : Engine D) r :
  runMigrations suint_neg sourceDrv drv p sched m = Some (m', r) ->
  isLocked m' = isLocked m.
Proof.
  unfold runMigrations. intros H.
  pose proof (exec_isLocked sched (start p m)) as E.
  destruct (rn (run sched (start p m))); try discriminate.
  injection H as <- _. exact E.
Qed.
End Exec.

(** ** What the recording driver sees during a run *)

Section Recorded.
Variable suint_neg : Z -> option Z.
Variable sourceDrv : source.Driver.
Variable D : Type.
Variable drv : database.Driver D.

Local Abbreviation rec := (recorder drv).
Local Abbreviation log_of := (fun c : config (D * list call) => snd (databaseDrv (eng c))).

Lemma runs_added_refl l : runs_added l l.
Proof. exists []. split; [now rewrite app_nil_r | constructor]. Qed.

Lemma runs_added_trans l1 l2 l3 : runs_added l1 l2 -> runs_added l2 l3 -> runs_added l1 l3.
Proof.
  intros [n1 [-> H1]] [n2 [-> H2]]. exists (n1 ++ n2). split.
  - now rewrite app_assoc.
  - apply Forall_app. now split.
Qed.

Lemma run_migration_log migr (s : D * list call) :
  snd (fst (run_migration rec migr s)) = snd s ++ [run_call migr].
Proof.
  unfold run_migration, run_call. destruct (Body migr); simpl.
  - now destruct (database.Run drv (TargetVersion migr) (BufferedBody migr) (fst s)).
  - now destruct (database.Run drv (TargetVersion migr) None (fst s)).
Qed.

Lemma run_call_is_run migr : is_run (run_call migr) = true.
Proof. reflexivity. Qed.

Lemma step_log t (c : config (D * list call)) :
  runs_added (log_of c) (log_of (step suint_neg sourceDrv rec t c)).
Proof.
  unfold step. destruct (is_done (rn c) || is_panic (pl c)); [apply runs_added_refl|].
  destruct t; simpl.
  - unfold planner_step. destruct (pl c); try apply runs_added_refl.
    + destruct (loop_cond l from count); [|apply runs_added_refl].
      pose proof (stop_receive_databaseDrv (eng c)) as H.
      destruct (stop_receive (eng c)). simpl in *.
      rewrite H. apply runs_added_refl.
    + destruct (_ <? _); apply runs_added_refl.
  - unfold runner_step. destruct (rn c); try apply runs_added_refl.
    + destruct (ret c).
      * destruct (pl c); try apply runs_added_refl.
        pose proof (dispatch_eng _ (eng c) v) as H. destruct (dispatch (eng c) v).
        simpl in *. subst. rewrite stop_receive_databaseDrv. apply runs_added_refl.
      * pose proof (dispatch_eng _ (eng c) c0) as H. destruct (dispatch (eng c) c0).
        simpl in *. subst. rewrite stop_receive_databaseDrv. apply runs_added_refl.
    + pose proof (run_migration_log migr (databaseDrv (eng c))) as H.
      destruct (run_migration rec migr (databaseDrv (eng c))) as [d err]. simpl in *.
      exists [run_call migr]. split; [exact H | repeat constructor].
  - unfold signal. destruct (_ <? _)%nat; apply runs_added_refl.
Qed.

Lemma exec_log sched (c : config (D * list call)) :
  runs_added (log_of c) (log_of (exec suint_neg sourceDrv rec sched c)).
Proof.
  apply (exec_relation suint_neg sourceDrv _ rec (fun c c' => runs_added (log_of c) (log_of c'))).
  - intros c0. apply runs_added_refl.
  - intros c1 c2 c3. apply runs_added_trans.
  - intros t c0. apply step_log.
Qed.

Lemma runMigrations_log p sched (m m' : Engine (D * list call)) r :
  runMigrations suint_neg sourceDrv rec p sched m = Some (m', r) ->
  runs_added (snd (databaseDrv m)) (snd (databaseDrv m')).
Proof.
  unfold runMigrations. intros H.
  pose proof (exec_log sched (start p m)) as E.
  destruct (rn (exec suint_neg sourceDrv rec sched (start p m))); try discriminate.
  injection H as <- _. exact E.
Qed.

Lemma count_calls_app f l1 l2 :
  count_calls f (l1 ++ l2) = (count_calls f l1 + count_calls f l2)%nat.
Proof. unfold count_calls. now rewrite filter_app, length_app. Qed.

Lemma count_lock_runs new :
  Forall (fun x => is_run x = true) new -> count_calls is_lock new = 0%nat.
Proof.
  induction 1 as [|x l Hx _ IH]; [reflexivity|].
  unfold count_calls in *. simpl. destruct x; try discriminate. exact IH.
Qed.

Lemma count_unlock_runs new :
  Forall (fun x => is_run x = true) new -> count_calls is_unlock new = 0%nat.
Proof.
  induction 1 as [|x l Hx _ IH]; [reflexivity|].
  unfold count_calls in *. simpl. destruct x; try discriminate. exact IH.
Qed.
End Recorded.

(** ** The shape of the operations *)

Section Shape.
Variable suint_neg : Z -> option Z.
Variable sourceDrv : source.Driver.
Variable D : Type.
Variable drv : database.Driver D.

(** A planning operation is [lock], the primary step, [unlockErr]. *)
Lemma perform_planning op sched (m m1 : Engine D) :
  planning op ->
  lock drv m = (m1, None) ->
  perform suint_neg sourceDrv drv op sched m =
  match primary suint_neg sourceDrv drv op sched m1 with
  | Some (m2, err) => Some (unlockErr drv err m2)
  | None => None
  end.
Proof.
  intros Hop Hlock.
  destruct op; simpl in Hop; try contradiction; simpl;
    unfold Migrate, Steps, Up, Down, locked_run; rewrite ?Hlock.
  - destruct (database.Version drv (databaseDrv m1)) as [d [cur|err]]; [|reflexivity].
    now destruct (runMigrations _ _ _ _ _ _) as [[m2 err]|].
  - destruct (Z.eqb_spec n 0); [contradiction|].
    destruct (database.Version drv (databaseDrv m1)) as [d [cur|err]]; [|reflexivity].
    now destruct (runMigrations _ _ _ _ _ _) as [[m2 err]|].
  - destruct (database.Version drv (databaseDrv m1)) as [d [cur|err]]; [|reflexivity].
    now destruct (runMigrations _ _ _ _ _ _) as [[m2 err]|].
  - destruct (database.Version drv (databaseDrv m1)) as [d [cur|err]]; [|reflexivity].
    now destruct (runMigrations _ _ _ _ _ _) as [[m2 err]|].
Qed.

(** [Drop] is [lock], the driver's [Drop], then [unlockErr] on its error or a
    plain [unlock]. *)
Lemma perform_drop sched (m m1 : Engine D) :
  lock drv m = (m1, None) ->
  perform suint_neg sourceDrv drv OpDrop sched m =
  match primary suint_neg sourceDrv drv OpDrop sched m1 with
  | Some (m2, Some err) => Some (unlockErr drv (Some err) m2)
  | Some (m2, None) => Some (unlock drv m2)
  | None => None
  end.
Proof.
  intros Hlock. simpl. unfold Drop. rewrite Hlock.
  now destruct (database.Drop drv (databaseDrv m1)) as [d [err|]].
Qed.

Lemma lock_isLocked (m m1 : Engine D) : lock drv m = (m1, None) -> isLocked m1 = true.
Proof.
  unfold lock. destruct (isLocked m); simpl; [discriminate|].
  destruct (database.Lock drv (databaseDrv m)) as [d [e|]]; [discriminate|].
  now intros [= <-].
Qed.

Lemma primary_isLocked op sched (m m2 : Engine D) r :
  primary suint_neg sourceDrv drv op sched m = Some (m2, r) -> isLocked m2 = isLocked m.
Proof.
  assert (G : forall p0, match database.Version drv (databaseDrv m) with
        | (d, Ok curVersion) =>
            runMigrations suint_neg sourceDrv drv (p0 curVersion) sched (set_databaseDrv d m)
        | (d, Err err) => Some (set_databaseDrv d m, Some err) end = Some (m2, r) ->
        isLocked m2 = isLocked m).
  { intros p0. destruct (database.Version drv (databaseDrv m)) as [d [cur|err]].
    - intros H. apply runMigrations_isLocked in H. exact H.
    - now intros [= <- _]. }
  destruct op; simpl; try apply (G (fun cur => planner_of suint_neg sourceDrv _ cur)).
  - apply (G (fun cur => planner_of suint_neg sourceDrv (OpMigrate version) cur)).
  - apply (G (fun cur => planner_of suint_neg sourceDrv (OpSteps n) cur)).
  - apply (G (fun cur => planner_of suint_neg sourceDrv OpUp cur)).
  - apply (G (fun cur => planner_of suint_neg sourceDrv OpDown cur)).
  - destruct (database.Drop drv (databaseDrv m)) as [d err]. now intros [= <- _].
Qed.
End Shape.

(** ** Lock discipline *)

Section LockDiscipline.
Variable suint_neg : Z -> option Z.
Variable sourceDrv : source.Driver.
Variable D : Type.
Variable drv : database.Driver D.

Local Abbreviation rec := (recorder drv).

Lemma lock_recorded (m : Engine (D * list call)) :
  isLocked m = false ->
  snd (database.Lock drv (fst (databaseDrv m))) = None ->
  exists m1, lock rec m = (m1, None) /\
             snd (databaseDrv m1) = snd (databaseDrv m) ++ [CLock].
Proof.
  intros Hl Hd. unfold lock. rewrite Hl. simpl.
  destruct (database.Lock drv (fst (databaseDrv m))) as [d err]. simpl in Hd. subst err.
  eexists. split; reflexivity.
Qed.

Lemma unlock_recorded (m : Engine (D * list call)) :
  snd (databaseDrv (fst (unlock rec m))) = snd (databaseDrv m) ++ [CUnlock].
Proof.
  unfold unlock. simpl.
  now destruct (database.Unlock drv (fst (databaseDrv m))) as [d [err|]].
Qed.

Lemma unlockErr_recorded prevErr (m : Engine (D * list call)) :
  snd (databaseDrv (fst (unlockErr rec prevErr m))) = snd (databaseDrv m) ++ [CUnlock].
Proof.
  unfold unlockErr. pose proof (unlock_recorded m) as H.
  destruct (unlock rec m) as [m' [err|]]; exact H.
Qed.

Lemma primary_recorded op sched (m m2 : Engine (D * list call)) r :
  primary suint_neg sourceDrv rec op sched m = Some (m2, r) ->
  exists mid, snd (databaseDrv m2) = snd (databaseDrv m) ++ mid /\
              count_calls is_lock mid = 0%nat /\ count_calls is_unlock mid = 0%nat.
Proof.
  assert (G : forall p0, match database.Version rec (databaseDrv m) with
        | (d, Ok curVersion) =>
            runMigrations suint_neg sourceDrv rec (p0 curVersion) sched (set_databaseDrv d m)
        | (d, Err err) => Some (set_databaseDrv d m, Some err) end = Some (m2, r) ->
        exists mid, snd (databaseDrv m2) = snd (databaseDrv m) ++ mid /\
              count_calls is_lock mid = 0%nat /\ count_calls is_unlock mid = 0%nat).
  { intros p0. simpl.
    destruct (database.Version drv (fst (databaseDrv m))) as [d [cur|err]].
    - intros H. apply runMigrations_log in H. destruct H as [new [E Hnew]].
      simpl in E. exists (CVersion :: new). split.
      + rewrite E. now rewrite <- app_assoc.
      + change (CVersion :: new) with ([CVersion] ++ new).
        rewrite !count_calls_app, (count_lock_runs new Hnew), (count_unlock_runs new Hnew).
        split; reflexivity.
    - intros [= <- _]. exists [CVersion]. repeat split. }
  destruct op.
  - apply (G (fun cur => planner_of suint_neg sourceDrv (OpMigrate version) cur)).
  - apply (G (fun cur => planner_of suint_neg sourceDrv (OpSteps n) cur)).
  - apply (G (fun cur => planner_of suint_neg sourceDrv OpUp cur)).
  - apply (G (fun cur => planner_of suint_neg sourceDrv OpDown cur)).
  - simpl. destruct (database.Drop drv (fst (databaseDrv m))) as [d err].
    intros [= <- _]. exists [CDrop]. repeat split.
Qed.

(** C1. A mutating operation ([Migrate], [Steps] with [n <> 0], [Up], [Down],
    [Drop]) on an unlocked engine whose driver [Lock] succeeds calls the
    driver's [Unlock] exactly once, as its last driver call, whatever the
    schedule and however the operation ends: what the recording driver has seen
    when the operation returns is its earlier log, one [Lock], calls that are
    neither [Lock] nor [Unlock], and one [Unlock]; so equal counts of [Lock] and
    [Unlock] stay equal. *)
Theorem lock_released_exactly_once :
  forall (op : operation) (sched : list tick) (m m' : Engine (D * list call))
         (r : option error),
    mutating op ->
    isLocked m = false ->
    snd (database.Lock drv (fst (databaseDrv m))) = None ->
    perform suint_neg sourceDrv rec op sched m = Some (m', r) ->
    exists mid,
      snd (databaseDrv m') = snd (databaseDrv m) ++ CLock :: mid ++ [CUnlock] /\
      count_calls is_lock mid = 0%nat /\
      count_calls is_unlock mid = 0%nat /\
      count_calls is_lock (CLock :: mid ++ [CUnlock]) = 1%nat /\
      count_calls is_unlock (CLock :: mid ++ [CUnlock]) = 1%nat /\
      (count_calls is_lock (snd (databaseDrv m)) =
         count_calls is_unlock (snd (databaseDrv m)) ->
       count_calls is_lock (snd (databaseDrv m')) =
         count_calls is_unlock (snd (databaseDrv m'))).
Proof.
  intros op sched m m' r Hop Hl Hd Hrun.
  destruct (lock_recorded m Hl Hd) as [m1 [Hlock Hlog1]].
  assert (Hmid : exists (m2 : Engine (D * list call)) mid,
             snd (databaseDrv m2) = snd (databaseDrv m1) ++ mid /\
             count_calls is_lock mid = 0%nat /\ count_calls is_unlock mid = 0%nat /\
             snd (databaseDrv m') = snd (databaseDrv m2) ++ [CUnlock]).
  { destruct op.
    1-4: rewrite (perform_planning _ _ _ _ _ _ m m1) in Hrun by (exact Hop || exact Hlock);
      destruct (primary _ _ _ _ _ _) as [[m2 err]|] eqn:Hp; [|discriminate];
      injection Hrun as Hrun; apply primary_recorded in Hp; destruct Hp as [mid [E [C1 C2]]];
      exists m2, mid; repeat split; try assumption;
      pose proof (unlockErr_recorded err m2) as U; rewrite Hrun in U; exact U.
    rewrite (perform_drop _ _ _ _ _ m m1) in Hrun by exact Hlock.
    destruct (primary _ _ _ _ _ _) as [[m2 err]|] eqn:Hp; [|discriminate].
    apply primary_recorded in Hp. destruct Hp as [mid [E [C1 C2]]].
    exists m2, mid. repeat split; try assumption.
    destruct err as [err|]; injection Hrun as Hrun.
    - pose proof (unlockErr_recorded (Some err) m2) as U. rewrite Hrun in U. exact U.
    - pose proof (unlock_recorded m2) as U. rewrite Hrun in U. exact U. }
  destruct Hmid as [m2 [mid [E2 [C1 [C2 E']]]]].
  assert (N1 : count_calls is_lock (CLock :: mid ++ [CUnlock]) = 1%nat).
  { change (CLock :: mid ++ [CUnlock]) with ([CLock] ++ mid ++ [CUnlock]).
    rewrite !count_calls_app, C1. reflexivity. }
  assert (N2 : count_calls is_unlock (CLock :: mid ++ [CUnlock]) = 1%nat).
  { change (CLock :: mid ++ [CUnlock]) with ([CLock] ++ mid ++ [CUnlock]).
    rewrite !count_calls_app, C2. reflexivity. }
  assert (E : snd (databaseDrv m') = snd (databaseDrv m) ++ CLock :: mid ++ [CUnlock]).
  { rewrite E', E2, Hlog1. rewrite <- !app_assoc. reflexivity. }
  exists mid. repeat split; try assumption.
  intros Heq. rewrite E, !count_calls_app, N1, N2, Heq. reflexivity.
Qed.
End LockDiscipline.

Lemma lock_released_exactly_once_witness :
  exists (m' : Engine (stub.Stub * list call)) (r : option error),
    perform suint_panics (index.driver scenario_index) (recorder stub.driver)
            OpUp (alternate 30) (newCommon (stub.Open, [])) = Some (m', r) /\
    exists mid,
      snd (databaseDrv m') = [] ++ CLock :: mid ++ [CUnlock] /\
      count_calls is_lock mid = 0%nat /\
      count_calls is_unlock mid = 0%nat /\
      count_calls is_lock (CLock :: mid ++ [CUnlock]) = 1%nat /\
      count_calls is_unlock (CLock :: mid ++ [CUnlock]) = 1%nat /\
      (count_calls is_lock [] = count_calls is_unlock [] ->
       count_calls is_lock (snd (databaseDrv m')) =
         count_calls is_unlock (snd (databaseDrv m'))).
Proof.
  eexists. eexists. split.
  - vm_compute. reflexivity.
  - eapply (lock_released_exactly_once suint_panics (index.driver scenario_index)
              stub.Stub stub.driver OpUp (alternate 30) (newCommon (stub.Open, []))).
    + exact I.
    + reflexivity.
    + reflexivity.
    + vm_compute. reflexivity.
Defined.

(** ** [Steps(0)] *)

(** C10. [Steps(0)] returns [ErrNoChange] and hands back the engine it was
    given, under every schedule: the lock flag, the stop flag and the state of
    the driver are what they were, and the log of a recording driver has not
    grown, so no [Lock], [Unlock], [Version] or [Run] call was made. *)
Theorem Steps_zero_touches_nothing :
  forall (suint_neg : Z -> option Z) (sourceDrv : source.Driver) (D : Type)
         (drv : database.Driver D) (sched : list tick) (m : Engine (D * list call)),
    Steps suint_neg sourceDrv (recorder drv) 0 sched m = Some (m, Some ErrNoChange).
Proof.
  intros suint_neg sourceDrv D drv sched m.
  unfold Steps. rewrite Z.eqb_refl. reflexivity.
Qed.

(** ** The checks that open [readUp] and [readDown] *)

Section ZeroLimit.
Variable suint_neg : Z -> option Z.
Variable sourceDrv : source.Driver.

Lemma check_exists_absent from k :
  from < 0 -> check_exists suint_neg sourceDrv from k = k.
Proof.
  intros H. unfold check_exists. destruct (Z.leb_spec 0 from); [lia | reflexivity].
Qed.

Lemma check_exists_found from k :
  0 <= from -> versionExists sourceDrv from = None ->
  check_exists suint_neg sourceDrv from k = k.
Proof.
  intros H E. unfold check_exists, with_suint. rewrite suint_nonneg by exact H.
  destruct (Z.leb_spec 0 from); [|lia]. now rewrite E.
Qed.

Lemma check_exists_missing from k :
  0 <= from -> versionExists sourceDrv from <> None ->
  check_exists suint_neg sourceDrv from k = fail os_ErrNotExist.
Proof.
  intros H E. unfold check_exists, with_suint. rewrite suint_nonneg by exact H.
  destruct (Z.leb_spec 0 from); [|lia].
  destruct (versionExists sourceDrv from); [reflexivity | congruence].
Qed.

(** C5, as the code has it. With limit 0, [readUp] and [readDown] send exactly
    one value and close: [ErrNoChange] when [from] is negative or passes the
    presence check, and [os.ErrNotExist] when [from >= 0] and the presence
    check reports that the version does not exist. The presence check is
    decided before the limit is looked at. A presence check that fails with
    another error is the matter of C4. *)
Theorem zero_limit_after_presence_check :
  forall from : Z,
    (from < 0 \/ versionExists sourceDrv from = None ->
     readUp suint_neg sourceDrv from 0 = Send (VError ErrNoChange) Close /\
     readDown suint_neg sourceDrv from 0 = Send (VError ErrNoChange) Close) /\
    (0 <= from /\ versionExists sourceDrv from = Some os_ErrNotExist ->
     readUp suint_neg sourceDrv from 0 = Send (VError os_ErrNotExist) Close /\
     readDown suint_neg sourceDrv from 0 = Send (VError os_ErrNotExist) Close).
Proof.
  intros from. split.
  - intros H. unfold readUp, readDown.
    destruct (Z.lt_ge_cases from 0) as [Hneg | Hpos].
    + rewrite !check_exists_absent by exact Hneg. split; reflexivity.
    + destruct H as [H | H]; [lia|].
      rewrite !check_exists_found by assumption. split; reflexivity.
  - intros [Hpos H]. unfold readUp, readDown.
    rewrite !check_exists_missing by (assumption || (rewrite H; discriminate)).
    split; reflexivity.
Qed.
End ZeroLimit.

Lemma zero_limit_after_presence_check_witness :
  (readUp suint_panics (index.driver scenario_index) 3 0 = Send (VError ErrNoChange) Close /\
   readDown suint_panics (index.driver scenario_index) 3 0 = Send (VError ErrNoChange) Close) /\
  (readUp suint_panics (index.driver scenario_index) 2 0 = Send (VError os_ErrNotExist) Close /\
   readDown suint_panics (index.driver scenario_index) 2 0 = Send (VError os_ErrNotExist) Close).
Proof.
  split.
  - apply (zero_limit_after_presence_check suint_panics (index.driver scenario_index) 3).
    right. reflexivity.
  - apply (zero_limit_after_presence_check suint_panics (index.driver scenario_index) 2).
    split; [lia | reflexivity].
Defined.

(** Against C5 as it stands: version 2 is not in the index 1, 3, 4,
    5, 7, and with limit 0 both planners send [os.ErrNotExist], not
    [ErrNoChange]. *)
Lemma zero_limit_not_decided_first :
  ~ (forall from : Z,
       readUp suint_panics (index.driver scenario_index) from 0
         = Send (VError ErrNoChange) Close /\
       readDown suint_panics (index.driver scenario_index) from 0
         = Send (VError ErrNoChange) Close).
Proof.
  intros H. destruct (H 2) as [H1 _]. vm_compute in H1. discriminate H1.
Qed.

(** ** Errors of the presence check *)

(** C4, at the failing input. The source fails every [ReadUp] and [ReadDown]
    with an I/O error that is neither a not-exist nor an exist condition.
    [versionExists] hands this error back, yet each of the three planners sends
    [os.ErrNotExist] in its place, and [Up] returns [os.ErrNotExist]. *)
Theorem presence_check_replaces_io_error :
  os_IsNotExist (Some io_error) = false /\
  versionExists failing_source 1 = Some io_error /\
  read suint_panics failing_source 1 3 = Send (VError os_ErrNotExist) Close /\
  readUp suint_panics failing_source 1 (-1) = Send (VError os_ErrNotExist) Close /\
  readDown suint_panics failing_source 1 (-1) = Send (VError os_ErrNotExist) Close /\
  exists m',
    Up suint_panics failing_source stub.driver (alternate 2) (newCommon (stub_at 1))
      = Some (m', Some os_ErrNotExist).
Proof.
  repeat split. eexists. vm_compute. reflexivity.
Qed.

(** ** Error composition *)

Section Composition.
Variable sep : string.
Variable suint_neg : Z -> option Z.
Variable sourceDrv : source.Driver.
Variable D : Type.
Variable drv : database.Driver D.

Lemma Error_composed e1 e2 :
  Error sep (NewMultiError (Some e1) (Some e2))
  = (Error sep e1 ++ sep ++ Error sep e2)%string.
Proof. reflexivity. Qed.

Lemma unlockErr_failed prevErr (m : Engine D) d e2 :
  database.Unlock drv (databaseDrv m) = (d, Some e2) ->
  unlockErr drv prevErr m = (set_databaseDrv d m, Some (NewMultiError prevErr (Some e2))).
Proof. intros H. unfold unlockErr, unlock. now rewrite H. Qed.

(** C7. When the primary step of a mutating operation fails with [e1] and the
    driver's [Unlock] that follows fails with [e2], the operation returns the
    multi-error of [e1] and [e2], whose [Error()] contains the message of [e1]
    and the message of [e2], and the engine is left with [isLocked] set. The
    primary step is the driver's [Drop] for [Drop], and the driver's [Version]
    followed by [runMigrations] for the other operations. *)
Theorem failed_unlock_is_composed :
  forall (op : operation) (sched : list tick) (m m1 m2 : Engine D) (e1 e2 : error) (d : D),
    mutating op ->
    lock drv m = (m1, None) ->
    primary suint_neg sourceDrv drv op sched m1 = Some (m2, Some e1) ->
    database.Unlock drv (databaseDrv m2) = (d, Some e2) ->
    exists (m' : Engine D) (err : error),
      perform suint_neg sourceDrv drv op sched m = Some (m', Some err) /\
      err = NewMultiError (Some e1) (Some e2) /\
      contains (Error sep err) (Error sep e1) /\
      contains (Error sep err) (Error sep e2) /\
      isLocked m' = true.
Proof.
  intros op sched m m1 m2 e1 e2 d Hop Hlock Hprim Hun.
  exists (set_databaseDrv d m2), (NewMultiError (Some e1) (Some e2)).
  assert (L : isLocked m2 = true).
  { rewrite (primary_isLocked _ _ _ _ _ _ _ _ _ Hprim). exact (lock_isLocked _ _ _ _ Hlock). }
  repeat split.
  - destruct op.
    1-4: rewrite (perform_planning _ _ _ _ _ _ m m1) by (exact Hop || exact Hlock);
      rewrite Hprim; now rewrite (unlockErr_failed _ _ _ _ Hun).
    rewrite (perform_drop _ _ _ _ _ m m1) by exact Hlock.
    rewrite Hprim. now rewrite (unlockErr_failed _ _ _ _ Hun).
  - rewrite Error_composed. apply contains_left.
  - rewrite Error_composed. rewrite <- append_assoc. apply contains_right.
  - exact L.
Qed.
End Composition.

Lemma failed_unlock_is_composed_witness :
  exists (m' : Engine stub.Stub) (err : error),
    perform suint_panics (index.driver scenario_index) (failing_unlock 3)
            OpUp (alternate 30) (newCommon stub.Open) = Some (m', Some err) /\
    err = NewMultiError (Some run_error) (Some unlock_error) /\
    contains (Error " and " err) (Error " and " run_error) /\
    contains (Error " and " err) (Error " and " unlock_error) /\
    isLocked m' = true.
Proof.
  eapply (failed_unlock_is_composed " and " suint_panics (index.driver scenario_index)
            stub.Stub (failing_unlock 3) OpUp (alternate 30) (newCommon stub.Open)).
  - exact I.
  - reflexivity.
  - vm_compute. reflexivity.
  - reflexivity.
Defined.

(** ** What travels on the channel *)

Section Typed.
Variable suint_neg : Z -> option Z.
Variable sourceDrv : source.Driver.

Local Abbreviation ok := (sends error_or_migration).

Lemma sends_fail (P : chanval -> Prop) err : P (VError err) -> sends P (fail err).
Proof. intros H. simpl. auto. Qed.

Lemma sends_with_suint (P : chanval -> Prop) n k :
  (forall u, sends P (k u)) -> sends P (with_suint suint_neg n k).
Proof. intros H. unfold with_suint. destruct (suint suint_neg n); [apply H | exact I]. Qed.

Lemma sends_emit_typed version target k : ok k -> ok (emit sourceDrv version target k).
Proof.
  intros H. unfold emit. destruct (newMigration sourceDrv version target); simpl; auto.
Qed.

Lemma sends_short_typed limit count k : ok k -> ok (short suint_neg limit count k).
Proof. intros H. unfold short. apply sends_with_suint. intros u. simpl. auto. Qed.

Lemma sends_check_exists_typed v k : ok k -> ok (check_exists suint_neg sourceDrv v k).
Proof.
  intros H. unfold check_exists. destruct (0 <=? v); [|exact H].
  apply sends_with_suint. intros u. destruct (versionExists sourceDrv u); simpl; auto.
Qed.

Ltac typed :=
  repeat first
    [ exact I
    | assumption
    | apply sends_fail; exact I
    | apply sends_emit_typed
    | apply sends_short_typed
    | apply sends_check_exists_typed
    | apply sends_with_suint; intros ?
    | match goal with
      | |- sends _ (if ?b then _ else _) => destruct b
      | |- sends _ (match ?r with Ok _ => _ | Err _ => _ end) => destruct r
      | |- sends _ (let _ := _ in _) => cbv zeta
      end ].

Lemma loop_body_typed lp from count : ok (loop_body suint_neg sourceDrv lp from count).
Proof. destruct lp; unfold loop_body; typed. Qed.

Lemma read_typed from to : ok (read suint_neg sourceDrv from to).
Proof. unfold read. typed. Qed.

Lemma readUp_typed from limit : ok (readUp suint_neg sourceDrv from limit).
Proof. unfold readUp. typed. Qed.

Lemma readDown_typed from limit : ok (readDown suint_neg sourceDrv from limit).
Proof. unfold readDown. typed. Qed.

Variable D : Type.
Variable drv : database.Driver D.

Lemma dispatch_typed (m : Engine D) r :
  error_or_migration r -> snd (dispatch m r) <> RPanic.
Proof.
  intros H. unfold dispatch. destruct (stop_receive m) as [m' [ | | ]]; simpl;
    try discriminate.
  destruct r; simpl; try discriminate. contradiction.
Qed.

Lemma step_typed t (c : config D) :
  typed_config c -> typed_config (step suint_neg sourceDrv drv t c).
Proof.
  intros [Hp [Hr Hn]]. unfold step.
  destruct (is_done (rn c) || is_panic (pl c)); [now repeat split|].
  destruct t; unfold typed_config; simpl.
  - unfold planner_step. destruct (pl c) as [lp from count | v k | | |] eqn:E; simpl.
    + destruct (loop_cond lp from count); simpl; [|now repeat split].
      destruct (stop_receive (eng c)) as [m' [ | | ]]; simpl; repeat split; auto.
      apply loop_body_typed.
    + destruct Hp as [Hv Hk].
      destruct (_ <? _); simpl; rewrite ?E; simpl; repeat split; auto.
      apply Forall_app. split; [exact Hr | now constructor].
    + now repeat split.
    + rewrite E. now repeat split.
    + rewrite E. now repeat split.
  - unfold runner_step. destruct (rn c) as [ | migr | | err | ] eqn:E; simpl.
    + destruct (ret c) as [|r q] eqn:Er.
      * destruct (pl c) as [lp from count | v k | | |] eqn:Ep; simpl;
          rewrite ?Ep, ?Er, ?E; simpl; try (repeat split; auto; discriminate).
        destruct Hp as [Hv Hk]. pose proof (dispatch_typed (eng c) v Hv) as G.
        destruct (dispatch (eng c) v). simpl in *. repeat split; auto.
      * inversion Hr as [|? ? Hv Hq]; subst.
        pose proof (dispatch_typed (eng c) r Hv) as G.
        destruct (dispatch (eng c) r). simpl in *. repeat split; auto.
    + destruct (run_migration drv migr (databaseDrv (eng c))) as [d [e|]]; simpl;
        repeat split; auto; discriminate.
    + repeat split; auto. discriminate.
    + rewrite E. repeat split; auto.
    + rewrite E. repeat split; auto.
  - repeat split; auto.
Qed.

(** C8. Whatever the source, the arguments, the database driver and the
    schedule, along a run of [read], [readUp] or [readDown] every value still to
    be sent by the planner before its next loop top and every value sitting in
    [ret] is an [error] or a [*Migration], and the runner is never at
    [panic("unknown type")]. *)
Theorem planners_send_errors_and_migrations :
  forall (from x : Z) (sched : list tick) (m : Engine D),
    let good (p : plan) :=
      let c := exec suint_neg sourceDrv drv sched (start p m) in
      sends error_or_migration (pl c) /\
      Forall error_or_migration (ret c) /\
      rn c <> RPanic in
    good (read suint_neg sourceDrv from x) /\
    good (readUp suint_neg sourceDrv from x) /\
    good (readDown suint_neg sourceDrv from x).
Proof.
  intros from x sched m good.
  assert (G : forall p, ok p -> good p).
  { intros p Hp. unfold good.
    apply (exec_invariant suint_neg sourceDrv D drv (@typed_config D)).
    - intros t c. apply step_typed.
    - repeat split; [exact Hp | constructor | discriminate]. }
  split; [|split]; apply G.
  - apply read_typed.
  - apply readUp_typed.
  - apply readDown_typed.
Qed.
End Typed.

(** ** Runs in which nobody asks to stop *)

Section Pipeline.
Variable suint_neg : Z -> option Z.
Variable sourceDrv : source.Driver.
Variable D : Type.
Variable drv : database.Driver D.

Local Abbreviation Outputs := (Outputs suint_neg sourceDrv).
Local Abbreviation run := (exec suint_neg sourceDrv drv).
Local Abbreviation on_course := (on_course suint_neg sourceDrv drv).

Lemma Outputs_not_panic p l : Outputs p l -> is_panic p = false.
Proof. now destruct 1. Qed.

Lemma outputs_sound fuel : forall p l, outputs suint_neg sourceDrv fuel p = Some l -> Outputs p l.
Proof.
  induction fuel as [|fuel IH]; intros p l H; destruct p as [lp from count | v k | | |];
    simpl in H; try discriminate.
  - destruct (loop_cond lp from count) eqn:E; [discriminate|].
    injection H as <-. now apply Outputs_exit.
  - injection H as <-. constructor.
  - destruct (loop_cond lp from count) eqn:E.
    + apply Outputs_iter; [exact E | now apply IH].
    + injection H as <-. now apply Outputs_exit.
  - destruct (outputs suint_neg sourceDrv fuel k) as [l'|] eqn:E; [|discriminate].
    injection H as <-. constructor. now apply IH.
  - injection H as <-. constructor.
Qed.

Lemma exec_invariant_free (P : config D -> Prop) :
  (forall t c, t <> TSignal -> P c -> P (step suint_neg sourceDrv drv t c)) ->
  forall sched c, signal_free sched -> P c -> P (run sched c).
Proof.
  intros Hstep sched. induction sched as [|t sched IH]; intros c Hs Hc; simpl; [exact Hc|].
  inversion Hs; subst. apply IH; [assumption|]. now apply Hstep.
Qed.

Lemma quiet_set_databaseDrv (m : Engine D) d : quiet m -> quiet (set_databaseDrv d m).
Proof. intros [H1 H2]. now split. Qed.

Lemma dispatch_quiet (m : Engine D) r :
  quiet m ->
  dispatch m r = (m, match r with
                     | VError err => RDone (Some err)
                     | VMigration migr => RRun migr
                     | VOther => RPanic
                     end).
Proof. intros H. unfold dispatch. rewrite (stop_receive_quiet m H). now destruct r. Qed.

Lemma sequential_head (m0 : Engine D) l r q (d : D) :
  sequential drv (r :: q) d = sequential drv l (databaseDrv m0) ->
  match r with
  | VError err => (d, RDone (Some err)) = sequential drv l (databaseDrv m0)
  | VMigration migr => sequential drv (VMigration migr :: q) d = sequential drv l (databaseDrv m0)
  | VOther => (d, RPanic) = sequential drv l (databaseDrv m0)
  end.
Proof. now destruct r. Qed.

Lemma on_course_intro l m0 (c : config D) rest :
  quiet (eng c) ->
  eng c = set_databaseDrv (databaseDrv (eng c)) m0 ->
  Outputs (pl c) rest ->
  match rn c with
  | RWait =>
      sequential drv (ret c ++ rest) (databaseDrv (eng c)) = sequential drv l (databaseDrv m0)
  | RRun migr =>
      sequential drv (VMigration migr :: ret c ++ rest) (databaseDrv (eng c))
      = sequential drv l (databaseDrv m0)
  | RLatch => False
  | RDone err => (databaseDrv (eng c), RDone err) = sequential drv l (databaseDrv m0)
  | RPanic => (databaseDrv (eng c), RPanic) = sequential drv l (databaseDrv m0)
  end ->
  on_course l m0 c.
Proof. intros Hq He Ho Hs. split; [exact Hq | split; [exact He | now exists rest]]. Qed.

Lemma step_on_course l m0 t (c : config D) :
  t <> TSignal -> on_course l m0 c -> on_course l m0 (step suint_neg sourceDrv drv t c).
Proof.
  intros Ht Hc. pose proof Hc as [Hq [He [rest [Ho Hs]]]]. unfold step.
  destruct (is_done (rn c) || is_panic (pl c)); [exact Hc|].
  destruct t; [| |congruence].
  - (* the planner *)
    unfold planner_step. destruct (pl c) as [lp from count | v k | | |] eqn:Ep;
      try exact Hc; [ | | inversion Ho].
    + destruct (loop_cond lp from count) eqn:Ec.
      * rewrite (stop_receive_quiet _ Hq).
        apply (on_course_intro l m0 _ rest); simpl; auto.
        inversion Ho; subst; [congruence | assumption].
      * apply (on_course_intro l m0 _ rest); simpl; auto.
        inversion Ho; subst; [constructor | congruence].
    + destruct (_ <? _); [|exact Hc].
      inversion Ho as [|? ? rest' Hk| |]; subst.
      apply (on_course_intro l m0 _ rest'); simpl; auto.
      rewrite <- app_assoc. exact Hs.
  - (* the runner *)
    unfold runner_step. destruct (rn c) as [ | migr | | err | ] eqn:Er; try exact Hc;
      [ | | destruct Hs].
    + destruct (ret c) as [|r q] eqn:Eq.
      * destruct (pl c) as [lp from count | v k | | |] eqn:Ep; try exact Hc.
        -- rewrite (dispatch_quiet _ v Hq).
           inversion Ho as [|? ? rest' Hk| |]; subst.
           apply (on_course_intro l m0 _ rest'); simpl; auto.
           simpl in Hs. apply sequential_head in Hs. destruct v; exact Hs.
        -- apply (on_course_intro l m0 _ rest); simpl; auto.
           inversion Ho; subst. exact Hs.
      * rewrite (dispatch_quiet _ r Hq).
        apply (on_course_intro l m0 _ rest); simpl; auto.
        simpl in Hs. apply sequential_head in Hs. destruct r; exact Hs.
    + simpl in Hs.
      destruct (run_migration drv migr (databaseDrv (eng c))) as [d [e|]];
        apply (on_course_intro l m0 _ rest); simpl; auto;
        try (apply quiet_set_databaseDrv; exact Hq);
        rewrite He; reflexivity.
Qed.

Lemma start_on_course p l (m : Engine D) :
  quiet m -> Outputs p l -> on_course l m (start p m).
Proof.
  intros Hq Ho. repeat split; try apply Hq.
  - simpl. now rewrite set_databaseDrv_same.
  - exists l. split; [exact Ho | reflexivity].
Qed.

(** Whatever the schedule, a run without stop signal ends as the sequential
    runner ends on the planner's output, and touches the driver state alone. *)
Lemma runMigrations_sequential p l sched (m m' : Engine D) r :
  signal_free sched -> quiet m -> Outputs p l ->
  runMigrations suint_neg sourceDrv drv p sched m = Some (m', r) ->
  sequential drv l (databaseDrv m) = (databaseDrv m', RDone r) /\
  m' = set_databaseDrv (databaseDrv m') m.
Proof.
  intros Hs Hq Ho. unfold runMigrations.
  pose proof (exec_invariant_free (on_course l m) (step_on_course l m) sched
                (start p m) Hs (start_on_course p l m Hq Ho)) as [_ [He [rest [_ H]]]].
  destruct (rn (run sched (start p m))) eqn:E; try discriminate.
  intros [= <- <-]. split; [now symmetry | exact He].
Qed.
End Pipeline.

Section Progress.
Variable suint_neg : Z -> option Z.
Variable sourceDrv : source.Driver.
Variable D : Type.
Variable drv : database.Driver D.

Local Abbreviation Outputs := (Outputs suint_neg sourceDrv).
Local Abbreviation step1 := (step suint_neg sourceDrv drv).
Local Abbreviation runM := (runMigrations suint_neg sourceDrv drv).

Lemma runMigrations_cons t sched p (m : Engine D) p' m' :
  step1 t (start p m) = start p' m' ->
  runM p (t :: sched) m = runM p' sched m'.
Proof. intros H. unfold runMigrations. simpl. now rewrite H. Qed.

Lemma runMigrations_returned t sched p (m : Engine D) c r :
  step1 t (start p m) = c -> rn c = RDone r ->
  runM p (t :: sched) m = Some (eng c, r).
Proof.
  intros H Hr. unfold runMigrations. simpl. rewrite H.
  rewrite exec_done by (now rewrite Hr). now rewrite Hr.
Qed.

Lemma step_planner_at lp from count (m : Engine D) :
  quiet m ->
  step1 TPlanner (start (At lp from count) m)
  = start (if loop_cond lp from count
           then loop_body suint_neg sourceDrv lp from count else Close) m.
Proof.
  intros Hq. unfold step, planner_step. simpl.
  destruct (loop_cond lp from count); [|reflexivity].
  now rewrite (stop_receive_quiet m Hq).
Qed.

Lemma step_runner_send v k (m : Engine D) :
  quiet m ->
  step1 TRunner (start (Send v k) m)
  = {| eng := m; pl := k; ret := [];
       rn := match v with
             | VError err => RDone (Some err)
             | VMigration migr => RRun migr
             | VOther => RPanic
             end |}.
Proof.
  intros Hq. unfold step, runner_step. simpl. now rewrite (dispatch_quiet _ m v Hq).
Qed.

Lemma step_runner_run migr k (m : Engine D) d :
  is_panic k = false ->
  run_migration drv migr (databaseDrv m) = (d, None) ->
  step1 TRunner {| eng := m; pl := k; ret := []; rn := RRun migr |}
  = start k (set_databaseDrv d m).
Proof.
  intros Hk H. unfold step, runner_step. simpl. now rewrite Hk, H.
Qed.

(** Some schedule lets a run without stop signal end, and end as the
    sequential runner ends on the planner's output. *)
Lemma runMigrations_complete p l :
  Outputs p l ->
  forall (m : Engine D) d r,
    quiet m ->
    sequential drv l (databaseDrv m) = (d, RDone r) ->
    exists sched, signal_free sched /\ runM p sched m = Some (set_databaseDrv d m, r).
Proof.
  induction 1 as [ | v k l Hk IH | lp from count Hc | lp from count l Hc Hb IH];
    intros m d r Hq Hs.
  - exists [TRunner]. split; [repeat constructor; discriminate|].
    simpl in Hs. injection Hs as <- <-. now rewrite set_databaseDrv_same.
  - pose proof (Outputs_not_panic _ _ _ _ Hk) as Hp.
    destruct v as [err | migr |]; simpl in Hs.
    + injection Hs as <- <-. exists [TRunner]. split; [repeat constructor; discriminate|].
      rewrite (runMigrations_returned _ _ _ _ _ (Some err)
                 (step_runner_send (VError err) k m Hq) eq_refl).
      simpl. now rewrite set_databaseDrv_same.
    + destruct (run_migration drv migr (databaseDrv m)) as [d' [e|]] eqn:Er.
      * injection Hs as <- <-. exists [TRunner; TRunner].
        split; [repeat constructor; discriminate|].
        unfold runMigrations. simpl. rewrite (step_runner_send _ k m Hq).
        unfold step, runner_step. simpl. now rewrite Hp, Er.
      * destruct (IH (set_databaseDrv d' m) d r (quiet_set_databaseDrv _ m d' Hq) Hs)
          as [sched [Hf Hr]].
        exists (TRunner :: TRunner :: sched). split.
        { constructor; [discriminate|]. constructor; [discriminate | exact Hf]. }
        unfold runMigrations in *. simpl. rewrite (step_runner_send _ k m Hq).
        rewrite (step_runner_run migr k m d' Hp Er). exact Hr.
    + discriminate.
  - exists [TPlanner; TRunner]. split; [repeat constructor; discriminate|].
    rewrite (runMigrations_cons _ _ _ _ _ _ (step_planner_at lp from count m Hq)).
    rewrite Hc. simpl in Hs. injection Hs as <- <-. now rewrite set_databaseDrv_same.
  - destruct (IH m d r Hq Hs) as [sched [Hf Hr]].
    exists (TPlanner :: sched). split; [constructor; [discriminate | exact Hf]|].
    rewrite (runMigrations_cons _ _ _ _ _ _ (step_planner_at lp from count m Hq)).
    now rewrite Hc.
Qed.
End Progress.

(** ** Planning operations without stop signal *)

Section Operations.
Variable suint_neg : Z -> option Z.
Variable sourceDrv : source.Driver.
Variable D : Type.
Variable drv : database.Driver D.

Lemma lock_quiet (m m1 : Engine D) r : lock drv m = (m1, r) -> quiet m -> quiet m1.
Proof.
  unfold lock. destruct (isLocked m); simpl.
  - now intros [= <- _].
  - destruct (database.Lock drv (databaseDrv m)) as [d [e|]]; intros [= <- _] [H1 H2];
      now split.
Qed.

(** Under every schedule without stop signal, a planning operation that returns
    has run the planner's output through the sequential runner and unlocked. *)
Lemma perform_sequential op sched (m m1 m' : Engine D) d cur l r :
  planning op ->
  quiet m ->
  lock drv m = (m1, None) ->
  database.Version drv (databaseDrv m1) = (d, Ok cur) ->
  Outputs suint_neg sourceDrv (planner_of suint_neg sourceDrv op cur) l ->
  signal_free sched ->
  perform suint_neg sourceDrv drv op sched m = Some (m', r) ->
  exists d2 r2,
    sequential drv l d = (d2, RDone r2) /\
    (m', r) = unlockErr drv r2 (set_databaseDrv d2 m1).
Proof.
  intros Hop Hq Hlock Hv Ho Hs Hp.
  rewrite (perform_planning _ _ _ _ _ _ m m1 Hop Hlock) in Hp.
  assert (E : primary suint_neg sourceDrv drv op sched m1
              = runMigrations suint_neg sourceDrv drv (planner_of suint_neg sourceDrv op cur)
                              sched (set_databaseDrv d m1)).
  { destruct op; simpl in Hop; try contradiction; simpl; now rewrite Hv. }
  rewrite E in Hp.
  destruct (runMigrations _ _ _ _ _ _) as [[m2 r2]|] eqn:Hr; [|discriminate].
  injection Hp as Hp.
  apply (runMigrations_sequential _ _ _ _ _ l) in Hr; try assumption.
  - destruct Hr as [Hseq Hm2]. exists (databaseDrv m2), r2. split; [exact Hseq|].
    rewrite Hm2 in Hp. simpl in Hp. now rewrite <- Hp.
  - apply quiet_set_databaseDrv. exact (lock_quiet _ _ _ Hlock Hq).
Qed.

(** And some such schedule lets it return. *)
Lemma perform_complete op (m m1 : Engine D) d cur l d2 r2 :
  planning op ->
  quiet m ->
  lock drv m = (m1, None) ->
  database.Version drv (databaseDrv m1) = (d, Ok cur) ->
  Outputs suint_neg sourceDrv (planner_of suint_neg sourceDrv op cur) l ->
  sequential drv l d = (d2, RDone r2) ->
  exists sched,
    signal_free sched /\
    perform suint_neg sourceDrv drv op sched m
    = Some (unlockErr drv r2 (set_databaseDrv d2 m1)).
Proof.
  intros Hop Hq Hlock Hv Ho Hseq.
  destruct (runMigrations_complete suint_neg sourceDrv D drv _ _ Ho
              (set_databaseDrv d m1) d2 r2) as [sched [Hf Hr]].
  - apply quiet_set_databaseDrv. exact (lock_quiet _ _ _ Hlock Hq).
  - exact Hseq.
  - exists sched. split; [exact Hf|].
    rewrite (perform_planning _ _ _ _ _ _ m m1 Hop Hlock).
    assert (E : primary suint_neg sourceDrv drv op sched m1
              = runMigrations suint_neg sourceDrv drv (planner_of suint_neg sourceDrv op cur)
                              sched (set_databaseDrv d m1)).
    { destruct op; simpl in Hop; try contradiction; simpl; now rewrite Hv. }
    rewrite E, Hr. reflexivity.
Qed.
End Operations.

(** ** Running short of migrations *)

Section ShortLimit.
Variable suint_neg : Z -> option Z.
Variable sourceDrv : source.Driver.

Local Abbreviation Outputs := (Outputs suint_neg sourceDrv).

Lemma newMigration_Version version target migr :
  newMigration sourceDrv version target = Ok migr -> Version migr = version.
Proof.
  unfold newMigration, NewMigration. intros H.
  destruct (int_of_uint version <=? target);
    [destruct (source.ReadUp sourceDrv version) as [[r i] | e]
    | destruct (source.ReadDown sourceDrv version) as [[r i] | e]];
    try destruct (os_IsNotExist (Some e)); try discriminate;
    injection H as <-; reflexivity.
Qed.

Lemma keeps_int_fits v : 0 <= v <= MaxInt -> keeps_int suint_neg v.
Proof.
  intros H. unfold keeps_int. rewrite int_of_uint_id by exact H.
  split; [lia | apply suint_nonneg; lia].
Qed.

Lemma Outputs_deterministic p l1 :
  Outputs p l1 -> forall l2, Outputs p l2 -> l1 = l2.
Proof.
  induction 1 as [ | v k l Hk IH | lp from count Hc | lp from count l Hc Hb IH];
    intros l2 H2; inversion H2; subst; try congruence.
  - f_equal. now apply IH.
  - now apply IH.
Qed.

Lemma next_chain_short recs : forall u,
  next_chain sourceDrv u recs ->
  Forall (fun migr => keeps_int suint_neg (Version migr)) recs ->
  forall from count limit,
    from <> -1 ->
    suint suint_neg from = Some u ->
    0 <= count ->
    0 < count + Z.of_nat (List.length recs) < limit ->
    limit <= MaxInt ->
    Outputs (At (UpLoop limit) from count)
            (map VMigration recs
             ++ [VError (ErrShortLimit (limit - (count + Z.of_nat (List.length recs))))]).
Proof.
  intros u H. induction H as [u err Hn He | u next migr rest Hn Hm Hc IH];
    intros Hk from count limit Hf Hu Hcnt Hlen Hlim; pose proof MinInt_neg as Hmin.
  - change (Z.of_nat (List.length (@nil Migration))) with 0 in *.
    rewrite Z.add_0_r in *. change (map VMigration [] ++ ?x) with x.
    apply Outputs_iter.
    + simpl. destruct (Z.ltb_spec count limit); [reflexivity | lia].
    + simpl. destruct (Z.eqb_spec from (-1)); [contradiction|].
      unfold with_suint. rewrite Hu, Hn. simpl err_of. rewrite He.
      destruct (Z.eqb_spec limit (-1)); [lia|]. simpl.
      destruct (Z.eqb_spec count 0); [lia|]. rewrite andb_false_r.
      destruct (Z.ltb_spec count limit); [|lia].
      unfold short, with_suint. rewrite int_sub_id by lia. rewrite suint_nonneg by lia.
      repeat constructor.
  - simpl List.length in *. rewrite Nat2Z.inj_succ in *.
    inversion Hk as [ | ? ? [Hnil Hback] Hk']; subst.
    rewrite (newMigration_Version _ _ _ Hm) in Hnil, Hback.
    apply Outputs_iter.
    + simpl. destruct (Z.ltb_spec count limit); [reflexivity | lia].
    + simpl. destruct (Z.eqb_spec from (-1)); [contradiction|].
      unfold with_suint. rewrite Hu, Hn. simpl.
      unfold emit. rewrite Hm.
      rewrite int_add_id by lia. constructor.
      replace (limit - (count + Z.succ (Z.of_nat (List.length rest))))
        with (limit - (count + 1 + Z.of_nat (List.length rest))) by lia.
      apply IH; try assumption; lia.
Qed.

(** The branch itself: [Next] reports that nothing exists after [count]
    records, with [0 < count < limit]. *)
Lemma UpLoop_short from count limit u err :
  0 < count < limit ->
  limit <= MaxInt ->
  from <> -1 ->
  suint suint_neg from = Some u ->
  source.Next sourceDrv u = Err err ->
  os_IsNotExist (Some err) = true ->
  loop_cond (UpLoop limit) from count = true /\
  loop_body suint_neg sourceDrv (UpLoop limit) from count
  = Send (VError (ErrShortLimit (limit - count))) Close.
Proof.
  intros Hc Hl Hf Hu Hn He. pose proof MinInt_neg as Hmin. split; simpl.
  - destruct (Z.ltb_spec count limit); [reflexivity | lia].
  - destruct (Z.eqb_spec from (-1)); [contradiction|].
    unfold with_suint. rewrite Hu, Hn. simpl err_of. rewrite He.
    destruct (Z.eqb_spec limit (-1)); [lia|]. simpl.
    destruct (Z.eqb_spec count 0); [lia|]. rewrite andb_false_r.
    destruct (Z.ltb_spec count limit); [|lia].
    unfold short, with_suint. rewrite int_sub_id by lia. now rewrite suint_nonneg by lia.
Qed.

Lemma readUp_short from limit recs :
  0 <= from <= MaxInt ->
  versionExists sourceDrv from = None ->
  next_chain sourceDrv from recs ->
  Forall (fun migr => keeps_int suint_neg (Version migr)) recs ->
  0 < Z.of_nat (List.length recs) < limit ->
  limit <= MaxInt ->
  Outputs (readUp suint_neg sourceDrv from limit)
          (map VMigration recs
           ++ [VError (ErrShortLimit (limit - Z.of_nat (List.length recs)))]).
Proof.
  intros Hf Hv Hc Hk Hlen Hlim. unfold readUp.
  rewrite check_exists_found by (lia || exact Hv).
  destruct (Z.eqb_spec limit 0); [lia|].
  apply (next_chain_short recs from Hc Hk from 0 limit); try lia.
  apply suint_nonneg. lia.
Qed.
End ShortLimit.

(** C3. In the loop of an up plan with a positive limit, when [Next] reports
    that nothing exists and the count [c] of records sent so far has
    [0 < c < limit], the iteration sends [ErrShortLimit{limit - c}] and the
    planner returns. Started from a present version ([from] and [limit] being
    of type [int]): when the source's [Next] chain yields the records [recs] and
    then reports that nothing exists, with fewer records than the limit and at
    least one, and every version the chain yields keeps its value through
    [int] and [suint] (it is not [2^64 - 1], which [int] turns into [-1], and
    [suint] gives it back from its [int]; so it is for every version up to
    [MaxInt]), the planner sends these records, then
    [ErrShortLimit{limit - c}] for their number [c], and closes. With the
    versions 1, 3, 4, 5, 7 and the database at version 3, [Steps(10)] returns
    under some schedule, and under every schedule without stop signal under
    which it returns it has called [Run] for the targets 4, 5, 7 and returns
    [ErrShortLimit{7}]. *)
Theorem short_limit_reported :
  (forall (suint_neg : Z -> option Z) (sourceDrv : source.Driver)
          (from count limit u : Z) (err : error),
      0 < count < limit ->
      limit <= MaxInt ->
      from <> -1 ->
      suint suint_neg from = Some u ->
      source.Next sourceDrv u = Err err ->
      os_IsNotExist (Some err) = true ->
      loop_cond (UpLoop limit) from count = true /\
      loop_body suint_neg sourceDrv (UpLoop limit) from count
      = Send (VError (ErrShortLimit (limit - count))) Close) /\
  (forall (suint_neg : Z -> option Z) (sourceDrv : source.Driver)
          (from limit : Z) (recs : list Migration),
      0 <= from <= MaxInt ->
      versionExists sourceDrv from = None ->
      next_chain sourceDrv from recs ->
      Forall (fun migr => keeps_int suint_neg (Version migr)) recs ->
      0 < Z.of_nat (List.length recs) < limit ->
      limit <= MaxInt ->
      Outputs suint_neg sourceDrv (readUp suint_neg sourceDrv from limit)
              (map VMigration recs
               ++ [VError (ErrShortLimit (limit - Z.of_nat (List.length recs)))])) /\
  (forall (suint_neg : Z -> option Z) (recs : list Migration),
      Forall (fun migr => 0 <= Version migr <= MaxInt) recs ->
      Forall (fun migr => keeps_int suint_neg (Version migr)) recs) /\
  (forall suint_neg : Z -> option Z,
      let Steps10 :=
        Steps suint_neg (index.driver scenario_index) (recorder stub.driver) 10 in
      let m := newCommon (stub_at 3, []) in
      (exists sched m',
          signal_free sched /\ Steps10 sched m = Some (m', Some (ErrShortLimit 7))) /\
      (forall sched m' r,
          signal_free sched ->
          Steps10 sched m = Some (m', r) ->
          r = Some (ErrShortLimit 7) /\
          run_targets (snd (databaseDrv m')) = [4; 5; 7] /\
          stub.CurrentVersion (fst (databaseDrv m')) = 7)).
Proof.
  split; [|split; [|split]].
  - intros suint_neg sourceDrv from count limit u err. apply UpLoop_short.
  - intros. now apply readUp_short.
  - intros suint_neg recs H. apply (Forall_impl _ (fun migr => keeps_int_fits suint_neg _) H).
  - intros suint_neg Steps10 m.
    assert (Hq : quiet m) by (split; reflexivity).
    destruct (outputs suint_neg (index.driver scenario_index) 20
                (planner_of suint_neg (index.driver scenario_index) (OpSteps 10) 3))
      as [l|] eqn:Ho; [|vm_compute in Ho; discriminate Ho].
    pose proof Ho as Hl. vm_compute in Hl. injection Hl as Hl.
    apply outputs_sound in Ho. subst l.
    split.
    + destruct (perform_complete suint_neg (index.driver scenario_index) _
                  (recorder stub.driver) (OpSteps 10) m _ _ 3 _ _ _
                  ltac:(simpl; lia) Hq eq_refl eq_refl Ho eq_refl) as [sched [Hf Hp]].
      exists sched. eexists. split; [exact Hf|]. exact Hp.
    + intros sched m' r Hf Hp.
      destruct (perform_sequential suint_neg (index.driver scenario_index) _
                  (recorder stub.driver) (OpSteps 10) sched m _ m' _ 3 _ r
                  ltac:(simpl; lia) Hq eq_refl eq_refl Ho Hf Hp) as [d2 [r2 [Hs Hr]]].
      vm_compute in Hs. injection Hs as <- <-.
      vm_compute in Hr. injection Hr as -> ->. repeat split.
Qed.

Lemma short_limit_reported_witness :
  Outputs suint_panics (index.driver scenario_index)
          (readUp suint_panics (index.driver scenario_index) 3 10)
          (map VMigration (map (fun v => planned scenario_index v v) [4; 5; 7])
           ++ [VError (ErrShortLimit (10 - Z.of_nat 3))]).
Proof.
  apply (proj1 (proj2 short_limit_reported) suint_panics (index.driver scenario_index) 3 10
           (map (fun v => planned scenario_index v v) [4; 5; 7])).
  - unfold MaxInt. simpl. lia.
  - reflexivity.
  - apply next_chain_step with (next := 4); [reflexivity | reflexivity |].
    apply next_chain_step with (next := 5); [reflexivity | reflexivity |].
    apply next_chain_step with (next := 7); [reflexivity | reflexivity |].
    apply next_chain_end with (err := index.not_exist); reflexivity.
  - repeat constructor; vm_compute; discriminate.
  - simpl. lia.
  - unfold MaxInt. simpl. lia.
Defined.

(** The claim without the condition on the versions does not hold. Over the
    versions 3 and [2^64 - 1], from the present version 3, the [Next] chain
    yields one record, for the version [2^64 - 1], and then reports that
    nothing exists: [c = 1] and [0 < c < 10]. The record's target is
    [int(2^64 - 1) = -1], the planner goes on from [-1], where it asks [First]
    and not [Next], and sends ten records, for the targets [-1] and [3] in
    turn, and no [ErrShortLimit]; [Steps(10)] makes ten [Run] calls and
    returns [nil]. Over the versions 3 and [2^63], with a [suint] that refuses
    negative numbers, the chain again yields one record; the planner sends it
    and panics in [suint(int(2^63))]. *)
Lemma short_limit_not_reported :
  (let ix := top_version_index in
   let src := index.driver ix in
   let recs := [planned ix 18446744073709551615 (-1)] in
   let sent := flat_map (fun _ => [planned ix 18446744073709551615 (-1); planned ix 3 3])
                        (seq 0 5) in
   versionExists src 3 = None /\
   next_chain src 3 recs /\
   0 < Z.of_nat (List.length recs) < 10 /\
   Outputs suint_panics src (readUp suint_panics src 3 10) (map VMigration sent) /\
   ~ Outputs suint_panics src (readUp suint_panics src 3 10)
             (map VMigration recs
              ++ [VError (ErrShortLimit (10 - Z.of_nat (List.length recs)))]) /\
   exists m',
     Steps suint_panics src (recorder stub.driver) 10 (alternate 30)
           (newCommon (stub_at 3, []))
     = Some (m', None) /\
     run_targets (snd (databaseDrv m')) = [-1; 3; -1; 3; -1; 3; -1; 3; -1; 3]) /\
  (let ix := above_int_index in
   let src := index.driver ix in
   let recs := [planned ix 9223372036854775808 MinInt] in
   versionExists src 3 = None /\
   next_chain src 3 recs /\
   0 < Z.of_nat (List.length recs) < 10 /\
   pl (exec suint_panics src (recorder stub.driver) [TPlanner; TPlanner; TPlanner]
            (start (readUp suint_panics src 3 10) fresh_locked)) = Panic /\
   forall l, ~ Outputs suint_panics src (readUp suint_panics src 3 10) l).
Proof.
  split; cbv zeta.
  - assert (Ho : Outputs suint_panics (index.driver top_version_index)
                   (readUp suint_panics (index.driver top_version_index) 3 10)
                   (map VMigration
                      (flat_map (fun _ => [planned top_version_index 18446744073709551615 (-1);
                                           planned top_version_index 3 3]) (seq 0 5)))).
    { apply (outputs_sound suint_panics (index.driver top_version_index) 30).
      vm_compute. reflexivity. }
    split; [reflexivity | ]. split.
    { apply next_chain_step with (next := 18446744073709551615);
        [reflexivity | vm_compute; reflexivity | ].
      apply next_chain_end with (err := index.not_exist); reflexivity. }
    split; [simpl; lia | ]. split; [exact Ho | ]. split.
    { intros H. pose proof (Outputs_deterministic _ _ _ _ Ho _ H) as E.
      vm_compute in E. discriminate E. }
    eexists. split; vm_compute; reflexivity.
  - split; [reflexivity | ]. split.
    { apply next_chain_step with (next := 9223372036854775808);
        [reflexivity | vm_compute; reflexivity | ].
      apply next_chain_end with (err := index.not_exist); reflexivity. }
    split; [simpl; lia | ]. split; [vm_compute; reflexivity | ].
    intros l H. unfold readUp in H.
    change (check_exists suint_panics (index.driver above_int_index) 3
              (if 10 =? 0 then Send VOther Close else At (UpLoop 10) 3 0))
      with (At (UpLoop 10) 3 0) in H.
    inversion H as [ | | ? ? ? Hc | ? ? ? ? Hc Hb]; subst; [discriminate Hc | ].
    change (loop_body suint_panics (index.driver above_int_index) (UpLoop 10) 3 0)
      with (Send (VMigration (planned above_int_index 9223372036854775808 MinInt))
                 (At (UpLoop 10) MinInt 1)) in Hb.
    inversion Hb as [ | ? ? ? Hk | | ]; subst.
    inversion Hk as [ | | ? ? ? Hc2 | ? ? ? ? Hc2 Hb2]; subst; [discriminate Hc2 | ].
    apply Outputs_not_panic in Hb2. discriminate Hb2.
Qed.

(** ** The index source *)

Section Index.
Variable ix : list index.entry.

Lemma increasing_tail v l : index.increasing (v :: l) -> index.increasing l.
Proof. simpl. tauto. Qed.

Lemma increasing_above v l : index.increasing (v :: l) -> Forall (fun x => v < x) l.
Proof.
  revert v. induction l as [|w l IH]; intros v H; [constructor|].
  destruct H as [Hvw Hl]. constructor; [exact Hvw|].
  apply IH in Hl. eapply Forall_impl; [|exact Hl]. simpl. intros x Hx. lia.
Qed.

Lemma increasing_suffix pre l : index.increasing (pre ++ l) -> index.increasing l.
Proof.
  induction pre as [|a pre IH]; [trivial|]. intros H. apply IH.
  exact (increasing_tail _ _ H).
Qed.

Lemma increasing_below pre v post :
  index.increasing (pre ++ v :: post) -> Forall (fun x => x < v) pre.
Proof.
  induction pre as [|a pre IH]; intros H; [constructor|].
  constructor.
  - apply increasing_above in H. rewrite Forall_forall in H. apply H.
    apply in_or_app. right. now left.
  - apply IH. exact (increasing_tail _ _ H).
Qed.

Lemma find_skip (f : Z -> bool) pre l :
  Forall (fun x => f x = false) pre -> find f (pre ++ l) = find f l.
Proof.
  induction 1 as [|a pre Ha _ IH]; [reflexivity|]. simpl. now rewrite Ha.
Qed.

Lemma find_nothing (f : Z -> bool) l :
  Forall (fun x => f x = false) l -> find f l = None.
Proof.
  intros H. rewrite <- (app_nil_r l). now rewrite find_skip.
Qed.

Lemma Next_inside pre v w post :
  index.versions ix = pre ++ v :: w :: post ->
  index.increasing (index.versions ix) ->
  index.Next ix v = Ok w.
Proof.
  intros E H. unfold index.Next. rewrite E in *.
  rewrite find_skip.
  - simpl. rewrite Z.ltb_irrefl.
    apply increasing_suffix in H. destruct H as [Hvw _].
    destruct (Z.ltb_spec v w); [reflexivity | lia].
  - apply increasing_below in H. eapply Forall_impl; [|exact H].
    simpl. intros x Hx. destruct (Z.ltb_spec v x); [lia | reflexivity].
Qed.

Lemma Next_last pre v :
  index.versions ix = pre ++ [v] ->
  index.increasing (index.versions ix) ->
  index.Next ix v = Err index.not_exist.
Proof.
  intros E H. unfold index.Next. rewrite E in *.
  rewrite find_skip.
  - simpl. now rewrite Z.ltb_irrefl.
  - apply increasing_below in H. eapply Forall_impl; [|exact H].
    simpl. intros x Hx. destruct (Z.ltb_spec v x); [lia | reflexivity].
Qed.

Lemma Prev_inside pre u v post :
  index.versions ix = pre ++ u :: v :: post ->
  index.increasing (index.versions ix) ->
  index.Prev ix v = Ok u.
Proof.
  intros E H. unfold index.Prev. rewrite E in *.
  replace (rev (pre ++ u :: v :: post)) with (rev (v :: post) ++ u :: rev pre).
  - rewrite find_skip.
    + simpl. apply increasing_suffix in H. destruct H as [Huv _].
      destruct (Z.ltb_spec u v); [reflexivity | lia].
    + apply Forall_rev. apply increasing_suffix in H. apply increasing_tail in H.
      constructor; [apply Z.ltb_irrefl|].
      apply increasing_above in H. eapply Forall_impl; [|exact H].
      simpl. intros x Hx. destruct (Z.ltb_spec x v); [lia | reflexivity].
  - rewrite rev_app_distr. simpl. now rewrite <- !app_assoc.
Qed.

Lemma Prev_first v post :
  index.versions ix = v :: post ->
  index.increasing (index.versions ix) ->
  index.Prev ix v = Err index.not_exist.
Proof.
  intros E H. unfold index.Prev. rewrite E in *.
  rewrite find_nothing; [reflexivity|].
  apply Forall_rev. constructor; [apply Z.ltb_irrefl|].
  apply increasing_above in H. eapply Forall_impl; [|exact H].
  simpl. intros x Hx. destruct (Z.ltb_spec x v); [lia | reflexivity].
Qed.

Lemma ReadUp_error v err : index.ReadUp ix v = Err err -> err = index.not_exist.
Proof.
  unfold index.ReadUp. destruct (option_map index.up_of (index.lookup ix v)) as [[b|]|];
    congruence.
Qed.

Lemma ReadDown_error v err : index.ReadDown ix v = Err err -> err = index.not_exist.
Proof.
  unfold index.ReadDown. destruct (option_map index.down_of (index.lookup ix v)) as [[b|]|];
    congruence.
Qed.

Lemma newMigration_index version target :
  newMigration (index.driver ix) version target = Ok (planned ix version target).
Proof.
  unfold newMigration, planned. simpl.
  destruct (int_of_uint version <=? target).
  - destruct (index.ReadUp ix version) as [[b i]|e] eqn:E; [reflexivity|].
    apply ReadUp_error in E. now subst e.
  - destruct (index.ReadDown ix version) as [[b i]|e] eqn:E; [reflexivity|].
    apply ReadDown_error in E. now subst e.
Qed.

Lemma planned_Version version target : Version (planned ix version target) = version.
Proof.
  unfold planned.
  now destruct (if int_of_uint version <=? target
                then index.ReadUp ix version else index.ReadDown ix version) as [[b i]|e].
Qed.

Lemma planned_TargetVersion version target :
  TargetVersion (planned ix version target) = target.
Proof.
  unfold planned.
  now destruct (if int_of_uint version <=? target
                then index.ReadUp ix version else index.ReadDown ix version) as [[b i]|e].
Qed.

Lemma lookup_known v : In v (index.versions ix) -> exists f, index.lookup ix v = Some f.
Proof.
  intros H. unfold index.lookup.
  destruct (find (fun e => fst e =? v) ix) as [e|] eqn:E; [now exists (snd e)|].
  exfalso. unfold index.versions in H. apply in_map_iff in H. destruct H as [e [He Hin]].
  pose proof (find_none _ _ E e Hin) as F. simpl in F. rewrite He, Z.eqb_refl in F.
  discriminate.
Qed.

(** A version of the index is present. *)
Lemma versionExists_index v :
  In v (index.versions ix) -> versionExists (index.driver ix) v = None.
Proof.
  intros H. destruct (lookup_known v H) as [f E].
  unfold versionExists. simpl. unfold index.ReadUp, index.ReadDown. rewrite E.
  now destruct f.
Qed.
End Index.

(** ** [Up] and [Down] through a whole index *)

Section RoundTrip.
Variable suint_neg : Z -> option Z.
Variable ix : list index.entry.
Hypothesis well_formed : index.well_formed ix.

Local Abbreviation src := (index.driver ix).
Local Abbreviation Outputs := (Outputs suint_neg src).

Lemma version_range v : In v (index.versions ix) -> 0 <= v <= MaxInt.
Proof.
  intros H. destruct well_formed as [_ [Hr _]]. rewrite Forall_forall in Hr. now apply Hr.
Qed.

Lemma versions_length : Z.of_nat (List.length (index.versions ix)) <= MaxInt.
Proof.
  destruct well_formed as [_ [_ Hl]]. unfold index.versions. now rewrite length_map.
Qed.

Lemma UpLoop_rest post : forall pre v count,
  index.versions ix = pre ++ v :: post ->
  1 <= count ->
  count + Z.of_nat (List.length post) <= MaxInt ->
  Outputs (At (UpLoop (-1)) v count)
          (map VMigration (map (fun w => planned ix w w) post)).
Proof.
  destruct well_formed as [Hinc _]. pose proof MinInt_neg as Hmin.
  induction post as [|w post IH]; intros pre v count E Hc Hlen.
  - assert (Hv : 0 <= v <= MaxInt).
    { apply version_range. rewrite E. apply in_or_app. right. now left. }
    apply Outputs_iter; [apply orb_true_r|]. simpl.
    destruct (Z.eqb_spec v (-1)); [lia|].
    unfold with_suint. rewrite suint_nonneg by lia.
    rewrite (Next_last ix pre v E Hinc). simpl.
    destruct (Z.eqb_spec count 0); [lia|]. constructor.
  - assert (Hv : 0 <= v <= MaxInt).
    { apply version_range. rewrite E. apply in_or_app. right. now left. }
    assert (Hw : 0 <= w <= MaxInt).
    { apply version_range. rewrite E. apply in_or_app. right. right. now left. }
    simpl List.length in Hlen. rewrite Nat2Z.inj_succ in Hlen.
    apply Outputs_iter; [apply orb_true_r|]. simpl.
    destruct (Z.eqb_spec v (-1)); [lia|].
    unfold with_suint. rewrite suint_nonneg by lia.
    rewrite (Next_inside ix pre v w post E Hinc). simpl.
    unfold emit. rewrite newMigration_index.
    rewrite int_of_uint_id by exact Hw. rewrite int_add_id by lia.
    constructor. apply (IH (pre ++ [v])); [|lia|lia].
    rewrite E. now rewrite <- app_assoc.
Qed.

(** From the empty state, the up planner without limit sends the up step of
    every version, first to last, and closes. *)
Lemma readUp_all :
  ix <> [] -> Outputs (readUp suint_neg src (-1) (-1)) (map VMigration (ups ix)).
Proof.
  intros Hne. destruct (index.versions ix) as [|v post] eqn:E.
  { destruct ix; [congruence | discriminate]. }
  assert (Hv : 0 <= v <= MaxInt).
  { apply version_range. rewrite E. now left. }
  pose proof versions_length as Hlen. rewrite E in Hlen. simpl List.length in Hlen.
  rewrite Nat2Z.inj_succ in Hlen.
  unfold ups. rewrite E. simpl map.
  unfold readUp. simpl. apply Outputs_iter; [apply orb_true_r|]. simpl.
  unfold index.First. rewrite E. unfold emit. rewrite newMigration_index.
  rewrite int_of_uint_id by exact Hv. constructor.
  change (int_add 0 1) with 1.
  apply (UpLoop_rest post [] v); [exact E | lia | lia].
Qed.

Lemma DownLoop_rest before : forall v post count,
  index.versions ix = rev before ++ v :: post ->
  0 <= count ->
  count + Z.of_nat (List.length before) + 1 <= MaxInt ->
  Outputs (At (DownLoop (-1)) v count) (map VMigration (downs_from ix before v)).
Proof.
  destruct well_formed as [Hinc _]. pose proof MinInt_neg as Hmin.
  induction before as [|u before IH]; intros v post count E Hc Hlen.
  - assert (Hv : 0 <= v <= MaxInt).
    { apply version_range. rewrite E. apply in_or_app. right. now left. }
    simpl in E.
    apply Outputs_iter; [apply orb_true_r|]. simpl.
    unfold with_suint. rewrite suint_nonneg by lia.
    rewrite (Prev_first ix v post E Hinc). simpl.
    unfold index.First. rewrite E. unfold emit. rewrite newMigration_index.
    rewrite int_add_id by (simpl in Hlen; lia).
    destruct (Z.ltb_spec (count + 1) (-1)); [lia|]. repeat constructor.
  - assert (Hv : 0 <= v <= MaxInt).
    { apply version_range. rewrite E. apply in_or_app. right. now left. }
    assert (E' : index.versions ix = rev before ++ u :: v :: post).
    { rewrite E. simpl. now rewrite <- app_assoc. }
    assert (Hu : 0 <= u <= MaxInt).
    { apply version_range. rewrite E'. apply in_or_app. right. now left. }
    simpl List.length in Hlen. rewrite Nat2Z.inj_succ in Hlen.
    apply Outputs_iter; [apply orb_true_r|]. simpl.
    unfold with_suint. rewrite suint_nonneg by lia.
    rewrite (Prev_inside ix (rev before) u v post E' Hinc). simpl.
    unfold emit. rewrite newMigration_index.
    rewrite int_of_uint_id by exact Hu. rewrite int_add_id by lia.
    constructor. apply (IH u (v :: post)); [exact E' | lia | lia].
Qed.

(** From the last version, the down planner without limit sends the down step
    of every version, last to first, the last one to the empty state, and
    closes. *)
Lemma readDown_all pre v :
  index.versions ix = pre ++ [v] ->
  Outputs (readDown suint_neg src v (-1)) (map VMigration (downs ix)).
Proof.
  intros E.
  assert (Hv : 0 <= v <= MaxInt).
  { apply version_range. rewrite E. apply in_or_app. right. now left. }
  pose proof versions_length as Hlen. rewrite E, length_app in Hlen.
  simpl List.length in Hlen. rewrite Nat2Z.inj_add in Hlen.
  unfold readDown. rewrite check_exists_found.
  - simpl. destruct (Z.eqb_spec v (-1)); [lia|]. simpl.
    unfold downs. rewrite E, rev_app_distr. simpl.
    apply (DownLoop_rest (rev pre) v []).
    + now rewrite rev_involutive.
    + lia.
    + rewrite length_rev. simpl in Hlen. lia.
  - lia.
  - apply versionExists_index. rewrite E. apply in_or_app. right. now left.
Qed.

Lemma ups_Version : map Version (ups ix) = index.versions ix.
Proof.
  unfold ups. rewrite map_map. rewrite <- (map_id (index.versions ix)) at 2.
  apply map_ext. intros v. apply planned_Version.
Qed.

Lemma downs_from_Version before v : map Version (downs_from ix before v) = v :: before.
Proof.
  revert v. induction before as [|u before IH]; intros v; simpl.
  - now rewrite planned_Version.
  - now rewrite planned_Version, IH.
Qed.

Lemma downs_Version : map Version (downs ix) = rev (index.versions ix).
Proof.
  unfold downs. destruct (rev (index.versions ix)) as [|v before]; [reflexivity|].
  apply downs_from_Version.
Qed.

Lemma ups_are_up : Forall is_up (ups ix).
Proof.
  unfold ups. apply Forall_map. apply Forall_forall. intros v Hv.
  unfold is_up. rewrite planned_Version, planned_TargetVersion.
  rewrite int_of_uint_id by (now apply version_range). lia.
Qed.

Lemma downs_from_are_down before : forall v post,
  index.versions ix = rev before ++ v :: post ->
  Forall is_down (downs_from ix before v).
Proof.
  destruct well_formed as [Hinc _].
  induction before as [|u before IH]; intros v post E.
  - assert (Hv : 0 <= v <= MaxInt).
    { apply version_range. rewrite E. apply in_or_app. right. now left. }
    repeat constructor. unfold is_down.
    rewrite planned_Version, planned_TargetVersion, int_of_uint_id by exact Hv. lia.
  - assert (Hv : 0 <= v <= MaxInt).
    { apply version_range. rewrite E. apply in_or_app. right. now left. }
    assert (E' : index.versions ix = rev before ++ u :: v :: post).
    { rewrite E. simpl. now rewrite <- app_assoc. }
    simpl. constructor.
    + unfold is_down.
      rewrite planned_Version, planned_TargetVersion, int_of_uint_id by exact Hv.
      rewrite E' in Hinc. apply increasing_suffix in Hinc. now destruct Hinc.
    + now apply (IH u (v :: post)).
Qed.

Lemma downs_are_down : Forall is_down (downs ix).
Proof.
  unfold downs. destruct (rev (index.versions ix)) as [|v before] eqn:E; [constructor|].
  apply (downs_from_are_down before v []).
  rewrite <- (rev_involutive (index.versions ix)), E. reflexivity.
Qed.
End RoundTrip.

(** ** Planning operations on the recording stub *)

Section OnStub.
Variable suint_neg : Z -> option Z.
Variable sourceDrv : source.Driver.

Local Abbreviation drv := (recorder stub.driver).

Lemma last_cons {A} (a : A) l d : last (a :: l) d = last l a.
Proof.
  revert a d. induction l as [|b l IH]; intros a d; [reflexivity|].
  change (last (a :: b :: l) d) with (last (b :: l) d). now rewrite !IH.
Qed.

Lemma sequential_stub recs : forall s log,
  exists s',
    sequential drv (map VMigration recs) (s, log)
    = ((s', log ++ map run_call recs), RDone None) /\
    stub.CurrentVersion s' = last (map TargetVersion recs) (stub.CurrentVersion s) /\
    stub.IsLocked s' = stub.IsLocked s.
Proof.
  induction recs as [|migr recs IH]; intros s log.
  - exists s. simpl. now rewrite app_nil_r.
  - simpl map. rewrite last_cons.
    assert (E : exists s1, run_migration drv migr (s, log) = ((s1, log ++ [run_call migr]), None)
                /\ stub.CurrentVersion s1 = TargetVersion migr
                /\ stub.IsLocked s1 = stub.IsLocked s).
    { unfold run_migration, run_call. destruct (Body migr); simpl.
      - destruct (BufferedBody migr); simpl; eexists; repeat split.
      - eexists; repeat split. }
    destruct E as [s1 [E [Hv Hl]]].
    destruct (IH s1 (log ++ [run_call migr])) as [s' [Hs [Hv' Hl']]].
    exists s'. simpl sequential. rewrite E, Hs. repeat split.
    + now rewrite <- app_assoc.
    + now rewrite Hv', Hv.
    + now rewrite Hl', Hl.
Qed.

(** What a planning operation does on an unlocked engine over the recording
    stub when the planner's output is the records [recs]. *)
Lemma planning_on_stub op recs (m : Engine (stub.Stub * list call)) :
  planning op ->
  quiet m ->
  isLocked m = false ->
  stub.IsLocked (fst (databaseDrv m)) = false ->
  Outputs suint_neg sourceDrv
          (planner_of suint_neg sourceDrv op
             (if stub.CurrentVersion (fst (databaseDrv m)) <? 0
              then database.NilVersion else stub.CurrentVersion (fst (databaseDrv m))))
          (map VMigration recs) ->
  (exists sched m',
      signal_free sched /\ perform suint_neg sourceDrv drv op sched m = Some (m', None)) /\
  (forall sched m' r,
      signal_free sched ->
      perform suint_neg sourceDrv drv op sched m = Some (m', r) ->
      r = None /\
      quiet m' /\ isLocked m' = false /\
      PrefetchMigrations m' = PrefetchMigrations m /\
      stub.IsLocked (fst (databaseDrv m')) = false /\
      stub.CurrentVersion (fst (databaseDrv m'))
      = last (map TargetVersion recs) (stub.CurrentVersion (fst (databaseDrv m))) /\
      snd (databaseDrv m')
      = snd (databaseDrv m) ++ CLock :: CVersion :: map run_call recs ++ [CUnlock]).
Proof.
  intros Hop Hq Hl Hsl Ho.
  destruct m as [[s log] gs igs il pf]. simpl in *. subst il.
  set (m := {| databaseDrv := (s, log); GracefulStop := gs; isGracefulStop := igs;
               isLocked := false; PrefetchMigrations := pf |}) in *.
  set (s1 := {| stub.CurrentVersion := stub.CurrentVersion s;
                stub.MigrationSequence := stub.MigrationSequence s;
                stub.LastRunMigration := stub.LastRunMigration s;
                stub.IsLocked := true |}).
  set (m1 := set_isLocked true (set_databaseDrv (s1, log ++ [CLock]) m)).
  set (cur := if stub.CurrentVersion s <? 0
              then database.NilVersion else stub.CurrentVersion s) in *.
  assert (Hlock : lock drv m = (m1, None)).
  { unfold lock. simpl. unfold stub.Lock. now rewrite Hsl. }
  assert (Hver : database.Version drv (databaseDrv m1)
                 = ((s1, (log ++ [CLock]) ++ [CVersion]), Ok cur)).
  { simpl. unfold stub.Version. simpl. subst cur.
    now destruct (stub.CurrentVersion s <? 0). }
  destruct (sequential_stub recs s1 ((log ++ [CLock]) ++ [CVersion])) as [s2 [Hseq [Hcv Hil]]].
  split.
  - destruct (perform_complete suint_neg sourceDrv _ drv op m m1 _ cur _ _ _
                Hop Hq Hlock Hver Ho Hseq) as [sched [Hf Hp]].
    exists sched. eexists. split; [exact Hf|]. exact Hp.
  - intros sched m' r Hf Hp.
    destruct (perform_sequential suint_neg sourceDrv _ drv op sched m m1 m' _ cur _ r
                Hop Hq Hlock Hver Ho Hf Hp) as [d2 [r2 [Hs Hr]]].
    rewrite Hseq in Hs. injection Hs as <- <-.
    unfold unlockErr, unlock in Hr. simpl in Hr. injection Hr as -> ->.
    simpl. repeat split; try apply Hq.
    + now rewrite Hcv.
    + rewrite <- !app_assoc. reflexivity.
Qed.
End OnStub.

(** ** The round trip *)

Lemma downs_from_last ix before : forall v d,
  last (map TargetVersion (downs_from ix before v)) d = -1.
Proof.
  induction before as [|u before IH]; intros v d.
  - simpl. apply planned_TargetVersion.
  - simpl map. rewrite last_cons. apply IH.
Qed.

Lemma ups_TargetVersion ix : map TargetVersion (ups ix) = index.versions ix.
Proof.
  unfold ups. rewrite map_map. rewrite <- (map_id (index.versions ix)) at 2.
  apply map_ext. intros v. apply planned_TargetVersion.
Qed.

(** C2, as the code has it. For every non-empty index whose versions fit an
    [int], and every prefetch depth, on a fresh engine over the (recording)
    stub database at [NilVersion]: [Up()] and then [Down()] return [nil] under
    some schedules, and under all schedules without stop signal under which
    they return, they return [nil], the database is at the last version after
    [Up] and at [NilVersion] after [Down], and the [Run] calls the driver saw
    are those of the up step of every version, first to last, followed by those
    of the down step of every version, last to first: the sequence of versions
    across the two calls reads the same backwards, each up step at a version
    being matched by the down step at that version. *)
Theorem Up_then_Down_round_trip :
  forall (suint_neg : Z -> option Z) (ix : list index.entry) (prefetch : Z),
    index.well_formed ix ->
    ix <> [] ->
    let up := Up suint_neg (index.driver ix) (recorder stub.driver) in
    let down := Down suint_neg (index.driver ix) (recorder stub.driver) in
    (exists s1 s2 m1 m2,
        signal_free s1 /\ signal_free s2 /\
        up s1 (fresh prefetch) = Some (m1, None) /\ down s2 m1 = Some (m2, None)) /\
    (forall s1 s2 m1 m2 r1 r2,
        signal_free s1 -> signal_free s2 ->
        up s1 (fresh prefetch) = Some (m1, r1) ->
        down s2 m1 = Some (m2, r2) ->
        r1 = None /\ r2 = None /\
        stub.CurrentVersion (fst (databaseDrv m1)) = last (index.versions ix) (-1) /\
        snd (stub.Version (fst (databaseDrv m2))) = Ok database.NilVersion /\
        snd (databaseDrv m2)
        = [CLock; CVersion] ++ map run_call (ups ix) ++ [CUnlock]
          ++ [CLock; CVersion] ++ map run_call (downs ix) ++ [CUnlock] /\
        map Version (ups ix) = index.versions ix /\
        map Version (downs ix) = rev (index.versions ix) /\
        Forall is_up (ups ix) /\
        Forall is_down (downs ix) /\
        map Version (ups ix ++ downs ix) = rev (map Version (ups ix ++ downs ix))).
Proof.
  intros suint_neg ix prefetch Hwf Hne up down.
  pose proof (readUp_all suint_neg ix Hwf Hne) as Hup.
  assert (Hq0 : quiet (fresh prefetch)) by (split; reflexivity).
  destruct (planning_on_stub suint_neg (index.driver ix) OpUp (ups ix) (fresh prefetch)
              I Hq0 eq_refl eq_refl Hup) as [[s1 [m1 [Hf1 Hp1]]] Hall1].
  assert (Hlast : exists pre v, index.versions ix = pre ++ [v]).
  { destruct (exists_last (l := index.versions ix)) as [pre [v E]].
    - destruct ix; [congruence | discriminate].
    - now exists pre, v. }
  destruct Hlast as [pre [v Ev]].
  assert (Hv : 0 <= v <= MaxInt).
  { apply (version_range ix Hwf). rewrite Ev. apply in_or_app. right. now left. }
  assert (Hlv : last (index.versions ix) (-1) = v).
  { rewrite Ev. apply last_last. }
  assert (Hdown : forall m1' : Engine (stub.Stub * list call),
             stub.CurrentVersion (fst (databaseDrv m1')) = v ->
             Outputs suint_neg (index.driver ix)
               (planner_of suint_neg (index.driver ix) OpDown
                  (if stub.CurrentVersion (fst (databaseDrv m1')) <? 0
                   then database.NilVersion
                   else stub.CurrentVersion (fst (databaseDrv m1')))) (map VMigration (downs ix))).
  { intros m1' E. rewrite E. destruct (Z.ltb_spec v 0); [lia|].
    exact (readDown_all suint_neg ix Hwf pre v Ev). }
  assert (Hlastdown : forall d, last (map TargetVersion (downs ix)) d = -1).
  { intros d. unfold downs. rewrite Ev, rev_app_distr. simpl. apply downs_from_last. }
  split.
  - destruct (Hall1 s1 m1 None Hf1 Hp1) as [_ [Hq1 [Hl1 [_ [Hsl1 [Hcv1 _]]]]]].
    rewrite ups_TargetVersion in Hcv1.
    change (stub.CurrentVersion (fst (databaseDrv (fresh prefetch)))) with (-1) in Hcv1.
    rewrite Hlv in Hcv1.
    destruct (planning_on_stub suint_neg (index.driver ix) OpDown (downs ix) m1
                I Hq1 Hl1 Hsl1 (Hdown m1 Hcv1)) as [[s2 [m2 [Hf2 Hp2]]] _].
    exists s1, s2, m1, m2. repeat split; assumption.
  - intros t1 t2 n1 n2 r1 r2 Hg1 Hg2 Hu Hd.
    destruct (Hall1 t1 n1 r1 Hg1 Hu) as [Hr1 [Hq1 [Hl1 [_ [Hsl1 [Hcv1 Hlog1]]]]]].
    rewrite ups_TargetVersion in Hcv1.
    change (stub.CurrentVersion (fst (databaseDrv (fresh prefetch)))) with (-1) in Hcv1.
    rewrite Hlv in Hcv1.
    destruct (planning_on_stub suint_neg (index.driver ix) OpDown (downs ix) n1
                I Hq1 Hl1 Hsl1 (Hdown n1 Hcv1)) as [_ Hall2].
    destruct (Hall2 t2 n2 r2 Hg2 Hd) as [Hr2 [_ [_ [_ [_ [Hcv2 Hlog2]]]]]].
    rewrite Hlastdown in Hcv2.
    repeat split.
    + exact Hr1.
    + exact Hr2.
    + now rewrite Hlv.
    + unfold stub.Version. rewrite Hcv2. reflexivity.
    + rewrite Hlog2, Hlog1. simpl. rewrite <- !app_assoc. reflexivity.
    + apply ups_Version.
    + apply downs_Version.
    + exact (ups_are_up ix Hwf).
    + exact (downs_are_down ix Hwf).
    + rewrite map_app, rev_app_distr, ups_Version, downs_Version, rev_involutive.
      reflexivity.
Qed.

Lemma scenario_index_well_formed : index.well_formed scenario_index.
Proof.
  unfold index.well_formed, MaxInt. simpl. repeat split; try lia.
  repeat constructor; lia.
Qed.

Lemma Up_then_Down_round_trip_witness :
  exists s1 s2 m1 m2,
    signal_free s1 /\ signal_free s2 /\
    Up suint_panics (index.driver scenario_index) (recorder stub.driver) s1 (fresh 10)
    = Some (m1, None) /\
    Down suint_panics (index.driver scenario_index) (recorder stub.driver) s2 m1
    = Some (m2, None).
Proof.
  refine (proj1 (Up_then_Down_round_trip suint_panics scenario_index 10 _ _)).
  - unfold index.well_formed, MaxInt. simpl. repeat split; try lia.
    repeat constructor; lia.
  - discriminate.
Defined.

Section Spinning.
Variable suint_neg : Z -> option Z.

Local Abbreviation src := (index.driver beyond_int).
Local Abbreviation drv := (recorder stub.driver).

Lemma run_migration_stub migr d : snd (run_migration drv migr d) = None.
Proof.
  unfold run_migration. destruct (Body migr); simpl.
  - now destruct (BufferedBody migr).
  - reflexivity.
Qed.

Lemma step_spinning t (c : config (stub.Stub * list call)) :
  t <> TSignal -> spinning c -> spinning (step suint_neg src drv t c).
Proof.
  intros Ht Hc. pose proof Hc as [Hq [[count Hp] [Hr Hn]]]. unfold step.
  destruct (is_done (rn c) || is_panic (pl c)); [exact Hc|].
  destruct t; [| |congruence].
  - unfold planner_step. destruct Hp as [Hp | [migr Hp]]; rewrite Hp.
    + replace (loop_cond (UpLoop (-1)) (-1) count) with true
        by (symmetry; apply orb_true_r).
      rewrite (stop_receive_quiet _ Hq). simpl. unfold emit. rewrite newMigration_index.
      repeat split; try apply Hq; try exact Hr; try exact Hn.
      exists (int_add count 1). right. eexists. reflexivity.
    + destruct (_ <? _).
      * repeat split; try apply Hq; try exact Hn.
        -- exists count. now left.
        -- apply Forall_app. split; [exact Hr|]. repeat constructor. now exists migr.
      * exact Hc.
  - unfold runner_step. destruct Hn as [Hn | [migr Hn]]; rewrite Hn.
    + destruct (ret c) as [|r q] eqn:Eq.
      * destruct Hp as [Hp | [migr Hp]]; rewrite Hp.
        -- exact Hc.
        -- rewrite (dispatch_quiet _ _ _ Hq).
           repeat split; try apply Hq.
           ++ exists count. now left.
           ++ constructor.
           ++ right. now exists migr.
      * inversion Hr as [|? ? [migr ->] Hq']; subst.
        rewrite (dispatch_quiet _ _ _ Hq).
        repeat split; try apply Hq.
        -- exists count. exact Hp.
        -- exact Hq'.
        -- right. now exists migr.
    + pose proof (run_migration_stub migr (databaseDrv (eng c))) as E.
      destruct (run_migration drv migr (databaseDrv (eng c))) as [d err].
      simpl in E. subst err.
      repeat split; try apply Hq; try exact Hr.
      * exists count. exact Hp.
      * now left.
Qed.

Lemma spinning_never_returns sched (m : Engine (stub.Stub * list call)) :
  signal_free sched -> quiet m ->
  runMigrations suint_neg src drv (readUp suint_neg src (-1) (-1)) sched m = None.
Proof.
  intros Hf Hq. unfold runMigrations.
  assert (H : spinning (exec suint_neg src drv sched
                          (start (readUp suint_neg src (-1) (-1)) m))).
  { apply exec_invariant_free; [apply step_spinning | exact Hf |].
    repeat split; try apply Hq.
    - exists 0. now left.
    - constructor.
    - now left. }
  destruct H as [_ [_ [_ [H | [migr H]]]]]; now rewrite H.
Qed.
End Spinning.

(** Against C2 without the bound on the versions: over the index whose only
    version is the largest [uint], [int(firstVersion)] is -1, so the up planner is back at
    [from == -1] after every record and sends the first migration for ever;
    [Up()] returns under no schedule without stop signal. *)
Lemma Up_never_returns_beyond_int :
  ~ (exists s1 m1 r1,
        signal_free s1 /\
        Up suint_panics (index.driver beyond_int) (recorder stub.driver) s1 (fresh 10)
        = Some (m1, r1)).
Proof.
  intros [s1 [m1 [r1 [Hf H]]]]. unfold Up, locked_run in H. simpl in H.
  rewrite spinning_never_returns in H; [discriminate | exact Hf | split; reflexivity].
Qed.

(** ** [Migrate] and the empty state *)

Section AboveNil.
Variable suint_neg : Z -> option Z.
Variable sourceDrv : source.Driver.

Lemma newMigration_TargetVersion version target migr :
  newMigration sourceDrv version target = Ok migr -> TargetVersion migr = target.
Proof.
  unfold newMigration, NewMigration.
  destruct (_ <=? _).
  - destruct (source.ReadUp sourceDrv version) as [[b i]|e].
    + now intros [= <-].
    + destruct (os_IsNotExist (Some e)); [now intros [= <-] | discriminate].
  - destruct (source.ReadDown sourceDrv version) as [[b i]|e].
    + now intros [= <-].
    + destruct (os_IsNotExist (Some e)); [now intros [= <-] | discriminate].
Qed.

Lemma fits_int_of_uint v : 0 <= v <= MaxInt -> int_of_uint v <> -1.
Proof. intros H. rewrite int_of_uint_id by exact H. lia. Qed.

Lemma int_of_uint_le v : int_of_uint v <= MaxInt.
Proof.
  unfold int_of_uint, wrap_int, MaxInt, int_bits.
  change (2 ^ (64 - 1)) with 9223372036854775808.
  change (2 ^ 64) with 18446744073709551616.
  pose proof (Z.mod_pos_bound (v + 9223372036854775808) 18446744073709551616) as H.
  lia.
Qed.

(** *** The invariant, for any description [L] of the loops the planner is in *)

Section Invariant.
Variable L : loop -> Z -> Z -> Prop.

Local Abbreviation good p := (sends not_to_nil p /\ heads_for L p).

Lemma good_fail err : good (fail err).
Proof. simpl. auto. Qed.

Lemma good_emit version target k :
  target <> -1 -> good k -> good (emit sourceDrv version target k).
Proof.
  intros Ht [H1 H2]. unfold emit.
  destruct (newMigration sourceDrv version target) as [migr|e] eqn:E; simpl; auto.
  apply newMigration_TargetVersion in E. rewrite E. auto.
Qed.

Lemma good_with_suint n k :
  (forall u, suint suint_neg n = Some u -> good (k u)) -> good (with_suint suint_neg n k).
Proof.
  intros H. unfold with_suint.
  destruct (suint suint_neg n) as [u | ]; [apply H; reflexivity | simpl; auto].
Qed.

Lemma good_check_exists v k :
  (v < 0 \/ (exists u, suint suint_neg v = Some u /\ versionExists sourceDrv u = None) ->
   good k) ->
  good (check_exists suint_neg sourceDrv v k).
Proof.
  intros H. unfold check_exists.
  destruct (Z.leb_spec 0 v) as [Hv | Hv]; [ | apply H; left; exact Hv].
  apply good_with_suint. intros u Hu.
  destruct (versionExists sourceDrv u) eqn:E; [apply good_fail | ].
  apply H. right. exists u. auto.
Qed.

Hypothesis L_loop : forall lp from count,
  L lp from count -> loop_cond lp from count = true ->
  good (loop_body suint_neg sourceDrv lp from count).

Variable D : Type.
Variable drv : database.Driver D.

Lemma dispatch_above_nil (m : Engine (D * list call)) r :
  not_to_nil r ->
  forall migr, snd (dispatch m r) = RRun migr -> TargetVersion migr <> -1.
Proof.
  intros H migr. unfold dispatch. destruct (stop_receive m) as [m' [ | | ]]; simpl;
    try discriminate.
  destruct r; simpl; try discriminate. now intros [= <-].
Qed.

Lemma step_above_nil log0 t (c : config (D * list call)) :
  above_nil L log0 c -> above_nil L log0 (step suint_neg sourceDrv (recorder drv) t c).
Proof.
  intros Hc. pose proof Hc as [Hs [Hl [Hr [Hn [new [Hlog Hnew]]]]]]. unfold step.
  destruct (is_done (rn c) || is_panic (pl c)); [exact Hc|].
  destruct t.
  - unfold planner_step. destruct (pl c) as [lp from count | v k | | |] eqn:Ep;
      try exact Hc.
    + destruct (loop_cond lp from count) eqn:Ec.
      * pose proof (L_loop lp from count Hl Ec) as [G1 G2].
        pose proof (stop_receive_databaseDrv (eng c)) as Hd.
        destruct (stop_receive (eng c)) as [m' [ | | ]]; simpl in Hd;
          unfold above_nil; cbn [pl ret rn eng];
          rewrite Hd; repeat split; auto; now exists new.
      * unfold above_nil; simpl. repeat split; auto. now exists new.
    + destruct (_ <? _); [|exact Hc].
      destruct Hs as [Hv Hk]. unfold above_nil; simpl. repeat split; auto.
      * apply Forall_app. split; [exact Hr | now constructor].
      * now exists new.
    + unfold above_nil; simpl. repeat split; auto. now exists new.
  - unfold runner_step. destruct (rn c) as [ | migr | | err | ] eqn:Er; try exact Hc.
    + destruct (ret c) as [|r q] eqn:Eq.
      * destruct (pl c) as [lp from count | v k | | |] eqn:Ep; try exact Hc.
        -- destruct Hs as [Hv Hk].
           pose proof (dispatch_above_nil (eng c) v Hv) as G.
           pose proof (dispatch_eng _ (eng c) v) as Ge.
           destruct (dispatch (eng c) v) as [m' rn']. simpl in *. subst m'.
           unfold above_nil; simpl. rewrite stop_receive_databaseDrv. repeat split; auto.
           now exists new.
        -- unfold above_nil; simpl. repeat split; auto; try discriminate. now exists new.
      * inversion Hr as [|? ? Hv Hq]; subst.
        pose proof (dispatch_above_nil (eng c) r Hv) as G.
        pose proof (dispatch_eng _ (eng c) r) as Ge.
        destruct (dispatch (eng c) r) as [m' rn']. simpl in *. subst m'.
        unfold above_nil; simpl. rewrite stop_receive_databaseDrv. repeat split; auto.
        now exists new.
    + pose proof (run_migration_log _ drv migr (databaseDrv (eng c))) as E.
      destruct (run_migration (recorder drv) migr (databaseDrv (eng c))) as [d err].
      simpl in E. unfold above_nil; simpl. repeat split; auto.
      * intros migr'. destruct err; discriminate.
      * exists (new ++ [run_call migr]). split.
        -- rewrite E, Hlog. now rewrite app_assoc.
        -- apply Forall_app. split; [exact Hnew|]. repeat constructor.
           simpl. now apply Hn.
    + unfold above_nil; simpl. repeat split; auto; try discriminate. now exists new.
  - unfold above_nil, signal; simpl.
    destruct (_ <? _)%nat; simpl; repeat split; auto; now exists new.
Qed.

Lemma exec_above_nil p sched (m : Engine (D * list call)) :
  good p ->
  above_nil L (snd (databaseDrv m))
            (exec suint_neg sourceDrv (recorder drv) sched (start p m)).
Proof.
  intros [H1 H2]. apply exec_invariant.
  - intros t c. apply step_above_nil.
  - unfold above_nil; simpl. repeat split; auto; try discriminate.
    exists []. split; [now rewrite app_nil_r | constructor].
Qed.

(** What the run of the planner gives for [Migrate], whose planner starts
    from the version [cur] the driver reports. *)
Local Abbreviation grows log log' :=
  (exists new, log' = log ++ new /\ Forall not_run_to_nil new).

Lemma grows_refl (log : list call) : grows log log.
Proof. exists []. split; [now rewrite app_nil_r | constructor]. Qed.

Lemma grows_trans (l1 l2 l3 : list call) : grows l1 l2 -> grows l2 l3 -> grows l1 l3.
Proof.
  intros [n1 [-> H1]] [n2 [-> H2]]. exists (n1 ++ n2). split.
  - now rewrite app_assoc.
  - apply Forall_app. now split.
Qed.

Lemma grows_one (log : list call) x : not_run_to_nil x -> grows log (log ++ [x]).
Proof. intros H. exists [x]. split; [reflexivity | now repeat constructor]. Qed.

Lemma lock_grows (m : Engine (D * list call)) :
  grows (snd (databaseDrv m)) (snd (databaseDrv (fst (lock (recorder drv) m)))).
Proof.
  unfold lock. destruct (isLocked m); simpl; [apply grows_refl|].
  destruct (database.Lock drv (fst (databaseDrv m))) as [d [e|]]; simpl;
    now apply grows_one.
Qed.

Lemma unlockErr_grows prevErr (m : Engine (D * list call)) :
  grows (snd (databaseDrv m))
        (snd (databaseDrv (fst (unlockErr (recorder drv) prevErr m)))).
Proof. rewrite unlockErr_recorded. now apply grows_one. Qed.

Lemma Migrate_grows version sched (m m' : Engine (D * list call)) r :
  (forall m1 d cur,
      lock (recorder drv) m = (m1, None) ->
      database.Version (recorder drv) (databaseDrv m1) = (d, Ok cur) ->
      good (read suint_neg sourceDrv cur (int_of_uint version))) ->
  Migrate suint_neg sourceDrv (recorder drv) version sched m = Some (m', r) ->
  grows (snd (databaseDrv m)) (snd (databaseDrv m')).
Proof.
  intros Hgood H. unfold Migrate, locked_run in H.
  pose proof (lock_grows m) as G1.
  destruct (lock (recorder drv) m) as [m1 [e|]] eqn:El; simpl in G1.
  { injection H as <- _. exact G1. }
  apply (grows_trans _ _ _ G1).
  assert (G2 : grows (snd (databaseDrv m1))
                     (snd (fst (database.Version (recorder drv) (databaseDrv m1))))).
  { simpl. destruct (database.Version drv (fst (databaseDrv m1))) as [d v].
    now apply grows_one. }
  destruct (database.Version (recorder drv) (databaseDrv m1)) as [d [cur|e]] eqn:Ev;
    simpl in G2.
  + unfold runMigrations in H.
    pose proof (exec_above_nil _ sched (set_databaseDrv d m1)
                  (Hgood m1 d cur eq_refl Ev)) as [_ [_ [_ [_ G3]]]].
    destruct (rn (exec _ _ _ _ _)); try discriminate.
    injection H as H. apply (grows_trans _ _ _ G2). simpl in G3.
    apply (grows_trans _ _ _ G3).
    pose proof (unlockErr_grows err (eng (exec suint_neg sourceDrv (recorder drv) sched
                  (start (read suint_neg sourceDrv cur (int_of_uint version))
                         (set_databaseDrv d m1))))) as G4.
    rewrite H in G4. exact G4.
  + injection H as H. apply (grows_trans _ _ _ G2).
    pose proof (unlockErr_grows (Some e) (set_databaseDrv d m1)) as G4.
    rewrite H in G4. exact G4.
Qed.
End Invariant.

(** *** A source that never hands out the version [2^64 - 1] *)

Section NeverNil.
Hypothesis fits : never_nil sourceDrv.

Lemma loop_body_above_nil lp from count :
  loops_above_nil lp from count ->
  loop_cond lp from count = true ->
  sends not_to_nil (loop_body suint_neg sourceDrv lp from count) /\
  heads_for loops_above_nil (loop_body suint_neg sourceDrv lp from count).
Proof.
  destruct fits as [_ [Hnext Hprev]].
  destruct lp as [to | to | limit | limit]; simpl; intros Hto _; try contradiction.
  - apply good_with_suint. intros u _.
    destruct (source.Next sourceDrv u) as [next|e] eqn:E; [|apply good_fail].
    apply good_emit; [|simpl; auto]. exact (Hnext _ _ E).
  - apply good_with_suint. intros u _.
    destruct (Z.eqb_spec to (-1)); [contradiction|]. rewrite andb_false_r.
    destruct (source.Prev sourceDrv u) as [prev|e] eqn:E; [|apply good_fail].
    apply good_with_suint. intros u' _.
    apply good_emit; [|simpl; auto]. exact (Hprev _ _ E).
Qed.

Lemma read_above_nil from to :
  to <> -1 ->
  sends not_to_nil (read suint_neg sourceDrv from to) /\
  heads_for loops_above_nil (read suint_neg sourceDrv from to).
Proof.
  destruct fits as [Hfirst _]. intros Hto. unfold read.
  apply good_check_exists. intros _. apply good_check_exists. intros _.
  destruct (from =? to); [apply good_fail|].
  destruct (from <? to); [|simpl; auto].
  destruct (from =? -1); [|simpl; auto].
  destruct (source.First sourceDrv) as [first|e] eqn:E; [|apply good_fail].
  apply good_emit; [|simpl; auto]. exact (Hfirst _ eq_refl).
Qed.
End NeverNil.

(** *** A source that keeps the order of its versions *)

Section InOrder.
Hypothesis ordered : follows_order sourceDrv.

Lemma loop_body_in_order to lp from count :
  loops_in_order sourceDrv to lp from count ->
  loop_cond lp from count = true ->
  sends not_to_nil (loop_body suint_neg sourceDrv lp from count) /\
  heads_for (loops_in_order sourceDrv to) (loop_body suint_neg sourceDrv lp from count).
Proof.
  destruct ordered as [_ [Hnext Hprev]].
  destruct lp as [t | t | limit | limit]; simpl; intros HL Hc; try contradiction.
  - destruct HL as (-> & Hfrom & Hmax & Hpresent).
    apply Z.ltb_lt in Hc.
    apply good_with_suint. intros u Hu.
    rewrite suint_nonneg in Hu by exact Hfrom. injection Hu as <-.
    destruct (source.Next sourceDrv from) as [next|e] eqn:E; [|apply good_fail].
    pose proof (Hnext from next to E Hc Hpresent) as Hb.
    rewrite int_of_uint_id by lia.
    apply good_emit; [lia | ]. simpl. repeat split; auto; lia.
  - destruct HL as (-> & Hto & Hmax).
    apply andb_true_iff in Hc as [_ Hfrom]. apply Z.leb_le in Hfrom.
    apply good_with_suint. intros u Hu.
    rewrite suint_nonneg in Hu by exact Hfrom. injection Hu as <-.
    destruct (Z.eqb_spec to (-1)); [contradiction|]. rewrite andb_false_r.
    destruct (source.Prev sourceDrv from) as [prev|e] eqn:E; [|apply good_fail].
    pose proof (Hprev from prev E) as Hb.
    apply good_with_suint. intros u' _.
    rewrite int_of_uint_id by lia.
    apply good_emit; [lia | ]. simpl. repeat split; auto; lia.
Qed.

Lemma read_in_order from to :
  -1 <= from <= MaxInt ->
  to <> -1 -> to <= MaxInt ->
  sends not_to_nil (read suint_neg sourceDrv from to) /\
  heads_for (loops_in_order sourceDrv to) (read suint_neg sourceDrv from to).
Proof.
  destruct ordered as [Hfirst _]. intros Hfrom Hto Hmax. unfold read.
  apply good_check_exists. intros _. apply good_check_exists. intros Hpresent.
  destruct (Z.eqb_spec from to) as [Heq | Hne]; [apply good_fail|].
  destruct (Z.ltb_spec from to) as [Hlt | Hge].
  - assert (Hp : 0 <= to /\ versionExists sourceDrv to = None).
    { destruct Hpresent as [Hneg | (u & Hu & Hv)]; [lia | ].
      rewrite suint_nonneg in Hu by lia. injection Hu as <-. split; [lia | exact Hv]. }
    destruct Hp as [Hto0 Hp].
    destruct (Z.eqb_spec from (-1)) as [Hnil | Hnil].
    + destruct (source.First sourceDrv) as [first|e] eqn:E; [|apply good_fail].
      pose proof (Hfirst first to eq_refl Hto0 Hp) as Hb.
      rewrite int_of_uint_id by lia.
      apply good_emit; [lia | ]. simpl. repeat split; auto; lia.
    + simpl. repeat split; auto; lia.
  - simpl. repeat split; auto; lia.
Qed.
End InOrder.
End AboveNil.

Section MigrateAboveNil.
Variable suint_neg : Z -> option Z.
Variable sourceDrv : source.Driver.
Variable D : Type.
Variable drv : database.Driver D.

Local Abbreviation rec := (recorder drv).

End MigrateAboveNil.

Lemma index_never_nil ix : index.well_formed ix -> never_nil (index.driver ix).
Proof.
  intros Hwf.
  assert (R : forall v, In v (index.versions ix) -> int_of_uint v <> -1).
  { intros v Hv. apply fits_int_of_uint. apply (version_range ix Hwf v Hv). }
  split; [|split]; simpl.
  - intros v H. unfold index.First in H.
    destruct (index.versions ix) as [|w l] eqn:E; [discriminate|].
    injection H as <-. apply R. rewrite ?E. now left.
  - intros u v H. apply R. unfold index.Next in H.
    destruct (find _ _) as [w|] eqn:E; [|discriminate].
    injection H as <-. now apply find_some in E.
  - intros u v H. apply R. unfold index.Prev in H.
    destruct (find _ _) as [w|] eqn:E; [|discriminate].
    injection H as <-. apply find_some in E. apply in_rev. apply E.
Qed.

Lemma lookup_unknown ix v : ~ In v (index.versions ix) -> index.lookup ix v = None.
Proof.
  intros H. unfold index.lookup.
  destruct (find (fun e => fst e =? v) ix) as [e | ] eqn:E; [ | reflexivity].
  exfalso. apply find_some in E as [Hin He]. apply H.
  apply Z.eqb_eq in He. subst v. unfold index.versions. apply in_map. exact Hin.
Qed.

Lemma index_present ix v :
  versionExists (index.driver ix) v = None -> In v (index.versions ix).
Proof.
  intros H. destruct (in_dec Z.eq_dec v (index.versions ix)) as [Hin | Hnot]; [exact Hin | ].
  exfalso. unfold versionExists in H. simpl in H. unfold index.ReadUp, index.ReadDown in H.
  rewrite (lookup_unknown ix v Hnot) in H. discriminate H.
Qed.

Lemma find_least (u w : Z) : forall l v,
  index.increasing l -> In w l -> u < w ->
  find (fun x => u <? x) l = Some v -> u < v <= w.
Proof.
  induction l as [ | a l IH]; intros v Hinc Hin Hw Hf; [contradiction | ].
  simpl in Hf. destruct (Z.ltb_spec u a) as [Ha | Ha].
  - injection Hf as <-. split; [exact Ha | ].
    destruct Hin as [-> | Hin]; [lia | ].
    pose proof (increasing_above _ _ Hinc) as Hab. rewrite Forall_forall in Hab.
    specialize (Hab w Hin). lia.
  - destruct Hin as [-> | Hin]; [lia | ].
    apply IH; try assumption. exact (increasing_tail _ _ Hinc).
Qed.

(** An index in increasing order keeps the order of its versions, whatever
    [uint] they are. *)
Lemma index_follows_order ix :
  index.increasing (index.versions ix) ->
  Forall (fun v => 0 <= v) (index.versions ix) ->
  follows_order (index.driver ix).
Proof.
  intros Hinc Hpos. rewrite Forall_forall in Hpos.
  split; [ | split]; simpl.
  - intros v w H Hw Hp. apply index_present in Hp. unfold index.First in H.
    destruct (index.versions ix) as [ | a l] eqn:E; [discriminate | ].
    injection H as <-. split; [apply Hpos; now left | ].
    destruct Hp as [-> | Hin]; [lia | ].
    pose proof (increasing_above _ _ Hinc) as Hab. rewrite Forall_forall in Hab.
    specialize (Hab w Hin). lia.
  - intros u v w H Hw Hp. apply index_present in Hp. unfold index.Next in H.
    destruct (find _ _) as [x | ] eqn:E; [ | discriminate].
    injection H as <-. exact (find_least u w _ _ Hinc Hp Hw E).
  - intros u v H. unfold index.Prev in H.
    destruct (find _ _) as [x | ] eqn:E; [ | discriminate].
    injection H as <-. apply find_some in E as [Hin Hlt].
    apply Z.ltb_lt in Hlt. split; [ | exact Hlt]. apply Hpos. apply in_rev. exact Hin.
Qed.



(** ** Cancellation *)

Section Cancel.
Variable suint_neg : Z -> option Z.
Variable sourceDrv : source.Driver.
Variable D : Type.
Variable drv : database.Driver D.

Local Abbreviation step1 := (step suint_neg sourceDrv drv).
Local Abbreviation run := (exec suint_neg sourceDrv drv).
Local Abbreviation after_latch := (after_latch drv).

Lemma signal_isGracefulStop (m : Engine D) : isGracefulStop (signal m) = isGracefulStop m.
Proof. unfold signal. now destruct (_ <? _)%nat. Qed.

Lemma signal_databaseDrv (m : Engine D) : databaseDrv (signal m) = databaseDrv m.
Proof. unfold signal. now destruct (_ <? _)%nat. Qed.

Lemma dispatch_latched (m : Engine D) r :
  isGracefulStop m = true -> dispatch m r = (m, RDone None).
Proof. intros H. unfold dispatch. now rewrite (stop_receive_latched m H). Qed.

Lemma step_after_latch d1 rn1 t (c : config D) :
  after_latch d1 rn1 c -> after_latch d1 rn1 (step1 t c).
Proof.
  intros Hc. pose proof Hc as [Hs Hr]. unfold step.
  destruct (is_done (rn c) || is_panic (pl c)); [exact Hc|].
  destruct t.
  - (* the planner: the driver and the runner stay, the flag stays *)
    assert (G : forall c', databaseDrv (eng c') = databaseDrv (eng c) -> rn c' = rn c ->
                           isGracefulStop (eng c') = true -> after_latch d1 rn1 c').
    { intros c' Ed En Es. split; [exact Es|]. now rewrite Ed, En. }
    unfold planner_step. destruct (pl c); try exact Hc.
    + destruct (loop_cond l from count).
      * rewrite (stop_receive_latched _ Hs). now apply G.
      * now apply G.
    + destruct (_ <? _); [now apply G | exact Hc].
    + now apply G.
  - (* the runner *)
    unfold runner_step. destruct (rn c) as [ | migr | | err | ] eqn:Er; try exact Hc.
    + assert (G : forall r q k,
                 after_latch d1 rn1
                   (let (m, rn') := dispatch (eng c) r in
                    {| eng := m; pl := k; ret := q; rn := rn' |})).
      { intros r q k. rewrite (dispatch_latched _ r Hs).
        split; [exact Hs|]. simpl.
        destruct rn1 as [ | migr1 | | err1 | ].
        - destruct Hr as [Hd _]. auto.
        - destruct Hr as [[Hn _] | [Hd Hn]]; [discriminate|]. right. split; [exact Hd|].
          destruct (snd (run_migration drv migr1 d1)); [discriminate | auto].
        - destruct Hr as [_ [Hn | Hn]]; discriminate.
        - destruct Hr as [_ Hn]. discriminate.
        - destruct Hr as [_ Hn]. discriminate. }
      destruct (ret c) as [|r q].
      * destruct (pl c) as [lp from count | v k | | |] eqn:Ep; try exact Hc.
        -- apply G.
        -- split; [exact Hs|]. simpl.
           destruct rn1 as [ | migr1 | | err1 | ].
           ++ destruct Hr as [Hd _]. auto.
           ++ destruct Hr as [[Hn _] | [Hd Hn]]; [discriminate|]. right. split; [exact Hd|].
              destruct (snd (run_migration drv migr1 d1)); [discriminate | auto].
           ++ destruct Hr as [_ [Hn | Hn]]; discriminate.
           ++ destruct Hr as [_ Hn]. discriminate.
           ++ destruct Hr as [_ Hn]. discriminate.
      * apply G.
    + destruct rn1 as [ | migr1 | | err1 | ].
      * destruct Hr as [_ [Hn | Hn]]; discriminate.
      * destruct Hr as [[Hn Hd] | [_ Hn]].
        -- injection Hn as <-. rewrite Hd.
           split; [|right].
           ++ destruct (run_migration drv migr d1) as [d err]. exact Hs.
           ++ destruct (run_migration drv migr d1) as [d [e|]]; simpl; auto.
        -- destruct (snd (run_migration drv migr1 d1)); [discriminate|].
           destruct Hn; discriminate.
      * destruct Hr as [_ [Hn | Hn]]; discriminate.
      * destruct Hr as [_ Hn]. discriminate.
      * destruct Hr as [_ Hn]. discriminate.
    + destruct rn1 as [ | migr1 | | err1 | ].
      * destruct Hr as [_ [Hn | Hn]]; discriminate.
      * destruct Hr as [[Hn _] | [_ Hn]]; [discriminate|].
        destruct (snd (run_migration drv migr1 d1)); [discriminate|].
        destruct Hn; discriminate.
      * destruct Hr as [Hd _]. split; [reflexivity|]. simpl. auto.
      * destruct Hr as [_ Hn]. discriminate.
      * destruct Hr as [_ Hn]. discriminate.
  - (* one more signal *)
    split; [simpl; rewrite signal_isGracefulStop; exact Hs|]. simpl.
    now rewrite signal_databaseDrv.
Qed.

Lemma exec_after_latch d1 rn1 sched (c : config D) :
  after_latch d1 rn1 c -> after_latch d1 rn1 (run sched c).
Proof.
  apply exec_invariant. intros t c0. apply step_after_latch.
Qed.

(** Every configuration with the flag written is where such a run starts. *)
Lemma latched_now (c : config D) :
  isGracefulStop (eng c) = true ->
  after_latch (databaseDrv (eng c)) (rn c) c.
Proof. intros H. split; [exact H|]. destruct (rn c); auto. Qed.
End Cancel.

(** C6. The stop is not observed as one step. With the planner three
    records ahead of the runner, the signal is delivered after one [Run] call
    (the runner is back at its receive); the planner's [stop] takes the signal
    from [GracefulStop] and has not yet written the flag when the runner's
    [stop] finds the flag unset and the channel empty, twice: the runner calls
    [Run] for both records that were in [ret], three calls in all where the
    bound is two, before the planner writes the flag and [Up] returns [nil]. *)
Theorem graceful_stop_is_not_atomic :
  let src := index.driver scenario_index in
  let drv := recorder stub.driver in
  let c1 := exec suint_panics src drv planner_three_ahead
                 (start (readUp suint_panics src (-1) (-1)) fresh_locked) in
  let c2 := step suint_panics src drv TSignal c1 in
  let c3 := step suint_panics src drv TPlanner c2 in
  let c4 := exec suint_panics src drv [TRunner; TRunner; TRunner; TRunner] c3 in
  (run_targets (snd (databaseDrv (eng c1))) = [1] /\ rn c1 = RWait /\
   List.length (ret c1) = 2%nat) /\
  GracefulStop (eng c2) = [true] /\
  (pl c3 = Latch /\ GracefulStop (eng c3) = [] /\ isGracefulStop (eng c3) = false /\
   snd (stop_receive (eng c3)) = Running) /\
  (run_targets (snd (databaseDrv (eng c4))) = [1; 3; 4] /\ rn c4 = RWait /\
   isGracefulStop (eng c4) = false) /\
  exists m',
    Up suint_panics src drv
       (planner_three_ahead
        ++ [TSignal; TPlanner; TRunner; TRunner; TRunner; TRunner; TPlanner; TRunner])
       (fresh 10)
    = Some (m', None) /\
    run_targets (snd (databaseDrv m')) = [1; 3; 4] /\
    stub.CurrentVersion (fst (databaseDrv m')) = 4 /\
    isGracefulStop m' = true.
Proof.
  cbv zeta. repeat split; try reflexivity.
  eexists. split; [vm_compute; reflexivity | ]. repeat split.
Qed.

(** A stop hides no error of a call that was under way. With a driver whose
    [Run] fails for target 3, the signal is delivered after one successful
    [Run] call, while the runner is inside the second: two [Run] calls are
    made in all, and [Up] returns the error of the second. With a driver whose
    [Unlock] fails, the signal is delivered after one successful [Run] call,
    the runner returns [nil] without a further [Run], and [Up] returns the
    multi-error of the failed unlock. *)
Lemma graceful_stop_returns_errors :
  (let drv := recorder (failing_run 3) in
   let src := index.driver scenario_index in
   let c1 := exec suint_panics src drv into_second_run
                  (start (readUp suint_panics src (-1) (-1)) fresh_locked) in
   let c2 := exec suint_panics src drv [TRunner] (step suint_panics src drv TSignal c1) in
   run_targets (snd (databaseDrv (eng c1))) = [1] /\
   is_done (rn c1) = false /\
   GracefulStop (eng (step suint_panics src drv TSignal c1)) = [true] /\
   run_targets (snd (databaseDrv (eng c2))) = [1; 3] /\
   rn c2 = RDone (Some run_error) /\
   exists m',
     Up suint_panics src drv (into_second_run ++ [TSignal; TRunner]) (fresh 10)
     = Some (m', Some run_error)) /\
  (let drv := recorder (failing_unlock 3) in
   let src := index.driver scenario_index in
   let c1 := exec suint_panics src drv after_first_run
                  (start (readUp suint_panics src (-1) (-1)) fresh_locked) in
   let c2 := exec suint_panics src drv (alternate 3) (step suint_panics src drv TSignal c1) in
   run_targets (snd (databaseDrv (eng c1))) = [1] /\
   is_done (rn c1) = false /\
   GracefulStop (eng (step suint_panics src drv TSignal c1)) = [true] /\
   run_targets (snd (databaseDrv (eng c2))) = [1] /\
   rn c2 = RDone None /\
   exists m',
     Up suint_panics src drv (after_first_run ++ TSignal :: alternate 3) (fresh 10)
     = Some (m', Some (MultiError [unlock_error]))).
Proof.
  split; repeat split; try reflexivity; eexists; vm_compute; reflexivity.
Qed.

(** * Further properties of the engine *)

(** ** An engine that holds the lock *)

Section Refusal.
Variable suint_neg : Z -> option Z.
Variable sourceDrv : source.Driver.
Variable D : Type.
Variable drv : database.Driver D.

Lemma lock_held (m : Engine D) : isLocked m = true -> lock drv m = (m, Some ErrLocked).
Proof. intros H. unfold lock. rewrite H. reflexivity. Qed.

Lemma perform_locked op sched (m : Engine D) :
  mutating op -> isLocked m = true ->
  perform suint_neg sourceDrv drv op sched m = Some (m, Some ErrLocked).
Proof.
  intros Hop H.
  destruct op; simpl in *;
    unfold Migrate, Steps, Up, Down, Drop, locked_run;
    rewrite ?lock_held by assumption; try reflexivity.
  destruct (Z.eqb_spec n 0) as [E | _]; [contradiction | reflexivity].
Qed.

Lemma unlock_isLocked (m : Engine D) :
  isLocked (fst (unlock drv m))
  = match snd (database.Unlock drv (databaseDrv m)) with
    | None => false
    | Some _ => isLocked m
    end.
Proof.
  unfold unlock. destruct (database.Unlock drv (databaseDrv m)) as [d [e | ]]; reflexivity.
Qed.

Lemma unlockErr_isLocked prevErr (m : Engine D) :
  isLocked (fst (unlockErr drv prevErr m))
  = match snd (database.Unlock drv (databaseDrv m)) with
    | None => false
    | Some _ => isLocked m
    end.
Proof.
  unfold unlockErr, unlock.
  destruct (database.Unlock drv (databaseDrv m)) as [d [e | ]]; reflexivity.
Qed.

Lemma perform_isLocked op sched (m m1 m2 m' : Engine D) e r :
  mutating op ->
  lock drv m = (m1, None) ->
  primary suint_neg sourceDrv drv op sched m1 = Some (m2, e) ->
  perform suint_neg sourceDrv drv op sched m = Some (m', r) ->
  isLocked m'
  = match snd (database.Unlock drv (databaseDrv m2)) with
    | None => false
    | Some _ => true
    end.
Proof.
  intros Hop Hl Hp Hperf.
  assert (L2 : isLocked m2 = true).
  { rewrite (primary_isLocked _ _ _ _ _ _ _ _ _ Hp).
    apply (lock_isLocked _ _ _ _ Hl). }
  assert (Hm' : m' = fst (unlockErr drv e m2) \/ m' = fst (unlock drv m2)).
  { assert (C : planning op \/ op = OpDrop).
    { destruct op; simpl in *; auto. }
    destruct C as [Hpl | ->].
    - rewrite (perform_planning suint_neg sourceDrv _ drv op sched m m1 Hpl Hl), Hp in Hperf.
      left. injection Hperf as E. rewrite E. reflexivity.
    - rewrite (perform_drop suint_neg sourceDrv _ drv sched m m1 Hl), Hp in Hperf.
      destruct e as [e | ]; injection Hperf as E; rewrite E; [left | right]; reflexivity. }
  destruct Hm' as [-> | ->]; rewrite ?unlockErr_isLocked, ?unlock_isLocked, L2;
    destruct (snd (database.Unlock drv (databaseDrv m2))); reflexivity.
Qed.

(** X1. While the engine holds its lock flag, every mutating operation
    returns [ErrLocked] and leaves the engine and the driver as they are. An
    operation that took the lock clears the flag exactly when the driver's
    [Unlock] succeeds: after a failed [Unlock] every later mutating operation
    on the engine returns [ErrLocked]. *)
Theorem failed_unlock_wedges_engine :
  (forall (op : operation) (sched : list tick) (m : Engine D),
      mutating op -> isLocked m = true ->
      perform suint_neg sourceDrv drv op sched m = Some (m, Some ErrLocked)) /\
  (forall (op : operation) (sched : list tick) (m m1 m2 m' : Engine D)
          (e r : option error),
      mutating op ->
      lock drv m = (m1, None) ->
      primary suint_neg sourceDrv drv op sched m1 = Some (m2, e) ->
      perform suint_neg sourceDrv drv op sched m = Some (m', r) ->
      (snd (database.Unlock drv (databaseDrv m2)) = None -> isLocked m' = false) /\
      (snd (database.Unlock drv (databaseDrv m2)) <> None ->
       forall (op' : operation) (sched' : list tick),
         mutating op' ->
         perform suint_neg sourceDrv drv op' sched' m' = Some (m', Some ErrLocked))).
Proof.
  split.
  - apply perform_locked.
  - intros op sched m m1 m2 m' e r Hop Hl Hp Hperf.
    pose proof (perform_isLocked _ _ _ _ _ _ _ _ Hop Hl Hp Hperf) as L.
    split.
    + intros U. rewrite U in L. exact L.
    + intros U op' sched' Hop'. apply perform_locked; [exact Hop' | ].
      rewrite L. destruct (snd (database.Unlock drv (databaseDrv m2))); congruence.
Qed.
End Refusal.

Lemma failed_unlock_wedges_engine_witness :
  exists m' : Engine stub.Stub,
    isLocked m' = true /\
    perform suint_panics (index.driver scenario_index) (failing_unlock 3)
            OpUp (alternate 30) (newCommon stub.Open)
    = Some (m', Some (NewMultiError (Some run_error) (Some unlock_error))) /\
    perform suint_panics (index.driver scenario_index) (failing_unlock 3)
            OpDown (alternate 30) m' = Some (m', Some ErrLocked).
Proof.
  eexists. split; [ | split].
  2: vm_compute; reflexivity.
  - reflexivity.
  - apply (proj1 (failed_unlock_wedges_engine suint_panics (index.driver scenario_index)
                    stub.Stub (failing_unlock 3))); [exact I | reflexivity].
Defined.

(** ** An engine that was told to stop *)

Section Stopped.
Variable suint_neg : Z -> option Z.
Variable sourceDrv : source.Driver.
Variable D : Type.
Variable drv : database.Driver D.

Lemma start_after_latch p (m : Engine D) :
  isGracefulStop m = true -> after_latch drv (databaseDrv m) RWait (start p m).
Proof. intros H. split; [exact H | split; [reflexivity | left; reflexivity]]. Qed.

Lemma runMigrations_stopped p sched (m m' : Engine D) r :
  isGracefulStop m = true ->
  runMigrations suint_neg sourceDrv drv p sched m = Some (m', r) ->
  r = None /\ databaseDrv m' = databaseDrv m /\ isGracefulStop m' = true.
Proof.
  intros H R. unfold runMigrations in R.
  pose proof (exec_after_latch suint_neg sourceDrv _ drv _ _ sched _
                (start_after_latch p m H)) as [S [Hd Hr]].
  destruct (rn (exec suint_neg sourceDrv drv sched (start p m))) eqn:E; try discriminate.
  injection R as <- <-.
  destruct Hr as [Hr | Hr]; [discriminate | ].
  injection Hr as ->. auto.
Qed.

Lemma runMigrations_stopped_returns p (m : Engine D) :
  isGracefulStop m = true -> is_panic p = false ->
  exists m', runMigrations suint_neg sourceDrv drv p [TRunner; TPlanner; TRunner] m
             = Some (m', None).
Proof.
  intros H Hp.
  destruct p as [lp from count | v k | | | ]; try discriminate.
  - unfold runMigrations, exec, step, start, planner_step, runner_step; simpl.
    destruct (loop_cond lp from count); simpl.
    + rewrite (stop_receive_latched m H). simpl. eexists. reflexivity.
    + eexists. reflexivity.
  - unfold runMigrations, exec, step, start, planner_step, runner_step; simpl.
    rewrite (dispatch_latched _ m v H). simpl. eexists. reflexivity.
  - unfold runMigrations, exec, step, start, planner_step, runner_step; simpl.
    eexists. reflexivity.
  - unfold runMigrations, exec, step, start, planner_step, runner_step; simpl.
    eexists. reflexivity.
Qed.

Lemma latched_run_waits sched (c : config D) :
  isGracefulStop (eng c) = true -> rn c = RWait ->
  let c' := exec suint_neg sourceDrv drv sched c in
  databaseDrv (eng c') = databaseDrv (eng c) /\
  (rn c' = RWait \/ rn c' = RDone None) /\
  isGracefulStop (eng c') = true.
Proof.
  intros H Hr. cbv zeta.
  pose proof (exec_after_latch suint_neg sourceDrv _ drv _ _ sched c
                (latched_now _ drv c H)) as [S A].
  rewrite Hr in A. destruct A as [Hd Hn]. auto.
Qed.

End Stopped.

Section StoppedOperations.
Variable suint_neg : Z -> option Z.
Variable sourceDrv : source.Driver.
Variable D : Type.
Variable drv : database.Driver D.

Local Abbreviation rec := (recorder drv).
Local Abbreviation runs m := (count_calls is_run (snd (databaseDrv m))).

Lemma lock_runs (m : Engine (D * list call)) :
  runs (fst (lock rec m)) = runs m /\
  isGracefulStop (fst (lock rec m)) = isGracefulStop m.
Proof.
  unfold lock. destruct (isLocked m); simpl; [auto | ].
  destruct (database.Lock drv (fst (databaseDrv m))) as [d [e | ]]; simpl;
    rewrite count_calls_app, Nat.add_0_r; auto.
Qed.

Lemma unlock_runs (m : Engine (D * list call)) :
  runs (fst (unlock rec m)) = runs m /\
  isGracefulStop (fst (unlock rec m)) = isGracefulStop m.
Proof.
  unfold unlock. simpl.
  destruct (database.Unlock drv (fst (databaseDrv m))) as [d [e | ]]; simpl;
    rewrite count_calls_app, Nat.add_0_r; auto.
Qed.

Lemma unlockErr_runs prevErr (m : Engine (D * list call)) :
  runs (fst (unlockErr rec prevErr m)) = runs m /\
  isGracefulStop (fst (unlockErr rec prevErr m)) = isGracefulStop m.
Proof.
  unfold unlockErr. pose proof (unlock_runs m) as H.
  destruct (unlock rec m) as [m1 [e | ]]; exact H.
Qed.

Lemma locked_run_stopped planner sched (m m' : Engine (D * list call)) r :
  isGracefulStop m = true ->
  locked_run suint_neg sourceDrv rec planner sched m = Some (m', r) ->
  runs m' = runs m /\ isGracefulStop m' = true.
Proof.
  intros H R. unfold locked_run in R.
  pose proof (lock_runs m) as [L1 L2].
  destruct (lock rec m) as [m1 [e | ]]; simpl in L1, L2.
  - injection R as <- <-. rewrite L1, L2. auto.
  - simpl in R.
    destruct (database.Version drv (fst (databaseDrv m1))) as [d [cur | e]].
    + destruct (runMigrations suint_neg sourceDrv rec (planner cur) sched
                  (set_databaseDrv (d, snd (databaseDrv m1) ++ [CVersion]) m1))
        as [[m2 e] | ] eqn:E; [ | discriminate].
      apply runMigrations_stopped in E;
        [ | simpl; rewrite L2; exact H].
      destruct E as [-> [Ed Es]].
      injection R as R. pose proof (unlockErr_runs None m2) as [U1 U2].
      rewrite R in U1, U2. simpl in U1, U2.
      rewrite U1, U2, Ed. simpl. rewrite count_calls_app, Nat.add_0_r. auto.
    + injection R as R.
      pose proof (unlockErr_runs (Some e)
                    (set_databaseDrv (d, snd (databaseDrv m1) ++ [CVersion]) m1)) as [U1 U2].
      rewrite R in U1, U2. simpl in U1, U2.
      rewrite U1, U2, L2. simpl.
      rewrite count_calls_app, Nat.add_0_r. auto.
Qed.

Lemma Drop_stopped (m : Engine (D * list call)) :
  runs (fst (Drop rec m)) = runs m /\
  isGracefulStop (fst (Drop rec m)) = isGracefulStop m.
Proof.
  unfold Drop.
  pose proof (lock_runs m) as [L1 L2].
  destruct (lock rec m) as [m1 [e | ]]; simpl in L1, L2; [auto | ].
  simpl. destruct (database.Drop drv (fst (databaseDrv m1))) as [d [e | ]]; simpl.
  - pose proof (unlockErr_runs (Some e)
                  (set_databaseDrv (d, snd (databaseDrv m1) ++ [CDrop]) m1)) as [U1 U2].
    rewrite U1, U2. simpl.
    rewrite count_calls_app, Nat.add_0_r. auto.
  - pose proof (unlock_runs
                  (set_databaseDrv (d, snd (databaseDrv m1) ++ [CDrop]) m1)) as [U1 U2].
    rewrite U1, U2. simpl.
    rewrite count_calls_app, Nat.add_0_r. auto.
Qed.

Lemma latched_run_completes sched (c : config (D * list call)) migr :
  isGracefulStop (eng c) = true -> rn c = RRun migr ->
  let c' := exec suint_neg sourceDrv rec sched c in
  isGracefulStop (eng c') = true /\
  ((rn c' = RRun migr /\ databaseDrv (eng c') = databaseDrv (eng c)) \/
   (snd (databaseDrv (eng c')) = snd (databaseDrv (eng c)) ++ [run_call migr] /\
    (rn c' = RWait \/
     rn c' = RDone (snd (run_migration rec migr (databaseDrv (eng c))))))).
Proof.
  intros H Hr. cbv zeta.
  pose proof (exec_after_latch suint_neg sourceDrv _ rec _ _ sched c
                (latched_now _ rec c H)) as [S A].
  rewrite Hr in A. split; [exact S | ].
  destruct A as [[Hn Hd] | [Hd Hn]]; [left; auto | right].
  split.
  - rewrite Hd. apply run_migration_log.
  - destruct (snd (run_migration rec migr (databaseDrv (eng c)))); [auto | ].
    destruct Hn; auto.
Qed.

(** X2. The stop flag is never cleared. On an engine whose flag
    [isGracefulStop] is written, [runMigrations] can only return [nil] with
    the driver as it was, and it does return, whatever the planner would have
    sent; from every configuration with the flag written, under every
    schedule: with the runner at its receive, the driver stays as it is and
    the runner stays at its receive or returns [nil]; with the runner inside a
    [Run] call, this one call completes and no other is made, and the runner
    goes back to its receive or returns what the call returned. Every
    operation, under every schedule, makes no [Run] call and leaves the flag
    written. A signal that is pending in [GracefulStop] and not yet taken is
    not covered: see [pending_signal_runs_one]. *)
Theorem stopped_engine_runs_nothing :
  (forall (p : plan) (sched : list tick) (m m' : Engine (D * list call)) (r : option error),
      isGracefulStop m = true ->
      runMigrations suint_neg sourceDrv rec p sched m = Some (m', r) ->
      r = None /\ databaseDrv m' = databaseDrv m) /\
  (forall (p : plan) (m : Engine (D * list call)),
      isGracefulStop m = true ->
      is_panic p = false ->
      exists m', runMigrations suint_neg sourceDrv rec p [TRunner; TPlanner; TRunner] m
                 = Some (m', None)) /\
  (forall (sched : list tick) (c : config (D * list call)),
      isGracefulStop (eng c) = true -> rn c = RWait ->
      let c' := exec suint_neg sourceDrv rec sched c in
      databaseDrv (eng c') = databaseDrv (eng c) /\
      (rn c' = RWait \/ rn c' = RDone None) /\
      isGracefulStop (eng c') = true) /\
  (forall (sched : list tick) (c : config (D * list call)) (migr : Migration),
      isGracefulStop (eng c) = true -> rn c = RRun migr ->
      let c' := exec suint_neg sourceDrv rec sched c in
      isGracefulStop (eng c') = true /\
      ((rn c' = RRun migr /\ databaseDrv (eng c') = databaseDrv (eng c)) \/
       (snd (databaseDrv (eng c')) = snd (databaseDrv (eng c)) ++ [run_call migr] /\
        (rn c' = RWait \/
         rn c' = RDone (snd (run_migration rec migr (databaseDrv (eng c)))))))) /\
  (forall (op : operation) (sched : list tick) (m m' : Engine (D * list call))
          (r : option error),
      isGracefulStop m = true ->
      perform suint_neg sourceDrv rec op sched m = Some (m', r) ->
      count_calls is_run (snd (databaseDrv m')) = count_calls is_run (snd (databaseDrv m)) /\
      isGracefulStop m' = true).
Proof.
  split; [ | split; [ | split; [ | split]]].
  - intros p sched m m' r H R.
    destruct (runMigrations_stopped _ _ _ _ _ _ _ _ _ H R) as [Hr [Hd _]]. auto.
  - intros p m H Hp. apply runMigrations_stopped_returns; assumption.
  - intros sched c H Hr. apply latched_run_waits; assumption.
  - intros sched c migr H Hr. apply latched_run_completes; assumption.
  - intros op sched m m' r H R.
    destruct op; simpl in R.
    + apply (locked_run_stopped _ _ _ _ _ H R).
    + unfold Steps in R. destruct (n =? 0).
      * injection R as <- <-. auto.
      * apply (locked_run_stopped _ _ _ _ _ H R).
    + apply (locked_run_stopped _ _ _ _ _ H R).
    + apply (locked_run_stopped _ _ _ _ _ H R).
    + injection R as R. pose proof (Drop_stopped m) as [D1 D2].
      rewrite R in D1, D2. simpl in D1, D2. rewrite D1, D2. auto.
Qed.
End StoppedOperations.

Lemma stopped_engine_runs_nothing_witness :
  let m := stop_latch (fresh 10) in
  isGracefulStop m = true /\
  exists m',
    perform suint_panics (index.driver scenario_index) (recorder stub.driver)
            OpUp (alternate 30) m = Some (m', None) /\
    count_calls is_run (snd (databaseDrv m')) = count_calls is_run (snd (databaseDrv m)) /\
    isGracefulStop m' = true.
Proof.
  split; [reflexivity | ].
  eexists. split; [vm_compute; reflexivity | ].
  eapply (proj2 (proj2 (proj2 (proj2 (stopped_engine_runs_nothing suint_panics
                          (index.driver scenario_index) stub.Stub stub.driver))))
            OpUp (alternate 30)); [reflexivity | vm_compute; reflexivity].
Defined.

(** A signal that is pending when the operation starts does not keep the
    first [Run] call back. The planner sends its first record before its first
    [stop]; its [stop] then takes the signal, and before the flag is written
    the runner's [stop] finds the flag unset and the channel empty: the runner
    calls [Run] for the record. *)
Lemma pending_signal_runs_one :
  let src := index.driver scenario_index in
  let drv := recorder stub.driver in
  let c0 := start (read suint_panics src (-1) 7) (signal fresh_locked) in
  let c1 := exec suint_panics src drv pending_overrun c0 in
  GracefulStop (eng c0) = [true] /\
  pl (exec suint_panics src drv [TPlanner; TPlanner] c0) = Latch /\
  run_targets (snd (databaseDrv (eng c1))) = [1] /\
  exists m',
    Migrate suint_panics src drv 7 (pending_overrun ++ [TPlanner; TRunner])
            (signal (fresh 10))
    = Some (m', None) /\
    run_targets (snd (databaseDrv m')) = [1].
Proof.
  cbv zeta. repeat split; try reflexivity.
  eexists. split; vm_compute; reflexivity.
Qed.

(** ** The order of the [Run] calls *)

Section Order.
Variable suint_neg : Z -> option Z.
Variable sourceDrv : source.Driver.
Variable D : Type.
Variable drv : database.Driver D.

Local Abbreviation rec := (recorder drv).
Local Abbreviation Outputs := (Outputs suint_neg sourceDrv).
Local Abbreviation in_order := (@in_order suint_neg sourceDrv D).

Lemma records_app l1 l2 : records (l1 ++ l2) = records l1 ++ records l2.
Proof.
  induction l1 as [ | [e | migr | ] l1 IH]; simpl; rewrite ?IH; reflexivity.
Qed.

Lemma dispatch_cases {E} (m : Engine E) r :
  dispatch m r
  = (fst (stop_receive m),
     match snd (stop_receive m) with
     | Latched => RDone None
     | Taken => RLatch
     | Running => match r with
                  | VError err => RDone (Some err)
                  | VMigration migr => RRun migr
                  | VOther => RPanic
                  end
     end).
Proof. unfold dispatch. destruct (stop_receive m) as [m1 [ | | ]]; destruct r; reflexivity. Qed.

Lemma Outputs_remaining p rest :
  Outputs p rest -> remaining suint_neg sourceDrv p rest.
Proof. intros H. destruct p; [exact H | exact H | exact I | exact H | exact H]. Qed.

Lemma Outputs_At_inv lp from count rest :
  Outputs (At lp from count) rest ->
  (loop_cond lp from count = false /\ rest = []) \/
  (loop_cond lp from count = true /\
   Outputs (loop_body suint_neg sourceDrv lp from count) rest).
Proof. intros H. inversion H; subst; auto. Qed.

Lemma Outputs_Send_inv v k rest :
  Outputs (Send v k) rest -> exists rest', rest = v :: rest' /\ Outputs k rest'.
Proof. intros H. inversion H; subst; eauto. Qed.

Lemma step_in_order l log0 t (c : config (D * list call)) :
  in_order l log0 c -> in_order l log0 (step suint_neg sourceDrv rec t c).
Proof.
  intros (pre & rest & suffix & Hlog & Hout & Hl).
  unfold step. destruct (is_done (rn c) || is_panic (pl c)) eqn:Efrozen.
  { exists pre, rest, suffix. auto. }
  apply orb_false_iff in Efrozen as [Hdone Hpanic].
  unfold remaining in Hout.
  destruct t.
  - (* the planner *)
    unfold planner_step. destruct (pl c) as [lp from count | v k | | | ] eqn:Epl.
    + apply Outputs_At_inv in Hout as [[Hc ->] | [Hc Hout]]; rewrite Hc.
      * exists pre, [], suffix. simpl. repeat split; [exact Hlog | constructor | exact Hl].
      * pose proof (stop_receive_databaseDrv (eng c)) as Hd.
        destruct (stop_receive (eng c)) as [m1 [ | | ]]; simpl in Hd.
        -- exists pre, [], (rest ++ suffix). simpl. rewrite Hd.
           repeat split; [exact Hlog | constructor | ].
           destruct (rn c); exact Hl.
        -- exists pre, [], (rest ++ suffix). simpl. rewrite Hd.
           repeat split; [exact Hlog | ].
           destruct (rn c); exact Hl.
        -- exists pre, rest, suffix. simpl. rewrite Hd.
           repeat split; [exact Hlog | exact (Outputs_remaining _ _ Hout) | exact Hl].
    + apply Outputs_Send_inv in Hout as (rest' & -> & Hout).
      destruct (Z.of_nat (List.length (ret c)) <? PrefetchMigrations (eng c)).
      * exists pre, rest', suffix. simpl.
        repeat split; [exact Hlog | exact (Outputs_remaining _ _ Hout) | ].
        destruct (rn c); rewrite <- ?app_assoc; simpl; exact Hl.
      * exists pre, (v :: rest'), suffix. rewrite Epl.
        repeat split; [exact Hlog | constructor; exact Hout | exact Hl].
    + exists pre, [], (rest ++ suffix). simpl.
      repeat split; [exact Hlog | constructor | ].
      destruct (rn c); exact Hl.
    + exists pre, rest, suffix. rewrite Epl. auto.
    + discriminate.
  - (* the runner *)
    unfold runner_step. destruct (rn c) as [ | migr | | err | ] eqn:Ern.
    + destruct (ret c) as [ | r q] eqn:Eret.
      * destruct (pl c) as [lp from count | v k | | | ] eqn:Epl.
        -- exists pre, rest, suffix. rewrite Ern, Eret, Epl. auto.
        -- apply Outputs_Send_inv in Hout as (rest' & -> & Hout).
           rewrite dispatch_cases. simpl.
           exists pre, rest', suffix. simpl. rewrite stop_receive_databaseDrv.
           repeat split; [exact Hlog | exact (Outputs_remaining _ _ Hout) | ].
           destruct (snd (stop_receive (eng c))); [eauto | eauto | ].
           destruct v; simpl in *; eauto.
        -- exists pre, rest, suffix. rewrite Ern, Eret, Epl. auto.
        -- exists pre, rest, suffix. simpl. repeat split; [exact Hlog | exact Hout | eauto].
        -- discriminate.
      * rewrite dispatch_cases. simpl.
        exists pre, rest, suffix. simpl. rewrite stop_receive_databaseDrv.
        repeat split; [exact Hlog | exact Hout | ].
        destruct (snd (stop_receive (eng c))); [eauto | eauto | ].
        destruct r; simpl in *; eauto.
    + pose proof (run_migration_log _ drv migr (databaseDrv (eng c))) as Hrun.
      destruct (run_migration rec migr (databaseDrv (eng c))) as [d err]. simpl in Hrun.
      exists (pre ++ [VMigration migr]), rest, suffix. simpl.
      repeat split.
      * rewrite Hrun, Hlog, records_app, map_app, <- app_assoc. reflexivity.
      * exact Hout.
      * destruct err; [exists (ret c ++ rest ++ suffix) | ];
          rewrite <- app_assoc; simpl; exact Hl.
    + exists pre, rest, suffix. simpl. repeat split; [exact Hlog | exact Hout | exact Hl].
    + discriminate.
    + exists pre, rest, suffix. rewrite Ern. auto.
  - (* the signal *)
    exists pre, rest, suffix. simpl.
    repeat split; [ | exact Hout | exact Hl].
    rewrite <- Hlog. unfold signal.
    destruct (List.length (GracefulStop (eng c)) <? GracefulStop_cap)%nat; reflexivity.
Qed.

Lemma exec_in_order l sched p (m : Engine (D * list call)) :
  Outputs p l ->
  in_order l (snd (databaseDrv m)) (exec suint_neg sourceDrv rec sched (start p m)).
Proof.
  intros Hout.
  apply (exec_invariant suint_neg sourceDrv _ rec (in_order l (snd (databaseDrv m)))).
  - intros t c. apply step_in_order.
  - exists [], l, []. simpl. rewrite !app_nil_r.
    repeat split; [exact (Outputs_remaining _ _ Hout)].
Qed.

Lemma in_order_prefix l log0 (c : config (D * list call)) :
  in_order l log0 c ->
  exists pre suffix,
    l = pre ++ suffix /\
    snd (databaseDrv (eng c)) = log0 ++ map run_call (records pre).
Proof.
  intros (pre & rest & suffix & Hlog & _ & Hl).
  destruct (rn c);
    [ | | destruct Hl as [s Hl] | destruct Hl as [s Hl] | destruct Hl as [s Hl] ]; eauto.
Qed.

(** X3. The runner follows the planner. For a planner whose whole output is
    [l], at every moment of every run (any schedule, stop signals included,
    any driver and prefetch depth) the [Run] calls the driver has received are
    those of the records of a beginning of [l], one call per record and in the
    planner's order; so are the calls between [Version] and [Unlock] of a
    planning operation that returns. *)
Theorem runs_follow_the_plan :
  (forall (p : plan) (l : list chanval) (sched : list tick) (m : Engine (D * list call)),
      Outputs p l ->
      exists pre suffix,
        l = pre ++ suffix /\
        snd (databaseDrv (eng (exec suint_neg sourceDrv rec sched (start p m))))
        = snd (databaseDrv m) ++ map run_call (records pre)) /\
  (forall (op : operation) (sched : list tick) (m m1 m' : Engine (D * list call))
          (d : D * list call) (cur : Z) (l : list chanval) (r : option error),
      planning op ->
      lock rec m = (m1, None) ->
      database.Version rec (databaseDrv m1) = (d, Ok cur) ->
      Outputs (planner_of suint_neg sourceDrv op cur) l ->
      perform suint_neg sourceDrv rec op sched m = Some (m', r) ->
      exists pre suffix,
        l = pre ++ suffix /\
        snd (databaseDrv m') = snd d ++ map run_call (records pre) ++ [CUnlock]).
Proof.
  split.
  - intros p l sched m Hout. apply in_order_prefix. apply exec_in_order. exact Hout.
  - intros op sched m m1 m' d cur l r Hop Hl Hv Hout Hperf.
    rewrite (perform_planning suint_neg sourceDrv _ rec op sched m m1 Hop Hl) in Hperf.
    assert (Hp : primary suint_neg sourceDrv rec op sched m1
                 = runMigrations suint_neg sourceDrv rec
                                 (planner_of suint_neg sourceDrv op cur) sched
                                 (set_databaseDrv d m1)).
    { unfold primary. destruct op; try (rewrite Hv; reflexivity). destruct Hop. }
    rewrite Hp in Hperf. unfold runMigrations in Hperf.
    destruct (in_order_prefix _ _ _ (exec_in_order l sched _ (set_databaseDrv d m1) Hout))
      as (pre & suffix & Hpre & Hlog).
    destruct (rn (exec suint_neg sourceDrv rec sched
                       (start (planner_of suint_neg sourceDrv op cur)
                              (set_databaseDrv d m1)))); try discriminate.
    injection Hperf as Hperf.
    exists pre, suffix. split; [exact Hpre | ].
    pose proof (unlockErr_recorded _ drv err
                  (eng (exec suint_neg sourceDrv rec sched
                          (start (planner_of suint_neg sourceDrv op cur)
                                 (set_databaseDrv d m1))))) as Hu.
    rewrite Hperf in Hu. simpl in Hu. rewrite Hu, Hlog. simpl.
    rewrite <- app_assoc. reflexivity.
Qed.
End Order.

Lemma runs_follow_the_plan_witness :
  exists pre suffix,
    map VMigration (ups scenario_index) = pre ++ suffix /\
    snd (databaseDrv (eng (exec suint_panics (index.driver scenario_index)
                                (recorder stub.driver) into_second_run
                                (start (readUp suint_panics (index.driver scenario_index)
                                               (-1) (-1))
                                       fresh_locked))))
    = snd (databaseDrv fresh_locked) ++ map run_call (records pre).
Proof.
  apply (proj1 (runs_follow_the_plan suint_panics (index.driver scenario_index)
                  stub.Stub stub.driver)).
  apply (outputs_sound _ _ 20). vm_compute. reflexivity.
Defined.

(** ** Operations on the stub database *)

Section StubRuns.
Variable suint_neg : Z -> option Z.
Variable sourceDrv : source.Driver.

Local Abbreviation drv := (recorder stub.driver).
Local Abbreviation Outputs := (Outputs suint_neg sourceDrv).
Local Abbreviation settles := (settles suint_neg sourceDrv).

Lemma sequential_stub_closing recs err : forall s log,
  exists s',
    sequential drv (map VMigration recs ++ closing err) (s, log)
    = ((s', log ++ map run_call recs), RDone err) /\
    stub.CurrentVersion s' = last (map TargetVersion recs) (stub.CurrentVersion s) /\
    stub.IsLocked s' = stub.IsLocked s /\
    stub.MigrationSequence s' = stub.MigrationSequence s ++ bodies recs.
Proof.
  induction recs as [ | migr recs IH]; intros s log.
  - exists s. simpl. rewrite !app_nil_r. destruct err; auto.
  - simpl map. rewrite last_cons.
    assert (E : exists s1,
               run_migration drv migr (s, log) = ((s1, log ++ [run_call migr]), None) /\
               stub.CurrentVersion s1 = TargetVersion migr /\
               stub.IsLocked s1 = stub.IsLocked s /\
               stub.MigrationSequence s1 = stub.MigrationSequence s ++ bodies [migr]).
    { unfold run_migration, run_call, bodies. simpl. destruct (Body migr); simpl.
      - destruct (BufferedBody migr); simpl; eexists; repeat split.
        simpl. rewrite app_nil_r. reflexivity.
      - eexists; repeat split. simpl. rewrite app_nil_r. reflexivity. }
    destruct E as (s1 & E & Hv & Hl & Hs).
    destruct (IH s1 (log ++ [run_call migr])) as (s' & Hseq & Hv' & Hl' & Hs').
    exists s'. simpl app. simpl sequential. rewrite E, Hseq. repeat split.
    + rewrite <- app_assoc. reflexivity.
    + rewrite Hv', Hv. reflexivity.
    + rewrite Hl', Hl. reflexivity.
    + rewrite Hs', Hs, <- app_assoc. f_equal.
      unfold bodies. simpl. rewrite app_nil_r. reflexivity.
Qed.

(** X4. On the stub database, a planning operation started on a ready engine
    runs exactly the records its planner sends before it closes or sends an
    error, and returns that error (or nil): under every schedule without stop
    signal the database ends at the target of the last record, its migration
    sequence has grown by the payloads of the records that have one, the calls
    are [Lock], [Version], one [Run] per record and [Unlock], and the engine is
    ready again; and some such schedule lets the operation return. *)
Theorem stub_runs_the_plan :
  forall (op : operation) (recs : list Migration) (err : option error)
         (m : Engine (stub.Stub * list call)),
    planning op ->
    ready m ->
    Outputs (planner_of suint_neg sourceDrv op (seen m)) (map VMigration recs ++ closing err) ->
    settles op m recs err.
Proof.
  intros op recs err m Hop (Hq & Hl & Hsl) Ho.
  unfold seen in Ho.
  destruct m as [[s log] gs igs il pf]. simpl in *. subst il.
  set (m := {| databaseDrv := (s, log); GracefulStop := gs; isGracefulStop := igs;
               isLocked := false; PrefetchMigrations := pf |}) in *.
  set (s1 := {| stub.CurrentVersion := stub.CurrentVersion s;
                stub.MigrationSequence := stub.MigrationSequence s;
                stub.LastRunMigration := stub.LastRunMigration s;
                stub.IsLocked := true |}).
  set (m1 := set_isLocked true (set_databaseDrv (s1, log ++ [CLock]) m)).
  set (cur := if stub.CurrentVersion s <? 0
              then database.NilVersion else stub.CurrentVersion s) in *.
  assert (Hlock : lock drv m = (m1, None)).
  { unfold lock. simpl. unfold stub.Lock. rewrite Hsl. reflexivity. }
  assert (Hver : database.Version drv (databaseDrv m1)
                 = ((s1, (log ++ [CLock]) ++ [CVersion]), Ok cur)).
  { simpl. unfold stub.Version. simpl. subst cur.
    destruct (stub.CurrentVersion s <? 0); reflexivity. }
  destruct (sequential_stub_closing recs err s1 ((log ++ [CLock]) ++ [CVersion]))
    as (s2 & Hseq & Hcv & Hil & Hms).
  split.
  - destruct (perform_complete suint_neg sourceDrv _ drv op m m1 _ cur _ _ _
                Hop Hq Hlock Hver Ho Hseq) as [sched [Hf Hp]].
    exists sched. eexists. split; [exact Hf | ]. exact Hp.
  - intros sched m' r Hf Hp.
    destruct (perform_sequential suint_neg sourceDrv _ drv op sched m m1 m' _ cur _ r
                Hop Hq Hlock Hver Ho Hf Hp) as [d2 [r2 [Hs Hr]]].
    rewrite Hseq in Hs. injection Hs as <- <-.
    unfold unlockErr, unlock in Hr. simpl in Hr. injection Hr as -> ->.
    split; [reflexivity | ].
    unfold applied, ready. simpl. repeat split; try apply Hq.
    + rewrite Hcv. reflexivity.
    + rewrite Hms. reflexivity.
    + rewrite <- !app_assoc. reflexivity.
Qed.
End StubRuns.

Lemma stub_runs_the_plan_witness :
  settles suint_panics (index.driver scenario_index) (OpSteps 10) (newCommon (stub_at 3, []))
          (map (fun v => planned scenario_index v v) [4; 5; 7])
          (Some (ErrShortLimit 7)).
Proof.
  apply stub_runs_the_plan.
  - simpl. discriminate.
  - repeat split.
  - apply (outputs_sound _ _ 20). vm_compute. reflexivity.
Defined.

(** ** Nothing to run *)

Section Edges.
Variable suint_neg : Z -> option Z.
Variable sourceDrv : source.Driver.

Local Abbreviation Outputs := (Outputs suint_neg sourceDrv).
Local Abbreviation settles := (settles suint_neg sourceDrv).

Lemma Outputs_fail err : Outputs (fail err) [VError err].
Proof. unfold fail. constructor. constructor. Qed.

Lemma settles_fail op (m : Engine (stub.Stub * list call)) err :
  planning op -> ready m ->
  planner_of suint_neg sourceDrv op (seen m) = fail err ->
  settles op m [] (Some err).
Proof.
  intros Hop Hm Hp. apply stub_runs_the_plan; [exact Hop | exact Hm | ].
  rewrite Hp. apply Outputs_fail.
Qed.

Lemma int_neg_pos n : MinInt < n < 0 -> int_neg n = - n /\ 0 < - n.
Proof.
  intros H. split; [ | lia]. unfold int_neg. apply wrap_int_id.
  unfold MinInt, MaxInt, int_bits in *. lia.
Qed.

Lemma seen_range (m : Engine (stub.Stub * list call)) : seen m = -1 \/ 0 <= seen m.
Proof.
  unfold seen. destruct (Z.ltb_spec (stub.CurrentVersion (fst (databaseDrv m))) 0); auto.
Qed.

(** X5. A version that is not in the source is refused before anything is
    run: when the presence check fails for the current version of the
    database, every planning operation returns [os.ErrNotExist]; when it fails
    for the target of [Migrate], [Migrate] returns [os.ErrNotExist] whatever
    the current version is. The driver sees [Lock], [Version] and [Unlock]
    only and the database stays where it was. *)
Theorem absent_version_refused :
  (forall (op : operation) (m : Engine (stub.Stub * list call)),
      planning op -> ready m ->
      0 <= seen m ->
      versionExists sourceDrv (seen m) <> None ->
      settles op m [] (Some os_ErrNotExist)) /\
  (forall (version : Z) (m : Engine (stub.Stub * list call)),
      ready m ->
      0 <= int_of_uint version ->
      versionExists sourceDrv (int_of_uint version) <> None ->
      settles (OpMigrate version) m [] (Some os_ErrNotExist)).
Proof.
  split.
  - intros op m Hop Hm Hcur Habs. apply settles_fail; [exact Hop | exact Hm | ].
    destruct op as [version | n | | | ]; simpl in *.
    + unfold read. apply check_exists_missing; assumption.
    + destruct (0 <? n); [unfold readUp | unfold readDown];
        apply check_exists_missing; assumption.
    + unfold readUp. apply check_exists_missing; assumption.
    + unfold readDown. apply check_exists_missing; assumption.
    + destruct Hop.
  - intros version m Hm Hto Habs. apply settles_fail; [exact I | exact Hm | ].
    simpl. unfold read.
    destruct (seen_range m) as [E | Hcur].
    + rewrite E. rewrite check_exists_absent by lia.
      apply check_exists_missing; assumption.
    + destruct (versionExists sourceDrv (seen m)) eqn:Ev.
      * apply check_exists_missing; [exact Hcur | congruence].
      * rewrite check_exists_found by assumption.
        apply check_exists_missing; assumption.
Qed.

(** X6. Where there is nothing to do, nothing is run and the reason is
    returned. At the empty state [Down] returns [ErrNoChange] and [Steps] with
    a negative count returns [os.ErrNotExist]; at a version after which the
    source has no other, [Up] returns [ErrNoChange] and [Steps] with a
    positive count returns [os.ErrNotExist]; [Migrate] to the current version
    returns [ErrNoChange]; and [Steps] with the smallest [int], whose negation
    is itself, returns nil. *)
Theorem nothing_to_do :
  forall m : Engine (stub.Stub * list call),
    ready m ->
    (seen m = -1 -> settles OpDown m [] (Some ErrNoChange)) /\
    (forall n, seen m = -1 -> MinInt < n < 0 ->
               settles (OpSteps n) m [] (Some os_ErrNotExist)) /\
    (forall err,
        0 <= seen m -> versionExists sourceDrv (seen m) = None ->
        source.Next sourceDrv (seen m) = Err err -> os_IsNotExist (Some err) = true ->
        settles OpUp m [] (Some ErrNoChange) /\
        forall n, 0 < n -> settles (OpSteps n) m [] (Some os_ErrNotExist)) /\
    (forall version,
        seen m = int_of_uint version ->
        seen m = -1 \/ versionExists sourceDrv (seen m) = None ->
        settles (OpMigrate version) m [] (Some ErrNoChange)) /\
    (seen m = -1 \/ versionExists sourceDrv (seen m) = None ->
     settles (OpSteps MinInt) m [] None).
Proof.
  intros m Hm. split; [ | split; [ | split; [ | split]]].
  - intros E. apply settles_fail; [exact I | exact Hm | ].
    simpl. rewrite E. reflexivity.
  - intros n E Hn. apply settles_fail; [simpl; lia | exact Hm | ].
    simpl. rewrite E.
    destruct (int_neg_pos n Hn) as [-> Hpos].
    destruct (Z.ltb_spec 0 n); [lia | ].
    unfold readDown. rewrite check_exists_absent by lia.
    destruct (Z.eqb_spec (- n) 0); [lia | ]. simpl.
    destruct (Z.eqb_spec (- n) (-1)); simpl.
    + destruct (Z.ltb_spec 0 (- n)); [ | lia]. lia.
    + destruct (Z.ltb_spec 0 (- n)); [reflexivity | lia].
  - intros err Hcur Hex Hnext Hne.
    assert (Hbody : forall limit,
               loop_body suint_neg sourceDrv (UpLoop limit) (seen m) 0
               = if (limit =? -1) && (0 =? 0) then fail ErrNoChange
                 else if limit =? -1 then Close
                 else if (0 <? limit) && (0 =? 0) then fail os_ErrNotExist
                 else if 0 <? limit then short suint_neg limit 0 Close
                 else fail err).
    { intros limit. unfold loop_body.
      destruct (Z.eqb_spec (seen m) (-1)); [lia | ].
      unfold with_suint. rewrite suint_nonneg by exact Hcur.
      rewrite Hnext. simpl err_of. rewrite Hne. reflexivity. }
    split.
    + apply stub_runs_the_plan; [exact I | exact Hm | ].
      simpl. unfold readUp. rewrite check_exists_found by assumption. simpl.
      apply Outputs_iter; [reflexivity | ].
      rewrite Hbody. simpl. apply Outputs_fail.
    + intros n Hn. apply stub_runs_the_plan; [simpl; lia | exact Hm | ].
      simpl. destruct (Z.ltb_spec 0 n); [ | lia].
      unfold readUp. rewrite check_exists_found by assumption.
      destruct (Z.eqb_spec n 0); [lia | ].
      apply Outputs_iter.
      * simpl. destruct (Z.ltb_spec 0 n); [reflexivity | lia].
      * rewrite Hbody.
        destruct (Z.eqb_spec n (-1)); [lia | ]. simpl.
        destruct (Z.ltb_spec 0 n); [ | lia]. simpl. apply Outputs_fail.
  - intros version E Hex. apply settles_fail; [exact I | exact Hm | ].
    simpl. rewrite <- E. unfold read.
    assert (Hc : forall k, check_exists suint_neg sourceDrv (seen m) k = k).
    { intros k. destruct Hex as [E1 | Hex].
      - apply check_exists_absent. lia.
      - destruct (seen_range m) as [E1 | Hcur].
        + apply check_exists_absent. lia.
        + apply check_exists_found; assumption. }
    rewrite !Hc, Z.eqb_refl. reflexivity.
  - intros Hex. apply stub_runs_the_plan; [simpl; discriminate | exact Hm | ].
    assert (Hc : forall k, check_exists suint_neg sourceDrv (seen m) k = k).
    { intros k. destruct Hex as [E1 | Hex].
      - apply check_exists_absent. lia.
      - destruct (seen_range m) as [E1 | Hcur].
        + apply check_exists_absent. lia.
        + apply check_exists_found; assumption. }
    change (planner_of suint_neg sourceDrv (OpSteps MinInt) (seen m))
      with (readDown suint_neg sourceDrv (seen m) MinInt).
    unfold readDown. rewrite Hc.
    change (MinInt =? 0) with false. change (MinInt =? -1) with false.
    change (0 <? MinInt) with false. rewrite !andb_false_r.
    apply Outputs_exit. reflexivity.
Qed.
End Edges.

Lemma absent_version_refused_witness :
  settles suint_panics (index.driver scenario_index) OpUp (newCommon (stub_at 2, []))
          [] (Some os_ErrNotExist) /\
  settles suint_panics (index.driver scenario_index) (OpMigrate 9) (newCommon (stub_at 7, []))
          [] (Some os_ErrNotExist).
Proof.
  split.
  - apply (proj1 (absent_version_refused suint_panics (index.driver scenario_index)));
      [exact I | repeat split | vm_compute; discriminate | vm_compute; discriminate].
  - apply (proj2 (absent_version_refused suint_panics (index.driver scenario_index)));
      [repeat split | vm_compute; discriminate | vm_compute; discriminate].
Defined.

Lemma nothing_to_do_witness :
  settles suint_panics (index.driver scenario_index) OpDown (fresh 10) [] (Some ErrNoChange) /\
  settles suint_panics (index.driver scenario_index) OpUp (newCommon (stub_at 7, []))
          [] (Some ErrNoChange).
Proof.
  split.
  - apply (proj1 (nothing_to_do suint_panics (index.driver scenario_index) (fresh 10)
                    ltac:(repeat split))).
    reflexivity.
  - apply (proj1 (proj1 (proj2 (proj2
             (nothing_to_do suint_panics (index.driver scenario_index)
                            (newCommon (stub_at 7, [])) ltac:(repeat split))))
             index.not_exist ltac:(vm_compute; discriminate) eq_refl eq_refl eq_refl)).
Defined.

(** ** Operations over an index of versions *)

Section IndexLoops.
Variable suint_neg : Z -> option Z.
Variable ix : list index.entry.
Hypothesis well_formed : index.well_formed ix.

Local Abbreviation src := (index.driver ix).
Local Abbreviation Outputs := (Outputs suint_neg src).
Local Abbreviation vs := (index.versions ix).

Lemma in_middle (pre : list Z) v post : In v (pre ++ v :: post).
Proof. apply in_or_app. right. left. reflexivity. Qed.

Lemma allowed_nil limit count : allowed limit count [] = [].
Proof. unfold allowed. destruct (limit =? -1); [reflexivity | apply firstn_nil]. Qed.

Lemma allowed_cons limit count w l :
  limit = -1 \/ count < limit ->
  allowed limit count (w :: l) = w :: allowed limit (count + 1) l.
Proof.
  intros H. unfold allowed. destruct (Z.eqb_spec limit (-1)); [reflexivity | ].
  destruct H as [H | H]; [contradiction | ].
  replace (Z.to_nat (limit - count)) with (S (Z.to_nat (limit - (count + 1)))) by lia.
  reflexivity.
Qed.

Lemma allowed_done limit count l : limit <> -1 -> limit <= count -> allowed limit count l = [].
Proof.
  intros H1 H2. unfold allowed. destruct (Z.eqb_spec limit (-1)); [contradiction | ].
  replace (Z.to_nat (limit - count)) with O by lia. reflexivity.
Qed.

Lemma loop_done lp limit from count :
  lp = UpLoop limit \/ lp = DownLoop limit ->
  limit <> -1 -> limit <= count -> Outputs (At lp from count) [].
Proof.
  intros Hlp H1 H2. apply Outputs_exit.
  destruct Hlp as [-> | ->]; simpl;
    destruct (Z.ltb_spec count limit); destruct (Z.eqb_spec limit (-1)); try lia; reflexivity.
Qed.

Lemma loop_goes lp limit from count :
  lp = UpLoop limit \/ lp = DownLoop limit ->
  limit = -1 \/ count < limit -> loop_cond lp from count = true.
Proof.
  intros Hlp H.
  destruct Hlp as [-> | ->]; simpl;
    destruct (Z.ltb_spec count limit); destruct (Z.eqb_spec limit (-1)); try lia; reflexivity.
Qed.

Lemma UpLoop_limit post : forall pre v count limit,
  vs = pre ++ v :: post ->
  0 <= count ->
  count + Z.of_nat (List.length post) <= MaxInt ->
  limit = -1 \/ count <= limit <= MaxInt ->
  Outputs (At (UpLoop limit) v count)
          (map VMigration (ups_of ix (allowed limit count post))
           ++ closing (up_end limit (count + Z.of_nat (List.length post)))).
Proof.
  destruct well_formed as [Hinc _]. pose proof MinInt_neg as Hmin.
  induction post as [ | w post IH]; intros pre v count limit E Hc Hlen Hlim.
  - assert (Hv : 0 <= v <= MaxInt).
    { apply (version_range ix well_formed). rewrite E. apply in_middle. }
    rewrite allowed_nil. simpl List.length. rewrite Z.add_0_r. simpl app.
    destruct (Z.eq_dec limit (-1)) as [El | Nl];
      [ | destruct (Z.le_gt_cases limit count) as [Hdone | Hgo]].
    + subst limit. apply Outputs_iter; [apply orb_true_r | ]. simpl.
      destruct (Z.eqb_spec v (-1)); [lia | ].
      unfold with_suint. rewrite suint_nonneg by lia.
      rewrite (Next_last ix pre v E Hinc). simpl.
      unfold up_end. simpl.
      destruct (Z.eqb_spec count 0); simpl; [apply Outputs_fail | constructor].
    + unfold up_end. destruct (Z.eqb_spec limit (-1)); [contradiction | ].
      destruct (Z.leb_spec limit count); [ | lia].
      apply (loop_done (UpLoop limit) limit); auto.
    + destruct Hlim as [Hlim | Hlim]; [contradiction | ].
      apply Outputs_iter; [apply (loop_goes (UpLoop limit) limit); auto | ].
      simpl. destruct (Z.eqb_spec v (-1)); [lia | ].
      unfold with_suint. rewrite suint_nonneg by lia.
      rewrite (Next_last ix pre v E Hinc). simpl.
      unfold up_end.
      destruct (Z.eqb_spec limit (-1)); [contradiction | ]. simpl.
      destruct (Z.leb_spec limit count); [lia | ].
      destruct (Z.ltb_spec 0 limit); [ | lia].
      destruct (Z.eqb_spec count 0); simpl; [apply Outputs_fail | ].
      destruct (Z.ltb_spec count limit); [ | lia].
      unfold short, with_suint. rewrite int_sub_id by lia.
      rewrite suint_nonneg by lia. constructor. constructor.
  - assert (Hv : 0 <= v <= MaxInt).
    { apply (version_range ix well_formed). rewrite E. apply in_middle. }
    assert (Hw : 0 <= w <= MaxInt).
    { apply (version_range ix well_formed). rewrite E.
      apply in_or_app. right. right. left. reflexivity. }
    simpl List.length in *. rewrite Nat2Z.inj_succ in *.
    destruct (Z.eq_dec limit (-1)) as [El | Nl];
      [ | destruct (Z.le_gt_cases limit count) as [Hdone | Hgo]].
    + rewrite allowed_cons by auto.
      apply Outputs_iter; [apply (loop_goes (UpLoop limit) limit); auto | ].
      simpl. destruct (Z.eqb_spec v (-1)); [lia | ].
      unfold with_suint. rewrite suint_nonneg by lia.
      rewrite (Next_inside ix pre v w post E Hinc). simpl.
      unfold emit. rewrite newMigration_index.
      rewrite int_of_uint_id by exact Hw. rewrite int_add_id by lia.
      constructor.
      replace (count + Z.succ (Z.of_nat (List.length post)))
        with (count + 1 + Z.of_nat (List.length post)) by lia.
      apply (IH (pre ++ [v])); [ | lia | lia | auto].
      rewrite E, <- app_assoc. reflexivity.
    + rewrite allowed_done by assumption. simpl.
      unfold up_end. destruct (Z.eqb_spec limit (-1)); [contradiction | ].
      destruct (Z.leb_spec limit (count + Z.succ (Z.of_nat (List.length post)))); [ | lia].
      apply (loop_done (UpLoop limit) limit); auto.
    + destruct Hlim as [Hlim | Hlim]; [contradiction | ].
      rewrite allowed_cons by auto.
      apply Outputs_iter; [apply (loop_goes (UpLoop limit) limit); auto | ].
      simpl. destruct (Z.eqb_spec v (-1)); [lia | ].
      unfold with_suint. rewrite suint_nonneg by lia.
      rewrite (Next_inside ix pre v w post E Hinc). simpl.
      unfold emit. rewrite newMigration_index.
      rewrite int_of_uint_id by exact Hw. rewrite int_add_id by lia.
      constructor.
      replace (count + Z.succ (Z.of_nat (List.length post)))
        with (count + 1 + Z.of_nat (List.length post)) by lia.
      apply (IH (pre ++ [v])); [ | lia | lia | right; lia].
      rewrite E, <- app_assoc. reflexivity.
Qed.

Lemma DownLoop_limit before : forall v post count limit,
  vs = rev before ++ v :: post ->
  0 <= count ->
  count + Z.of_nat (List.length before) + 1 <= MaxInt ->
  limit = -1 \/ count <= limit <= MaxInt ->
  Outputs (At (DownLoop limit) v count)
          (map VMigration (descent ix (allowed limit count (before ++ [-1])) v)
           ++ closing (down_end limit (count + Z.of_nat (List.length before) + 1))).
Proof.
  destruct well_formed as [Hinc _]. pose proof MinInt_neg as Hmin.
  induction before as [ | u before IH]; intros v post count limit E Hc Hlen Hlim.
  - assert (Hv : 0 <= v <= MaxInt).
    { apply (version_range ix well_formed). rewrite E. apply in_middle. }
    simpl in E. simpl List.length in *. rewrite Z.add_0_r in *. simpl app.
    destruct (Z.eq_dec limit (-1)) as [El | Nl];
      [ | destruct (Z.le_gt_cases limit count) as [Hdone | Hgo]].
    + subst limit. rewrite allowed_cons, allowed_nil by auto.
      apply Outputs_iter; [apply orb_true_r | ]. simpl.
      unfold with_suint. rewrite suint_nonneg by lia.
      rewrite (Prev_first ix v post E Hinc). simpl.
      unfold index.First. rewrite E. unfold emit. rewrite newMigration_index.
      rewrite int_add_id by lia.
      destruct (Z.ltb_spec (count + 1) (-1)); [lia | ]. repeat constructor.
    + rewrite allowed_done by assumption. simpl.
      unfold down_end. destruct (Z.eqb_spec limit (-1)); [contradiction | ].
      destruct (Z.leb_spec limit (count + 1)); [ | lia].
      apply (loop_done (DownLoop limit) limit); auto.
    + destruct Hlim as [Hlim | Hlim]; [contradiction | ].
      rewrite allowed_cons, allowed_nil by auto.
      apply Outputs_iter; [apply (loop_goes (DownLoop limit) limit); auto | ].
      simpl. unfold with_suint. rewrite suint_nonneg by lia.
      rewrite (Prev_first ix v post E Hinc). simpl.
      destruct (Z.eqb_spec limit (-1)); [contradiction | ]. simpl.
      rewrite int_sub_id by lia.
      destruct (Z.ltb_spec 0 (limit - count)); [ | lia].
      unfold index.First. rewrite E. unfold emit. rewrite newMigration_index.
      rewrite int_add_id by lia. constructor.
      unfold down_end. destruct (Z.eqb_spec limit (-1)); [contradiction | ].
      destruct (Z.ltb_spec (count + 1) limit); destruct (Z.leb_spec limit (count + 1));
        try lia.
      * unfold short, with_suint. rewrite int_sub_id by lia.
        rewrite suint_nonneg by lia. constructor. constructor.
      * constructor.
  - assert (Hv : 0 <= v <= MaxInt).
    { apply (version_range ix well_formed). rewrite E. apply in_middle. }
    assert (E' : vs = rev before ++ u :: v :: post).
    { rewrite E. simpl. rewrite <- app_assoc. reflexivity. }
    assert (Hu : 0 <= u <= MaxInt).
    { apply (version_range ix well_formed). rewrite E'. apply in_middle. }
    simpl List.length in *. rewrite Nat2Z.inj_succ in *. simpl app.
    destruct (Z.eq_dec limit (-1)) as [El | Nl];
      [ | destruct (Z.le_gt_cases limit count) as [Hdone | Hgo]].
    + rewrite allowed_cons by auto.
      apply Outputs_iter; [apply (loop_goes (DownLoop limit) limit); auto | ].
      simpl. unfold with_suint. rewrite suint_nonneg by lia.
      rewrite (Prev_inside ix (rev before) u v post E' Hinc). simpl.
      unfold emit. rewrite newMigration_index.
      rewrite int_of_uint_id by exact Hu. rewrite int_add_id by lia.
      constructor.
      replace (count + Z.succ (Z.of_nat (List.length before)) + 1)
        with (count + 1 + Z.of_nat (List.length before) + 1) by lia.
      apply (IH u (v :: post)); [exact E' | lia | lia | auto].
    + rewrite allowed_done by assumption. simpl.
      unfold down_end. destruct (Z.eqb_spec limit (-1)); [contradiction | ].
      destruct (Z.leb_spec limit (count + Z.succ (Z.of_nat (List.length before)) + 1));
        [ | lia].
      apply (loop_done (DownLoop limit) limit); auto.
    + destruct Hlim as [Hlim | Hlim]; [contradiction | ].
      rewrite allowed_cons by auto.
      apply Outputs_iter; [apply (loop_goes (DownLoop limit) limit); auto | ].
      simpl. unfold with_suint. rewrite suint_nonneg by lia.
      rewrite (Prev_inside ix (rev before) u v post E' Hinc). simpl.
      unfold emit. rewrite newMigration_index.
      rewrite int_of_uint_id by exact Hu. rewrite int_add_id by lia.
      constructor.
      replace (count + Z.succ (Z.of_nat (List.length before)) + 1)
        with (count + 1 + Z.of_nat (List.length before) + 1) by lia.
      apply (IH u (v :: post)); [exact E' | lia | lia | right; lia].
Qed.

Lemma increasing_ends v mid w post : index.increasing (v :: mid ++ w :: post) -> v < w.
Proof.
  intros H. apply increasing_above in H. rewrite Forall_forall in H.
  apply H. apply in_middle.
Qed.

Lemma ReadUpLoop_to mid : forall pre v to post count,
  vs = pre ++ v :: mid ++ to :: post ->
  Outputs (At (ReadUpLoop to) v count) (map VMigration (ups_of ix (mid ++ [to]))).
Proof.
  destruct well_formed as [Hinc _].
  induction mid as [ | w mid IH]; intros pre v to post count E.
  - assert (Hv : 0 <= v <= MaxInt).
    { apply (version_range ix well_formed). rewrite E. apply in_middle. }
    assert (Hto : 0 <= to <= MaxInt).
    { apply (version_range ix well_formed). rewrite E.
      apply in_or_app. right. right. left. reflexivity. }
    assert (Hlt : v < to).
    { rewrite E in Hinc. apply increasing_suffix in Hinc.
      apply (increasing_ends v [] to post Hinc). }
    simpl in E. simpl app.
    apply Outputs_iter; [simpl; destruct (Z.ltb_spec v to); [reflexivity | lia] | ].
    simpl. unfold with_suint. rewrite suint_nonneg by lia.
    rewrite (Next_inside ix pre v to post E Hinc).
    unfold emit. rewrite newMigration_index.
    rewrite int_of_uint_id by exact Hto. constructor.
    apply Outputs_exit. simpl. apply Z.ltb_irrefl.
  - assert (Hv : 0 <= v <= MaxInt).
    { apply (version_range ix well_formed). rewrite E. apply in_middle. }
    assert (Hw : 0 <= w <= MaxInt).
    { apply (version_range ix well_formed). rewrite E.
      apply in_or_app. right. right. left. reflexivity. }
    assert (Hlt : v < to).
    { rewrite E in Hinc. apply increasing_suffix in Hinc.
      apply (increasing_ends v (w :: mid) to post Hinc). }
    simpl in E. simpl app.
    apply Outputs_iter; [simpl; destruct (Z.ltb_spec v to); [reflexivity | lia] | ].
    simpl. unfold with_suint. rewrite suint_nonneg by lia.
    rewrite (Next_inside ix pre v w (mid ++ to :: post) E Hinc).
    unfold emit. rewrite newMigration_index.
    rewrite int_of_uint_id by exact Hw. constructor.
    apply (IH (pre ++ [v]) w to post). rewrite E, <- app_assoc. reflexivity.
Qed.

Lemma ReadDownLoop_to mid : forall pre to v post count,
  vs = pre ++ to :: rev mid ++ v :: post ->
  Outputs (At (ReadDownLoop to) v count) (map VMigration (descent ix (mid ++ [to]) v)).
Proof.
  destruct well_formed as [Hinc _].
  induction mid as [ | u mid IH]; intros pre to v post count E.
  - assert (Hv : 0 <= v <= MaxInt).
    { apply (version_range ix well_formed). rewrite E.
      apply in_or_app. right. right. left. reflexivity. }
    assert (Hto : 0 <= to <= MaxInt).
    { apply (version_range ix well_formed). rewrite E. apply in_middle. }
    assert (Hlt : to < v).
    { rewrite E in Hinc. apply increasing_suffix in Hinc.
      apply (increasing_ends to [] v post Hinc). }
    simpl in E. simpl app.
    apply Outputs_iter.
    { simpl. destruct (Z.ltb_spec to v); [ | lia].
      destruct (Z.leb_spec 0 v); [reflexivity | lia]. }
    simpl. unfold with_suint. rewrite suint_nonneg by lia.
    rewrite (Prev_inside ix pre to v post E Hinc). simpl.
    unfold emit. rewrite newMigration_index.
    rewrite int_of_uint_id by exact Hto. constructor.
    apply Outputs_exit. simpl. rewrite Z.ltb_irrefl. reflexivity.
  - assert (E' : vs = (pre ++ to :: rev mid) ++ u :: v :: post).
    { rewrite E. simpl. rewrite <- !app_assoc. simpl. rewrite <- ?app_assoc. reflexivity. }
    assert (Hv : 0 <= v <= MaxInt).
    { apply (version_range ix well_formed). rewrite E'.
      apply in_or_app. right. right. left. reflexivity. }
    assert (Hu : 0 <= u <= MaxInt).
    { apply (version_range ix well_formed). rewrite E'. apply in_middle. }
    assert (Hlt : to < v).
    { rewrite E in Hinc. apply increasing_suffix in Hinc.
      apply (increasing_ends to (rev (u :: mid)) v post Hinc). }
    simpl app.
    apply Outputs_iter.
    { simpl. destruct (Z.ltb_spec to v); [ | lia].
      destruct (Z.leb_spec 0 v); [reflexivity | lia]. }
    simpl. unfold with_suint. rewrite suint_nonneg by lia.
    rewrite (Prev_inside ix (pre ++ to :: rev mid) u v post E' Hinc). simpl.
    unfold emit. rewrite newMigration_index.
    rewrite int_of_uint_id by exact Hu. constructor.
    apply (IH pre to u (v :: post)).
    rewrite E'. rewrite <- app_assoc. reflexivity.
Qed.

Lemma filter_all (f : Z -> bool) l : Forall (fun x => f x = true) l -> filter f l = l.
Proof.
  induction 1 as [ | a l Ha _ IH]; [reflexivity | ]. simpl. rewrite Ha, IH. reflexivity.
Qed.

Lemma filter_none (f : Z -> bool) l : Forall (fun x => f x = false) l -> filter f l = [].
Proof.
  induction 1 as [ | a l Ha _ IH]; [reflexivity | ]. simpl. rewrite Ha, IH. reflexivity.
Qed.

Lemma above_split pre v post : vs = pre ++ v :: post -> above ix v = post.
Proof.
  intros E. destruct well_formed as [Hinc _]. rewrite E in Hinc.
  unfold above. rewrite E, filter_app. simpl. rewrite Z.ltb_irrefl.
  rewrite filter_none, filter_all; [reflexivity | | ].
  - apply increasing_suffix in Hinc. apply increasing_above in Hinc.
    eapply Forall_impl; [ | exact Hinc]. simpl. intros x Hx.
    destruct (Z.ltb_spec v x); [reflexivity | lia].
  - apply increasing_below in Hinc.
    eapply Forall_impl; [ | exact Hinc]. simpl. intros x Hx.
    destruct (Z.ltb_spec v x); [lia | reflexivity].
Qed.

Lemma below_split pre v post : vs = pre ++ v :: post -> below ix v = rev pre.
Proof.
  intros E. destruct well_formed as [Hinc _]. rewrite E in Hinc.
  unfold below. rewrite E, filter_app. simpl. rewrite Z.ltb_irrefl.
  rewrite filter_all, filter_none; [rewrite app_nil_r; reflexivity | | ].
  - apply increasing_suffix in Hinc. apply increasing_above in Hinc.
    eapply Forall_impl; [ | exact Hinc]. simpl. intros x Hx.
    destruct (Z.ltb_spec x v); [lia | reflexivity].
  - apply increasing_below in Hinc.
    eapply Forall_impl; [ | exact Hinc]. simpl. intros x Hx.
    destruct (Z.ltb_spec x v); [reflexivity | lia].
Qed.

Lemma above_empty_state : above ix (-1) = vs.
Proof.
  unfold above. apply filter_all. apply Forall_forall. intros x Hx.
  pose proof (version_range ix well_formed x Hx).
  destruct (Z.ltb_spec (-1) x); [reflexivity | lia].
Qed.

Lemma between_split pre a mid b post :
  vs = pre ++ a :: mid ++ b :: post ->
  filter (fun v => (a <? v) && (v <=? b)) vs = mid ++ [b] /\
  filter (fun v => (a <=? v) && (v <? b)) vs = a :: mid.
Proof.
  intros E. destruct well_formed as [Hinc _]. rewrite E in Hinc.
  assert (Hpre : Forall (fun x => x < a) pre).
  { apply (increasing_below pre a _ Hinc). }
  assert (Hafter : Forall (fun x => a < x) (mid ++ b :: post)).
  { apply increasing_above. apply (increasing_suffix pre _ Hinc). }
  apply Forall_app in Hafter as [Hmid1 Hafter].
  apply Forall_cons_iff in Hafter as [Hab Hpost1].
  assert (E2 : pre ++ a :: mid ++ b :: post = (pre ++ a :: mid) ++ b :: post).
  { rewrite <- app_assoc. reflexivity. }
  assert (Hbefore : Forall (fun x => x < b) (pre ++ a :: mid)).
  { rewrite E2 in Hinc. apply (increasing_below _ b _ Hinc). }
  apply Forall_app in Hbefore as [_ Hbefore].
  apply Forall_cons_iff in Hbefore as [_ Hmid2].
  assert (Hpost : Forall (fun x => b < x) post).
  { rewrite E2 in Hinc. apply increasing_above. apply (increasing_suffix _ _ Hinc). }
  rewrite E. split.
  - rewrite filter_app. simpl. rewrite Z.ltb_irrefl. simpl. rewrite filter_app. simpl.
    destruct (Z.ltb_spec a b); [ | lia]. rewrite Z.leb_refl. simpl.
    rewrite (filter_none _ pre), (filter_all _ mid), (filter_none _ post); [reflexivity | | | ].
    + eapply Forall_impl; [ | exact Hpost]. simpl. intros x Hx.
      destruct (Z.leb_spec x b); [lia | apply andb_false_r].
    + rewrite Forall_forall in *. intros x Hx.
      pose proof (Hmid1 x Hx). pose proof (Hmid2 x Hx).
      destruct (Z.ltb_spec a x); [ | lia]. destruct (Z.leb_spec x b); [reflexivity | lia].
    + eapply Forall_impl; [ | exact Hpre]. simpl. intros x Hx.
      destruct (Z.ltb_spec a x); [lia | reflexivity].
  - rewrite filter_app. simpl. rewrite Z.leb_refl. simpl.
    destruct (Z.ltb_spec a b); [ | lia]. rewrite filter_app. simpl.
    rewrite Z.ltb_irrefl, andb_false_r.
    rewrite (filter_none _ pre), (filter_all _ mid), (filter_none _ post);
      [rewrite app_nil_r; reflexivity | | | ].
    + eapply Forall_impl; [ | exact Hpost]. simpl. intros x Hx.
      destruct (Z.ltb_spec x b); [lia | apply andb_false_r].
    + rewrite Forall_forall in *. intros x Hx.
      pose proof (Hmid1 x Hx). pose proof (Hmid2 x Hx).
      destruct (Z.leb_spec a x); [ | lia]. destruct (Z.ltb_spec x b); [reflexivity | lia].
    + eapply Forall_impl; [ | exact Hpre]. simpl. intros x Hx.
      destruct (Z.leb_spec a x); [lia | reflexivity].
Qed.

Lemma two_split a b :
  In a vs -> In b vs -> a < b -> exists pre mid post, vs = pre ++ a :: mid ++ b :: post.
Proof.
  intros Ha Hb Hab. destruct well_formed as [Hinc _].
  apply in_split in Ha as (pre & post0 & E).
  rewrite E in Hb, Hinc.
  apply in_app_or in Hb as [Hb | [Hb | Hb]].
  - pose proof (increasing_below pre a post0 Hinc) as H. rewrite Forall_forall in H.
    specialize (H b Hb). lia.
  - lia.
  - apply in_split in Hb as (mid & post & E').
    exists pre, mid, post. rewrite E, E'. reflexivity.
Qed.

Lemma suffix_length pre v (post : list Z) :
  vs = pre ++ v :: post ->
  Z.of_nat (List.length pre) + Z.of_nat (List.length post) + 1 <= MaxInt.
Proof.
  intros E. pose proof (versions_length ix well_formed) as H.
  rewrite E, length_app in H. simpl List.length in H. lia.
Qed.

Lemma readUp_placed cur limit :
  placed ix cur ->
  limit = -1 \/ 0 < limit <= MaxInt ->
  Outputs (readUp suint_neg src cur limit)
          (map VMigration (ups_of ix (allowed limit 0 (above ix cur)))
           ++ closing (up_end limit (Z.of_nat (List.length (above ix cur))))).
Proof.
  intros Hcur Hlim. destruct well_formed as [Hinc _].
  destruct Hcur as [[-> Hne] | Hin].
  - rewrite above_empty_state.
    destruct vs as [ | v post] eqn:E.
    { destruct ix; [congruence | discriminate]. }
    assert (Hv : 0 <= v <= MaxInt).
    { apply (version_range ix well_formed). rewrite E. left. reflexivity. }
    pose proof (suffix_length [] v post E) as Hlen. simpl in Hlen.
    unfold readUp. rewrite check_exists_absent by lia.
    destruct (Z.eqb_spec limit 0); [lia | ].
    rewrite allowed_cons by lia.
    apply Outputs_iter; [apply (loop_goes (UpLoop limit) limit); auto; lia | ].
    simpl. unfold index.First. rewrite E. unfold emit. rewrite newMigration_index.
    rewrite int_of_uint_id by exact Hv. change (int_add 0 1) with 1.
    constructor.
    replace (Z.pos (Pos.of_succ_nat (List.length post)))
      with (1 + Z.of_nat (List.length post)) by lia.
    apply (UpLoop_limit post [] v 1 limit); [exact E | lia | lia | lia].
  - apply in_split in Hin as (pre & post & E).
    assert (Hv : 0 <= cur <= MaxInt).
    { apply (version_range ix well_formed). rewrite E. apply in_middle. }
    pose proof (suffix_length pre cur post E) as Hlen.
    rewrite (above_split pre cur post E).
    unfold readUp. rewrite check_exists_found;
      [ | lia | apply versionExists_index; rewrite E; apply in_middle].
    destruct (Z.eqb_spec limit 0); [lia | ].
    rewrite <- (Z.add_0_l (Z.of_nat (List.length post))).
    apply (UpLoop_limit post pre cur 0 limit); [exact E | lia | lia | lia].
Qed.

Lemma readDown_placed cur limit :
  In cur vs ->
  limit = -1 \/ 0 < limit <= MaxInt ->
  Outputs (readDown suint_neg src cur limit)
          (map VMigration (descent ix (allowed limit 0 (below ix cur ++ [-1])) cur)
           ++ closing (down_end limit (Z.of_nat (List.length (below ix cur)) + 1))).
Proof.
  intros Hin Hlim.
  apply in_split in Hin as (pre & post & E).
  assert (Hv : 0 <= cur <= MaxInt).
  { apply (version_range ix well_formed). rewrite E. apply in_middle. }
  pose proof (suffix_length pre cur post E) as Hlen.
  rewrite (below_split pre cur post E).
  unfold readDown. rewrite check_exists_found;
    [ | lia | apply versionExists_index; rewrite E; apply in_middle].
  destruct (Z.eqb_spec limit 0); [lia | ].
  destruct (Z.eqb_spec cur (-1)); [lia | ]. simpl.
  rewrite <- (Z.add_0_l (Z.of_nat (List.length (rev pre)))).
  apply (DownLoop_limit (rev pre) cur post 0 limit);
    [rewrite rev_involutive; exact E | lia | rewrite length_rev; lia | lia].
Qed.

Lemma read_upwards cur to :
  placed ix cur -> In to vs -> cur < to ->
  Outputs (read suint_neg src cur to)
          (map VMigration (ups_of ix (filter (fun v => (cur <? v) && (v <=? to)) vs))).
Proof.
  intros Hcur Hto Hlt. destruct well_formed as [Hinc _].
  pose proof (version_range ix well_formed to Hto) as Rto.
  assert (Cto : forall k, check_exists suint_neg src to k = k).
  { intros k. apply check_exists_found; [lia | apply versionExists_index; exact Hto]. }
  destruct Hcur as [[-> Hne] | Hin].
  - unfold read. rewrite check_exists_absent by lia. rewrite Cto.
    destruct (Z.eqb_spec (-1) to); [lia | ].
    destruct (Z.ltb_spec (-1) to); [ | lia]. simpl.
    assert (Hsplit : exists v rest, vs = v :: rest).
    { destruct vs as [ | v rest]; [destruct Hto | eauto]. }
    destruct Hsplit as (v & rest & E).
    assert (Hv : 0 <= v <= MaxInt).
    { apply (version_range ix well_formed). rewrite E. left. reflexivity. }
    unfold index.First. rewrite E in *. unfold emit. rewrite newMigration_index.
    rewrite int_of_uint_id by exact Hv.
    destruct Hto as [-> | Hto].
    + replace (filter (fun v => (-1 <? v) && (v <=? to)) (to :: rest)) with [to].
      * simpl. constructor. apply Outputs_exit. simpl. apply Z.ltb_irrefl.
      * simpl. destruct (Z.ltb_spec (-1) to); [ | lia]. rewrite Z.leb_refl. simpl.
        rewrite filter_none; [reflexivity | ].
        apply increasing_above in Hinc.
        eapply Forall_impl; [ | exact Hinc]. simpl. intros x Hx.
        destruct (Z.leb_spec x to); [lia | apply andb_false_r].
    + apply in_split in Hto as (mid & post & E').
      assert (E2 : vs = [] ++ v :: mid ++ to :: post).
      { rewrite E, E'. reflexivity. }
      replace (filter (fun w => (-1 <? w) && (w <=? to)) (v :: rest))
        with (v :: mid ++ [to]).
      * simpl. constructor. apply (ReadUpLoop_to mid [] v to post 0 E2).
      * destruct (between_split [] v mid to post E2) as [F _].
        rewrite E in F. simpl in F. rewrite Z.ltb_irrefl in F. simpl in F.
        simpl. destruct (Z.ltb_spec (-1) v); [ | lia].
        assert (Hvto : v <= to).
        { pose proof Hinc as Hinc'. rewrite E' in Hinc'.
          pose proof (increasing_ends v mid to post Hinc'). lia. }
        destruct (Z.leb_spec v to); [ | lia]. simpl. f_equal.
        rewrite <- F. apply filter_ext_in. intros x Hx.
        assert (v < x).
        { apply increasing_above in Hinc.
          rewrite Forall_forall in Hinc. apply Hinc. exact Hx. }
        destruct (Z.ltb_spec (-1) x); destruct (Z.ltb_spec v x); try lia; reflexivity.
  - pose proof (version_range ix well_formed cur Hin) as Rcur.
    destruct (two_split cur to Hin Hto Hlt) as (pre & mid & post & E).
    destruct (between_split pre cur mid to post E) as [F _]. rewrite F.
    unfold read. rewrite check_exists_found;
      [ | lia | apply versionExists_index; exact Hin].
    rewrite Cto.
    destruct (Z.eqb_spec cur to); [lia | ].
    destruct (Z.ltb_spec cur to); [ | lia].
    destruct (Z.eqb_spec cur (-1)); [lia | ].
    apply (ReadUpLoop_to mid pre cur to post 0 E).
Qed.

Lemma read_downwards cur to :
  In cur vs -> In to vs -> to < cur ->
  Outputs (read suint_neg src cur to)
          (map VMigration
               (descent ix (rev (filter (fun v => (to <=? v) && (v <? cur)) vs)) cur)).
Proof.
  intros Hin Hto Hlt.
  pose proof (version_range ix well_formed to Hto) as Rto.
  pose proof (version_range ix well_formed cur Hin) as Rcur.
  destruct (two_split to cur Hto Hin Hlt) as (pre & mid & post & E).
  destruct (between_split pre to mid cur post E) as [_ F]. rewrite F.
  unfold read. rewrite !check_exists_found;
    [ | lia | apply versionExists_index; exact Hto
      | lia | apply versionExists_index; exact Hin].
  destruct (Z.eqb_spec cur to); [lia | ].
  destruct (Z.ltb_spec cur to); [lia | ].
  simpl rev.
  apply (ReadDownLoop_to (rev mid) pre to cur post 0).
  rewrite rev_involutive. exact E.
Qed.
End IndexLoops.

Section IndexOperations.
Variable suint_neg : Z -> option Z.
Variable ix : list index.entry.
Hypothesis well_formed : index.well_formed ix.

Local Abbreviation src := (index.driver ix).
Local Abbreviation vs := (index.versions ix).
Local Abbreviation settles := (settles suint_neg src).
Local Abbreviation drv := (recorder stub.driver).

Lemma ups_of_TargetVersion l : map TargetVersion (ups_of ix l) = l.
Proof.
  unfold ups_of. rewrite map_map. rewrite <- (map_id l) at 2.
  apply map_ext. intros v. apply planned_TargetVersion.
Qed.

Lemma descent_TargetVersion path : forall v, map TargetVersion (descent ix path v) = path.
Proof.
  induction path as [ | u path IH]; intros v; simpl; [reflexivity | ].
  rewrite planned_TargetVersion, IH. reflexivity.
Qed.

Lemma seen_nonneg (m : Engine (stub.Stub * list call)) :
  0 <= seen m -> stub.CurrentVersion (fst (databaseDrv m)) = seen m.
Proof.
  unfold seen. destruct (Z.ltb_spec (stub.CurrentVersion (fst (databaseDrv m))) 0).
  - unfold database.NilVersion. lia.
  - reflexivity.
Qed.

Lemma seen_known (m : Engine (stub.Stub * list call)) :
  In (seen m) vs -> stub.CurrentVersion (fst (databaseDrv m)) = seen m.
Proof.
  intros H. apply seen_nonneg. apply (version_range ix well_formed _ H).
Qed.

Lemma Up_settles (m : Engine (stub.Stub * list call)) :
  ready m -> placed ix (seen m) ->
  settles OpUp m (ups_of ix (above ix (seen m)))
          (up_end (-1) (Z.of_nat (List.length (above ix (seen m))))).
Proof.
  intros Hm Hcur. apply stub_runs_the_plan; [exact I | exact Hm | ].
  apply (readUp_placed suint_neg ix well_formed (seen m) (-1) Hcur). left. reflexivity.
Qed.

Lemma Steps_up_settles (m : Engine (stub.Stub * list call)) n :
  ready m -> placed ix (seen m) -> 0 < n <= MaxInt ->
  settles (OpSteps n) m (ups_of ix (firstn (Z.to_nat n) (above ix (seen m))))
          (up_end n (Z.of_nat (List.length (above ix (seen m))))).
Proof.
  intros Hm Hcur Hn. apply stub_runs_the_plan; [simpl; lia | exact Hm | ].
  simpl. destruct (Z.ltb_spec 0 n); [ | lia].
  pose proof (readUp_placed suint_neg ix well_formed (seen m) n Hcur (or_intror Hn)) as Hout.
  unfold allowed in Hout. destruct (Z.eqb_spec n (-1)); [lia | ].
  rewrite Z.sub_0_r in Hout. exact Hout.
Qed.

Lemma Down_settles (m : Engine (stub.Stub * list call)) :
  ready m -> In (seen m) vs ->
  settles OpDown m (descent ix (below ix (seen m) ++ [-1]) (seen m)) None.
Proof.
  intros Hm Hcur. apply stub_runs_the_plan; [exact I | exact Hm | ].
  apply (readDown_placed suint_neg ix well_formed (seen m) (-1) Hcur). left. reflexivity.
Qed.

Lemma Steps_down_settles (m : Engine (stub.Stub * list call)) n :
  ready m -> In (seen m) vs -> MinInt < n < 0 ->
  settles (OpSteps n) m
          (descent ix (firstn (Z.to_nat (- n)) (below ix (seen m) ++ [-1])) (seen m))
          (down_end (- n) (Z.of_nat (List.length (below ix (seen m))) + 1)).
Proof.
  intros Hm Hcur Hn. apply stub_runs_the_plan; [simpl; lia | exact Hm | ].
  simpl. destruct (Z.ltb_spec 0 n); [lia | ].
  destruct (int_neg_pos n Hn) as [-> Hpos].
  assert (Hlim : - n = -1 \/ 0 < - n <= MaxInt).
  { right. unfold MinInt, MaxInt, int_bits in *. lia. }
  pose proof (readDown_placed suint_neg ix well_formed (seen m) (- n) Hcur Hlim) as Hout.
  unfold allowed in Hout. destruct (Z.eqb_spec (- n) (-1)); [lia | ].
  rewrite Z.sub_0_r in Hout. exact Hout.
Qed.

Lemma Migrate_up_settles (m : Engine (stub.Stub * list call)) to :
  ready m -> placed ix (seen m) -> In to vs -> seen m < to ->
  settles (OpMigrate to) m
          (ups_of ix (filter (fun v => (seen m <? v) && (v <=? to)) vs)) None.
Proof.
  intros Hm Hcur Hto Hlt. apply stub_runs_the_plan; [exact I | exact Hm | ].
  simpl. rewrite app_nil_r.
  rewrite int_of_uint_id by (apply (version_range ix well_formed _ Hto)).
  apply (read_upwards suint_neg ix well_formed (seen m) to Hcur Hto Hlt).
Qed.

Lemma Migrate_down_settles (m : Engine (stub.Stub * list call)) to :
  ready m -> In (seen m) vs -> In to vs -> to < seen m ->
  settles (OpMigrate to) m
          (descent ix (rev (filter (fun v => (to <=? v) && (v <? seen m)) vs)) (seen m)) None.
Proof.
  intros Hm Hcur Hto Hlt. apply stub_runs_the_plan; [exact I | exact Hm | ].
  simpl. rewrite app_nil_r.
  rewrite int_of_uint_id by (apply (version_range ix well_formed _ Hto)).
  apply (read_downwards suint_neg ix well_formed (seen m) to Hcur Hto Hlt).
Qed.

Lemma Migrate_same_settles (m : Engine (stub.Stub * list call)) to :
  ready m -> In to vs -> seen m = to ->
  settles (OpMigrate to) m [] (Some ErrNoChange).
Proof.
  intros Hm Hto E. apply settles_fail; [exact I | exact Hm | ].
  pose proof (version_range ix well_formed _ Hto) as R.
  simpl. rewrite int_of_uint_id by exact R. rewrite E.
  unfold read. rewrite !check_exists_found;
    [ | lia | apply versionExists_index; exact Hto
      | lia | apply versionExists_index; exact Hto].
  rewrite Z.eqb_refl. reflexivity.
Qed.

Lemma Down_empty_settles (m : Engine (stub.Stub * list call)) :
  ready m -> seen m = -1 -> settles OpDown m [] (Some ErrNoChange).
Proof.
  intros Hm E. apply settles_fail; [exact I | exact Hm | ].
  simpl. rewrite E. reflexivity.
Qed.

Lemma last_any {A} (l : list A) d d' : l <> [] -> last l d = last l d'.
Proof.
  destruct l as [ | a l]; [congruence | ]. intros _. rewrite !last_cons. reflexivity.
Qed.

Lemma last_middle {A} (pre : list A) v post d : last (pre ++ v :: post) d = last post v.
Proof.
  induction pre as [ | a pre IH]; simpl app.
  - apply last_cons.
  - rewrite last_cons. rewrite <- IH. apply last_any.
    destruct pre; discriminate.
Qed.

Lemma last_upwards cur to d :
  In to vs -> cur < to -> last (filter (fun v => (cur <? v) && (v <=? to)) vs) d = to.
Proof.
  intros Hto Hlt. destruct well_formed as [Hinc _].
  apply in_split in Hto as (pre & post & E). rewrite E in *.
  rewrite filter_app. simpl.
  destruct (Z.ltb_spec cur to); [ | lia]. rewrite Z.leb_refl. simpl.
  rewrite (filter_none _ post).
  - apply last_last.
  - apply increasing_suffix in Hinc. apply increasing_above in Hinc.
    eapply Forall_impl; [ | exact Hinc]. simpl. intros x Hx.
    destruct (Z.leb_spec x to); [lia | apply andb_false_r].
Qed.

Lemma last_downwards cur to d :
  In to vs -> to < cur -> last (rev (filter (fun v => (to <=? v) && (v <? cur)) vs)) d = to.
Proof.
  intros Hto Hlt. destruct well_formed as [Hinc _].
  apply in_split in Hto as (pre & post & E). rewrite E in *.
  rewrite filter_app. simpl.
  destruct (Z.ltb_spec to cur); [ | lia]. rewrite Z.leb_refl. simpl.
  rewrite (filter_none _ pre).
  - simpl. apply last_last.
  - apply increasing_below in Hinc.
    eapply Forall_impl; [ | exact Hinc]. simpl. intros x Hx.
    destruct (Z.leb_spec to x); [lia | reflexivity].
Qed.

Lemma Migrate_lands (m m' : Engine (stub.Stub * list call)) to sched r :
  ready m -> placed ix (seen m) -> In to vs ->
  signal_free sched ->
  perform suint_neg src drv (OpMigrate to) sched m = Some (m', r) ->
  ready m' /\ stub.CurrentVersion (fst (databaseDrv m')) = to.
Proof.
  intros Hm Hcur Hto Hf Hp.
  pose proof (version_range ix well_formed _ Hto) as R.
  destruct (Z.lt_trichotomy (seen m) to) as [Hlt | [E | Hgt]].
  - destruct (proj2 (Migrate_up_settles m to Hm Hcur Hto Hlt) sched m' r Hf Hp)
      as (_ & Hr & _ & Hv & _).
    split; [exact Hr | ]. rewrite Hv, ups_of_TargetVersion. apply last_upwards; assumption.
  - destruct (proj2 (Migrate_same_settles m to Hm Hto E) sched m' r Hf Hp)
      as (_ & Hr & _ & Hv & _).
    split; [exact Hr | ]. rewrite Hv. simpl. rewrite seen_nonneg; lia.
  - assert (Hin : In (seen m) vs).
    { destruct Hcur as [[E _] | Hin]; [lia | exact Hin]. }
    destruct (proj2 (Migrate_down_settles m to Hm Hin Hto Hgt) sched m' r Hf Hp)
      as (_ & Hr & _ & Hv & _).
    split; [exact Hr | ]. rewrite Hv, descent_TargetVersion.
    apply last_downwards; assumption.
Qed.

Lemma Up_lands (m m' : Engine (stub.Stub * list call)) sched r :
  ready m -> placed ix (seen m) ->
  signal_free sched ->
  perform suint_neg src drv OpUp sched m = Some (m', r) ->
  ready m' /\ stub.CurrentVersion (fst (databaseDrv m')) = last vs (-1).
Proof.
  intros Hm Hcur Hf Hp.
  destruct (proj2 (Up_settles m Hm Hcur) sched m' r Hf Hp) as (_ & Hr & _ & Hv & _).
  split; [exact Hr | ]. rewrite Hv, ups_of_TargetVersion.
  destruct Hcur as [[E Hne] | Hin].
  - rewrite E, (above_empty_state ix well_formed). apply last_any.
    unfold index.versions. destruct ix; [congruence | discriminate].
  - rewrite (seen_known m Hin).
    apply in_split in Hin as (pre & post & E).
    rewrite (above_split ix well_formed pre _ post E). rewrite E.
    rewrite last_middle. reflexivity.
Qed.

Lemma Down_lands (m m' : Engine (stub.Stub * list call)) sched r :
  ready m -> placed ix (seen m) ->
  signal_free sched ->
  perform suint_neg src drv OpDown sched m = Some (m', r) ->
  ready m' /\ stub.CurrentVersion (fst (databaseDrv m')) < 0.
Proof.
  intros Hm Hcur Hf Hp.
  destruct Hcur as [[E Hne] | Hin].
  - destruct (proj2 (Down_empty_settles m Hm E) sched m' r Hf Hp) as (_ & Hr & _ & Hv & _).
    split; [exact Hr | ]. rewrite Hv. simpl. unfold seen in E.
    destruct (Z.ltb_spec (stub.CurrentVersion (fst (databaseDrv m))) 0); lia.
  - destruct (proj2 (Down_settles m Hm Hin) sched m' r Hf Hp) as (_ & Hr & _ & Hv & _).
    split; [exact Hr | ]. rewrite Hv, descent_TargetVersion, last_last. lia.
Qed.

Lemma Version_on_stub (m : Engine (stub.Stub * list call)) :
  engine.Version suint_neg drv m
  = Some (set_databaseDrv (fst (databaseDrv m), snd (databaseDrv m) ++ [CVersion]) m,
          if stub.CurrentVersion (fst (databaseDrv m)) <? 0 then Err ErrNilVersion
          else Ok (stub.CurrentVersion (fst (databaseDrv m)))).
Proof.
  unfold engine.Version. simpl. unfold stub.Version.
  destruct (Z.ltb_spec (stub.CurrentVersion (fst (databaseDrv m))) 0); simpl; [reflexivity | ].
  destruct (Z.eqb_spec (stub.CurrentVersion (fst (databaseDrv m))) database.NilVersion) as [E | _].
  - unfold database.NilVersion in E. lia.
  - rewrite suint_nonneg by assumption. reflexivity.
Qed.

Lemma Drop_on_stub (m : Engine (stub.Stub * list call)) :
  ready m ->
  exists m',
    Drop drv m = (m', None) /\
    ready m' /\
    PrefetchMigrations m' = PrefetchMigrations m /\
    stub.CurrentVersion (fst (databaseDrv m')) = -1 /\
    stub.MigrationSequence (fst (databaseDrv m'))
    = stub.MigrationSequence (fst (databaseDrv m)) ++ [stub.DROP] /\
    stub.LastRunMigration (fst (databaseDrv m')) = None /\
    snd (databaseDrv m') = snd (databaseDrv m) ++ [CLock; CDrop; CUnlock].
Proof.
  intros (Hq & Hl & Hsl).
  destruct m as [[s log] gs igs il pf]. simpl in *. subst il.
  unfold Drop, lock, unlock. simpl. unfold stub.Lock. rewrite Hsl. simpl.
  eexists. split; [reflexivity | ]. unfold ready. simpl.
  repeat split; try apply Hq. rewrite <- !app_assoc. reflexivity.
Qed.

Lemma placed_nonempty cur : placed ix cur -> vs <> [].
Proof.
  intros [[_ Hne] | Hin].
  - unfold index.versions. destruct ix; [congruence | discriminate].
  - destruct vs; [destruct Hin | discriminate].
Qed.

Lemma last_known (l : list Z) d : l <> [] -> In (last l d) l.
Proof.
  intros H. rewrite (app_removelast_last d H) at 2. apply in_middle.
Qed.

(** X7. Over a well-formed index, with the stub database at the empty state
    or at a version of the index, [Up] runs the up step of every version above
    the current one, in ascending order, and returns nil, or [ErrNoChange] when
    there is none; the database ends at the last version of the index.
    [Steps(n)] with [n > 0] runs the first [n] of these steps; when fewer than
    [n] exist it runs them all and returns [ErrShortLimit] with the number of
    steps that were missing, or [os.ErrNotExist] when there was none at all. *)
Theorem Up_and_Steps_run_what_is_above :
  forall m : Engine (stub.Stub * list call),
    ready m ->
    placed ix (seen m) ->
    let rest := above ix (seen m) in
    let total := Z.of_nat (List.length rest) in
    settles OpUp m (ups_of ix rest) (if total =? 0 then Some ErrNoChange else None) /\
    (forall n,
        0 < n <= MaxInt ->
        settles (OpSteps n) m (ups_of ix (firstn (Z.to_nat n) rest))
                (if n <=? total then None
                 else if total =? 0 then Some os_ErrNotExist
                 else Some (ErrShortLimit (n - total)))) /\
    (forall l, map TargetVersion (ups_of ix l) = l) /\
    (forall sched m' r,
        signal_free sched ->
        perform suint_neg src drv OpUp sched m = Some (m', r) ->
        stub.CurrentVersion (fst (databaseDrv m')) = last vs (-1)).
Proof.
  intros m Hm Hcur rest total. split; [ | split; [ | split]].
  - exact (Up_settles m Hm Hcur).
  - intros n Hn. pose proof (Steps_up_settles m n Hm Hcur Hn) as H.
    unfold up_end in H. destruct (Z.eqb_spec n (-1)); [lia | ]. exact H.
  - apply ups_of_TargetVersion.
  - intros sched m' r Hf Hp. apply (Up_lands m m' sched r Hm Hcur Hf Hp).
Qed.

(** X8. Over a well-formed index, with the stub database at a version of the
    index, [Down] runs the down step of the current version and of every
    version below it, in descending order, each one to the version below and
    the last one to the empty state (-1), and returns nil. [Steps(n)] with
    [n < 0] runs the first [-n] of these steps; when fewer exist it runs them
    all and returns [ErrShortLimit] with the number of steps that were
    missing. *)
Theorem Down_and_Steps_run_what_is_below :
  forall m : Engine (stub.Stub * list call),
    ready m ->
    In (seen m) vs ->
    let path := below ix (seen m) ++ [-1] in
    let total := Z.of_nat (List.length path) in
    settles OpDown m (descent ix path (seen m)) None /\
    (forall n,
        MinInt < n < 0 ->
        settles (OpSteps n) m (descent ix (firstn (Z.to_nat (- n)) path) (seen m))
                (if - n <=? total then None else Some (ErrShortLimit (- n - total)))) /\
    (forall l v, map TargetVersion (descent ix l v) = l) /\
    (forall sched m' r,
        signal_free sched ->
        perform suint_neg src drv OpDown sched m = Some (m', r) ->
        stub.CurrentVersion (fst (databaseDrv m')) = -1).
Proof.
  intros m Hm Hcur path total. split; [ | split; [ | split]].
  - exact (Down_settles m Hm Hcur).
  - intros n Hn. pose proof (Steps_down_settles m n Hm Hcur Hn) as H.
    unfold down_end in H. destruct (Z.eqb_spec (- n) (-1)); [lia | ].
    subst total path. rewrite length_app. simpl List.length.
    replace (Z.of_nat (List.length (below ix (seen m)) + 1))
      with (Z.of_nat (List.length (below ix (seen m))) + 1) by lia.
    exact H.
  - intros l v. apply descent_TargetVersion.
  - intros sched m' r Hf Hp.
    destruct (proj2 (Down_settles m Hm Hcur) sched m' r Hf Hp) as (_ & _ & _ & Hv & _).
    rewrite Hv, descent_TargetVersion, last_last. reflexivity.
Qed.

(** X9. Over a well-formed index, with the stub database at the empty state
    or at a version of the index, [Migrate] to a version [to] of the index
    returns nil and leaves the database at [to]: from below it runs the up
    steps of the versions above the current one up to [to], ascending; from
    above it runs the down steps from the current version down to the one above
    [to], descending, the last one arriving at [to]. At [to] already it runs
    nothing and returns [ErrNoChange]. *)
Theorem Migrate_reaches_the_target :
  forall (m : Engine (stub.Stub * list call)) (to : Z),
    ready m ->
    placed ix (seen m) ->
    In to vs ->
    (seen m < to ->
     settles (OpMigrate to) m
             (ups_of ix (filter (fun v => (seen m <? v) && (v <=? to)) vs)) None) /\
    (to < seen m ->
     settles (OpMigrate to) m
             (descent ix (rev (filter (fun v => (to <=? v) && (v <? seen m)) vs)) (seen m))
             None) /\
    (seen m = to -> settles (OpMigrate to) m [] (Some ErrNoChange)) /\
    (forall sched m' r,
        signal_free sched ->
        perform suint_neg src drv (OpMigrate to) sched m = Some (m', r) ->
        stub.CurrentVersion (fst (databaseDrv m')) = to).
Proof.
  intros m to Hm Hcur Hto. split; [ | split; [ | split]].
  - intros Hlt. exact (Migrate_up_settles m to Hm Hcur Hto Hlt).
  - intros Hgt. apply (Migrate_down_settles m to Hm); [ | exact Hto | exact Hgt].
    destruct Hcur as [[E _] | Hin]; [ | exact Hin].
    pose proof (version_range ix well_formed _ Hto). lia.
  - intros E. exact (Migrate_same_settles m to Hm Hto E).
  - intros sched m' r Hf Hp. apply (Migrate_lands m m' to sched r Hm Hcur Hto Hf Hp).
Qed.

(** X10. [Version] reports where the operations left the database. On the
    stub, after [Migrate] to a version of the index it answers that version,
    after [Up] the last version of the index, and after [Down] or [Drop] the
    error [ErrNilVersion]; it never fails to return there. *)
Theorem Version_reports_the_outcome :
  forall m : Engine (stub.Stub * list call),
    ready m ->
    placed ix (seen m) ->
    (forall to sched m' r,
        In to vs ->
        signal_free sched ->
        perform suint_neg src drv (OpMigrate to) sched m = Some (m', r) ->
        exists m'', engine.Version suint_neg drv m' = Some (m'', Ok to)) /\
    (forall sched m' r,
        signal_free sched ->
        perform suint_neg src drv OpUp sched m = Some (m', r) ->
        exists m'', engine.Version suint_neg drv m' = Some (m'', Ok (last vs (-1)))) /\
    (forall sched m' r,
        signal_free sched ->
        perform suint_neg src drv OpDown sched m = Some (m', r) ->
        exists m'', engine.Version suint_neg drv m' = Some (m'', Err ErrNilVersion)) /\
    (forall sched m' r,
        perform suint_neg src drv OpDrop sched m = Some (m', r) ->
        exists m'', engine.Version suint_neg drv m' = Some (m'', Err ErrNilVersion)).
Proof.
  intros m Hm Hcur. split; [ | split; [ | split]].
  - intros to sched m' r Hto Hf Hp.
    destruct (Migrate_lands m m' to sched r Hm Hcur Hto Hf Hp) as [_ Hv].
    pose proof (version_range ix well_formed _ Hto) as R.
    rewrite Version_on_stub, Hv.
    destruct (Z.ltb_spec to 0); [lia | ]. eexists. reflexivity.
  - intros sched m' r Hf Hp.
    destruct (Up_lands m m' sched r Hm Hcur Hf Hp) as [_ Hv].
    pose proof (version_range ix well_formed _
                  (last_known vs (-1) (placed_nonempty _ Hcur))) as R.
    rewrite Version_on_stub, Hv.
    destruct (Z.ltb_spec (last vs (-1)) 0); [lia | ]. eexists. reflexivity.
  - intros sched m' r Hf Hp.
    destruct (Down_lands m m' sched r Hm Hcur Hf Hp) as [_ Hv].
    rewrite Version_on_stub.
    destruct (Z.ltb_spec (stub.CurrentVersion (fst (databaseDrv m'))) 0); [ | lia].
    eexists. reflexivity.
  - intros sched m' r Hp. simpl in Hp.
    destruct (Drop_on_stub m Hm) as (m1 & Hd & _ & _ & Hv & _).
    rewrite Hd in Hp. injection Hp as <- <-.
    rewrite Version_on_stub, Hv. simpl. eexists. reflexivity.
Qed.

(** X11. [Drop] on the stub returns nil, takes the database to the empty
    state and appends the marker [DROP] to its migration sequence, with the
    calls [Lock], [Drop], [Unlock]; a following [Up] over a well-formed,
    non-empty index then runs the up step of every version again. *)
Theorem Drop_then_Up_runs_everything :
  forall (m : Engine (stub.Stub * list call)) (sched : list tick),
    ready m ->
    ix <> [] ->
    exists m1,
      perform suint_neg src drv OpDrop sched m = Some (m1, None) /\
      stub.CurrentVersion (fst (databaseDrv m1)) = -1 /\
      stub.MigrationSequence (fst (databaseDrv m1))
      = stub.MigrationSequence (fst (databaseDrv m)) ++ [stub.DROP] /\
      snd (databaseDrv m1) = snd (databaseDrv m) ++ [CLock; CDrop; CUnlock] /\
      settles OpUp m1 (ups ix) None.
Proof.
  intros m sched Hm Hne.
  destruct (Drop_on_stub m Hm) as (m1 & Hd & Hr & _ & Hv & Hs & _ & Hlog).
  exists m1.
  split; [simpl; rewrite Hd; reflexivity | ].
  split; [exact Hv | ]. split; [exact Hs | ]. split; [exact Hlog | ].
  assert (E : seen m1 = -1).
  { unfold seen. rewrite Hv. reflexivity. }
  assert (Hp : placed ix (seen m1)).
  { left. split; assumption. }
  pose proof (Up_settles m1 Hr Hp) as Hup.
  rewrite E, (above_empty_state ix well_formed) in Hup.
  unfold up_end in Hup. simpl in Hup.
  destruct (Z.eqb_spec (Z.of_nat (List.length vs)) 0) as [E0 | _]; [ | exact Hup].
  exfalso. apply (placed_nonempty _ Hp). destruct vs; [reflexivity | discriminate].
Qed.
End IndexOperations.

Lemma ready_at v : ready (newCommon (stub_at v, [])).
Proof. repeat split. Qed.

Lemma alternate_signal_free n : signal_free (alternate n).
Proof.
  induction n as [ | n IH]; simpl; [constructor | ].
  constructor; [discriminate | ]. constructor; [discriminate | exact IH].
Qed.

Lemma Up_and_Steps_run_what_is_above_witness :
  settles suint_panics (index.driver scenario_index) OpUp (newCommon (stub_at 3, []))
          (ups_of scenario_index [4; 5; 7]) None /\
  settles suint_panics (index.driver scenario_index) (OpSteps 2) (newCommon (stub_at 3, []))
          (ups_of scenario_index [4; 5]) None /\
  settles suint_panics (index.driver scenario_index) (OpSteps 10) (newCommon (stub_at 3, []))
          (ups_of scenario_index [4; 5; 7]) (Some (ErrShortLimit 7)).
Proof.
  pose proof (Up_and_Steps_run_what_is_above suint_panics scenario_index
                scenario_index_well_formed (newCommon (stub_at 3, [])) (ready_at 3)
                (or_intror (or_intror (or_introl eq_refl)))) as [H1 [H2 _]].
  split; [exact H1 | split].
  - apply (H2 2). split; [reflexivity | discriminate].
  - apply (H2 10). split; [reflexivity | discriminate].
Defined.

Lemma Down_and_Steps_run_what_is_below_witness :
  settles suint_panics (index.driver scenario_index) OpDown (newCommon (stub_at 5, []))
          (descent scenario_index [4; 3; 1; -1] 5) None /\
  settles suint_panics (index.driver scenario_index) (OpSteps (-2)) (newCommon (stub_at 5, []))
          (descent scenario_index [4; 3] 5) None /\
  settles suint_panics (index.driver scenario_index) (OpSteps (-6)) (newCommon (stub_at 5, []))
          (descent scenario_index [4; 3; 1; -1] 5) (Some (ErrShortLimit 2)).
Proof.
  pose proof (Down_and_Steps_run_what_is_below suint_panics scenario_index
                scenario_index_well_formed (newCommon (stub_at 5, [])) (ready_at 5)
                (or_intror (or_intror (or_intror (or_introl eq_refl))))) as [H1 [H2 _]].
  split; [exact H1 | split].
  - apply (H2 (-2)). split; reflexivity.
  - apply (H2 (-6)). split; reflexivity.
Defined.

Lemma Migrate_reaches_the_target_witness :
  settles suint_panics (index.driver scenario_index) (OpMigrate 4) (newCommon (stub_at 7, []))
          (descent scenario_index [5; 4] 7) None /\
  settles suint_panics (index.driver scenario_index) (OpMigrate 5) (newCommon (stub_at 1, []))
          (ups_of scenario_index [3; 4; 5]) None.
Proof.
  split.
  - apply (proj1 (proj2 (Migrate_reaches_the_target suint_panics scenario_index
                           scenario_index_well_formed (newCommon (stub_at 7, [])) 4 (ready_at 7)
                           (or_intror (or_intror (or_intror (or_intror (or_intror
                              (or_introl eq_refl))))))
                           (or_intror (or_intror (or_introl eq_refl)))))).
    reflexivity.
  - apply (proj1 (Migrate_reaches_the_target suint_panics scenario_index
                    scenario_index_well_formed (newCommon (stub_at 1, [])) 5 (ready_at 1)
                    (or_intror (or_introl eq_refl))
                    (or_intror (or_intror (or_intror (or_introl eq_refl)))))).
    reflexivity.
Defined.

Lemma Version_reports_the_outcome_witness :
  exists m' m'',
    perform suint_panics (index.driver scenario_index) (recorder stub.driver)
            (OpMigrate 4) (alternate 30) (newCommon (stub_at 7, [])) = Some (m', None) /\
    engine.Version suint_panics (recorder stub.driver) m' = Some (m'', Ok 4).
Proof.
  assert (Hp : exists m',
               perform suint_panics (index.driver scenario_index) (recorder stub.driver)
                       (OpMigrate 4) (alternate 30) (newCommon (stub_at 7, []))
               = Some (m', None)).
  { eexists. vm_compute. reflexivity. }
  destruct Hp as [m' Hp]. exists m'.
  destruct (proj1 (Version_reports_the_outcome suint_panics scenario_index
                     scenario_index_well_formed (newCommon (stub_at 7, [])) (ready_at 7)
                     (or_intror (or_intror (or_intror (or_intror (or_intror
                        (or_introl eq_refl)))))))
                  4 (alternate 30) _ None
                  (or_intror (or_intror (or_introl eq_refl)))
                  (alternate_signal_free 30) Hp) as [m'' Hv].
  exists m''. split; [exact Hp | exact Hv].
Defined.

Lemma Drop_then_Up_runs_everything_witness :
  exists m1,
    perform suint_panics (index.driver scenario_index) (recorder stub.driver)
            OpDrop [] (newCommon (stub_at 7, [])) = Some (m1, None) /\
    stub.CurrentVersion (fst (databaseDrv m1)) = -1 /\
    settles suint_panics (index.driver scenario_index) OpUp m1 (ups scenario_index) None.
Proof.
  destruct (Drop_then_Up_runs_everything suint_panics scenario_index
              scenario_index_well_formed (newCommon (stub_at 7, [])) [] (ready_at 7)
              ltac:(discriminate)) as (m1 & Hd & Hv & _ & _ & Hup).
  exists m1. split; [exact Hd | split; [exact Hv | exact Hup]].
Defined.

(** ** The record of one step *)

Section NewMigration.
Variable sourceDrv : source.Driver.

Lemma newMigration_payload version target :
  newMigration sourceDrv version target
  = match payload sourceDrv version target with
    | Err err =>
        if os_IsNotExist (Some err) then NewMigration None "" version target else Err err
    | Ok (r, identifier) => NewMigration (Some r) identifier version target
    end.
Proof.
  unfold newMigration, payload. destruct (int_of_uint version <=? target); reflexivity.
Qed.

(** X12. [newMigration] asks the source for one payload only, the up payload
    exactly when the target is not below [int(version)]. It fails exactly when
    that read fails with an error other than not-exist, and then with this
    error; a payload that does not exist gives a record without body, and the
    runner then calls the driver's [Run] with the target and no payload, so
    that the version still moves. The record carries the version, the target,
    and the payload and identifier the source returned. *)
Theorem newMigration_reads_one_direction :
  forall version target : Z,
    (forall err,
        newMigration sourceDrv version target = Err err <->
        payload sourceDrv version target = Err err /\ os_IsNotExist (Some err) = false) /\
    (forall migr,
        newMigration sourceDrv version target = Ok migr ->
        Version migr = version /\
        TargetVersion migr = target /\
        (Body migr = None <->
         exists err, payload sourceDrv version target = Err err /\
                     os_IsNotExist (Some err) = true) /\
        (forall body identifier,
            payload sourceDrv version target = Ok (body, identifier) ->
            Body migr = Some body /\ Identifier migr = identifier) /\
        forall (D : Type) (drv : database.Driver D) (d : D),
          run_migration drv migr d = database.Run drv target (Body migr) d).
Proof.
  intros version target. rewrite newMigration_payload. unfold NewMigration.
  destruct (payload sourceDrv version target) as [[r identifier] | e] eqn:Ep.
  - split.
    + intros err. split; [discriminate | intros [H _]; discriminate].
    + intros migr H. injection H as <-. simpl. repeat split.
      * discriminate.
      * intros (err & H & _). discriminate.
      * injection H as -> _. reflexivity.
      * injection H as _ ->. reflexivity.
  - destruct (os_IsNotExist (Some e)) eqn:Ee.
    + split.
      * intros err. split; [discriminate | ].
        intros [H Hn]. injection H as ->. congruence.
      * intros migr H. injection H as <-. simpl. repeat split.
        -- intros _. exists e. auto.
        -- discriminate.
        -- discriminate.
    + split.
      * intros err. split.
        -- intros H. injection H as <-. auto.
        -- intros [H _]. injection H as ->. reflexivity.
      * intros migr H. discriminate.
Qed.
End NewMigration.

(** ** Schedules and prefetch depth *)

Section Independence.
Variable suint_neg : Z -> option Z.
Variable sourceDrv : source.Driver.
Variable D : Type.
Variable drv : database.Driver D.

Lemma lock_prefetch pf (m : Engine D) :
  lock drv (set_PrefetchMigrations pf m)
  = (set_PrefetchMigrations pf (fst (lock drv m)), snd (lock drv m)).
Proof.
  unfold lock. simpl. destruct (isLocked m); simpl; [reflexivity | ].
  destruct (database.Lock drv (databaseDrv m)) as [d [e | ]]; reflexivity.
Qed.

Lemma unlockErr_prefetch pf prevErr (m : Engine D) :
  unlockErr drv prevErr (set_PrefetchMigrations pf m)
  = (set_PrefetchMigrations pf (fst (unlockErr drv prevErr m)),
     snd (unlockErr drv prevErr m)).
Proof.
  unfold unlockErr, unlock. simpl.
  destruct (database.Unlock drv (databaseDrv m)) as [d [e | ]]; reflexivity.
Qed.

(** X13. The outcome of a planning operation whose planner has a finite
    output does not depend on how the planner goroutine and the runner are
    interleaved, nor on the prefetch depth: whenever the operation returns
    without a stop signal, it returns the same error and leaves the same driver
    state and lock flag. *)
Theorem outcome_is_schedule_independent :
  forall (op : operation) (s1 s2 : list tick) (m m1 : Engine D) (d : D) (cur : Z)
         (l : list chanval) (pf : Z) (m1' m2' : Engine D) (r1 r2 : option error),
    planning op ->
    quiet m ->
    lock drv m = (m1, None) ->
    database.Version drv (databaseDrv m1) = (d, Ok cur) ->
    Outputs suint_neg sourceDrv (planner_of suint_neg sourceDrv op cur) l ->
    signal_free s1 ->
    signal_free s2 ->
    perform suint_neg sourceDrv drv op s1 m = Some (m1', r1) ->
    perform suint_neg sourceDrv drv op s2 (set_PrefetchMigrations pf m) = Some (m2', r2) ->
    r1 = r2 /\ databaseDrv m1' = databaseDrv m2' /\ isLocked m1' = isLocked m2'.
Proof.
  intros op s1 s2 m m1 d cur l pf m1' m2' r1 r2 Hop Hq Hl Hv Ho Hf1 Hf2 Hp1 Hp2.
  destruct (perform_sequential suint_neg sourceDrv _ drv op s1 m m1 m1' d cur l r1
              Hop Hq Hl Hv Ho Hf1 Hp1) as (d2 & e2 & Hs & H1).
  assert (Hl' : lock drv (set_PrefetchMigrations pf m) = (set_PrefetchMigrations pf m1, None)).
  { rewrite lock_prefetch, Hl. reflexivity. }
  destruct (perform_sequential suint_neg sourceDrv _ drv op s2
              (set_PrefetchMigrations pf m) (set_PrefetchMigrations pf m1) m2' d cur l r2
              Hop Hq Hl' Hv Ho Hf2 Hp2) as (d3 & e3 & Hs' & H2).
  rewrite Hs in Hs'. injection Hs' as <- <-.
  change (set_databaseDrv d2 (set_PrefetchMigrations pf m1))
    with (set_PrefetchMigrations pf (set_databaseDrv d2 m1)) in H2.
  rewrite unlockErr_prefetch in H2. rewrite <- H1 in H2.
  injection H2 as -> ->. simpl. auto.
Qed.
End Independence.

Lemma planner_ahead_signal_free n : signal_free (planner_ahead n).
Proof.
  induction n as [ | n IH]; simpl; [constructor | ].
  repeat (constructor; [discriminate | ]). exact IH.
Qed.

Lemma outcome_is_schedule_independent_witness :
  exists m1' m2' r1 r2,
    perform suint_panics (index.driver scenario_index) stub.driver OpUp
            (alternate 30) (newCommon stub.Open) = Some (m1', r1) /\
    perform suint_panics (index.driver scenario_index) stub.driver OpUp
            (planner_ahead 30) (set_PrefetchMigrations 3 (newCommon stub.Open))
    = Some (m2', r2) /\
    r1 = r2 /\ databaseDrv m1' = databaseDrv m2' /\ isLocked m1' = isLocked m2'.
Proof.
  do 4 eexists. split; [vm_compute; reflexivity | ]. split; [vm_compute; reflexivity | ].
  eapply (outcome_is_schedule_independent suint_panics (index.driver scenario_index)
            stub.Stub stub.driver OpUp (alternate 30) (planner_ahead 30)
            (newCommon stub.Open) _ _ _ (map VMigration (ups scenario_index)) 3).
  - exact I.
  - split; reflexivity.
  - reflexivity.
  - reflexivity.
  - apply (outputs_sound _ _ 20). vm_compute. reflexivity.
  - apply alternate_signal_free.
  - apply planner_ahead_signal_free.
  - vm_compute. reflexivity.
  - vm_compute. reflexivity.
Defined.

(** ** The message of [ErrShortLimit] *)

Lemma length_append (s t : string) :
  String.length (s ++ t)%string = (String.length s + String.length t)%nat.
Proof. induction s as [ | a s IH]; simpl; [reflexivity | rewrite IH; reflexivity]. Qed.

Lemma append_cancel_r (s t u : string) : (s ++ u)%string = (t ++ u)%string -> s = t.
Proof.
  revert t. induction s as [ | a s IH]; intros t H.
  - destruct t as [ | b t]; [reflexivity | ].
    exfalso. apply (f_equal String.length) in H.
    simpl in H. rewrite length_append in H. lia.
  - destruct t as [ | b t].
    + exfalso. apply (f_equal String.length) in H.
      simpl in H. rewrite length_append in H. lia.
    + simpl in H. injection H as -> H. f_equal. apply IH. exact H.
Qed.

Lemma to_uint_nonnil n : N.to_uint n <> Decimal.Nil.
Proof.
  rewrite <- (DecimalN.Unsigned.of_to n) at 1. rewrite DecimalN.Unsigned.to_of.
  apply DecimalFacts.unorm_nonnil.
Qed.

Lemma decimal_injective a b : 0 <= a -> 0 <= b -> decimal a = decimal b -> a = b.
Proof.
  intros Ha Hb H. unfold decimal in H.
  apply (f_equal NilZero.uint_of_string) in H.
  rewrite !NilZero.usu in H by apply to_uint_nonnil.
  injection H as H. apply DecimalN.Unsigned.to_uint_inj in H. lia.
Qed.

(** X14. The message of [ErrShortLimit] is [limit], the shortfall in
    decimal, and [short]; two shortfalls have the same message only when they
    are equal, so the message tells how many steps were missing. *)
Theorem ErrShortLimit_message_names_the_shortfall :
  forall (sep : string) (a b : Z),
    0 <= a -> 0 <= b ->
    Error sep (ErrShortLimit a) = ("limit " ++ decimal a ++ " short")%string /\
    (Error sep (ErrShortLimit a) = Error sep (ErrShortLimit b) -> a = b).
Proof.
  intros sep a b Ha Hb. split; [reflexivity | ].
  simpl. intros H. injection H as H.
  apply append_cancel_r in H. apply decimal_injective; assumption.
Qed.

Lemma ErrShortLimit_message_names_the_shortfall_witness :
  Error ", " (ErrShortLimit 7) = "limit 7 short" /\
  (Error ", " (ErrShortLimit 7) = Error ", " (ErrShortLimit 7) -> 7 = 7).
Proof.
  destruct (ErrShortLimit_message_names_the_shortfall ", " 7 7 ltac:(lia) ltac:(lia))
    as [H1 H2].
  split; [exact H1 | exact H2].
Defined.

(** ** Steps forth and back *)

Section StepsRoundTrip.
Variable suint_neg : Z -> option Z.
Variable ix : list index.entry.
Hypothesis well_formed : index.well_formed ix.

Local Abbreviation src := (index.driver ix).
Local Abbreviation vs := (index.versions ix).
Local Abbreviation drv := (recorder stub.driver).

Lemma firstn_last_split (n : nat) (l : list Z) :
  (0 < n <= List.length l)%nat ->
  exists a v rest, l = a ++ v :: rest /\ firstn n l = a ++ [v] /\ List.length a = (n - 1)%nat.
Proof.
  intros Hn.
  assert (Hne : firstn n l <> []).
  { intros E. apply (f_equal (@List.length Z)) in E.
    rewrite length_firstn in E. simpl in E. lia. }
  destruct (exists_last Hne) as (a & v & E).
  exists a, v, (skipn n l). split; [ | split].
  - rewrite <- (firstn_skipn n l) at 1. rewrite E, <- app_assoc. reflexivity.
  - exact E.
  - apply (f_equal (@List.length Z)) in E.
    rewrite length_firstn, length_app in E. simpl in E. lia.
Qed.

Lemma firstn_exact {A} (l1 l2 : list A) : firstn (List.length l1) (l1 ++ l2) = l1.
Proof.
  rewrite firstn_app, Nat.sub_diag, firstn_all. simpl. apply app_nil_r.
Qed.

Lemma seen_at (m : Engine (stub.Stub * list call)) v :
  stub.CurrentVersion (fst (databaseDrv m)) = v -> 0 <= v -> seen m = v.
Proof.
  intros E Hv. unfold seen. rewrite E. destruct (Z.ltb_spec v 0); [lia | reflexivity].
Qed.

(** X15. Steps forth and back. Over a well-formed index, with the stub
    database at the empty state or at a version of the index, [Steps(n)] for an
    [n > 0] that the index can satisfy followed by [Steps(-n)] returns nil
    twice and brings the database back to the version it reported at the
    start. *)
Theorem Steps_forth_and_back :
  forall (m m1 m2 : Engine (stub.Stub * list call)) (n : Z) (s1 s2 : list tick)
         (r1 r2 : option error),
    ready m ->
    placed ix (seen m) ->
    0 < n <= Z.of_nat (List.length (above ix (seen m))) ->
    signal_free s1 ->
    signal_free s2 ->
    perform suint_neg src drv (OpSteps n) s1 m = Some (m1, r1) ->
    perform suint_neg src drv (OpSteps (- n)) s2 m1 = Some (m2, r2) ->
    r1 = None /\ r2 = None /\
    seen m1 = last (firstn (Z.to_nat n) (above ix (seen m))) (seen m) /\
    seen m2 = seen m.
Proof.
  intros m m1 m2 n s1 s2 r1 r2 Hm Hcur Hn Hf1 Hf2 Hp1 Hp2.
  pose proof MinInt_neg as Hmin.
  assert (Hlen : Z.of_nat (List.length (above ix (seen m))) <= MaxInt).
  { pose proof (versions_length ix well_formed) as H.
    pose proof (filter_length_le (fun v => seen m <? v) vs) as H'.
    unfold above. lia. }
  destruct (firstn_last_split (Z.to_nat n) (above ix (seen m)) ltac:(lia))
    as (a & v1 & rest & Eab & Efn & Hla).
  (* forth *)
  destruct (proj2 (Steps_up_settles suint_neg ix well_formed m n Hm Hcur ltac:(lia))
              s1 m1 r1 Hf1 Hp1) as (Hr1 & Hm1 & _ & Hv1 & _).
  unfold up_end in Hr1. destruct (Z.eqb_spec n (-1)); [lia | ].
  destruct (Z.leb_spec n (Z.of_nat (List.length (above ix (seen m))))); [ | lia].
  rewrite ups_of_TargetVersion, Efn, last_last in Hv1.
  assert (Hin1 : In v1 vs).
  { assert (H1 : In v1 (above ix (seen m))) by (rewrite Eab; apply in_middle).
    unfold above in H1. apply filter_In in H1. apply H1. }
  pose proof (version_range ix well_formed v1 Hin1) as R1.
  pose proof (seen_at m1 v1 Hv1 ltac:(lia)) as Es1.
  (* back *)
  assert (Hin1' : In (seen m1) vs) by (rewrite Es1; exact Hin1).
  assert (Hneg : MinInt < - n < 0).
  { unfold MinInt, MaxInt, int_bits in *. lia. }
  destruct (proj2 (Steps_down_settles suint_neg ix well_formed m1 (- n) Hm1 Hin1' Hneg)
              s2 m2 r2 Hf2 Hp2) as (Hr2 & Hm2 & _ & Hv2 & _).
  rewrite descent_TargetVersion, Z.opp_involutive, Es1 in Hv2.
  rewrite Z.opp_involutive, Es1 in Hr2.
  assert (Hback : exists before,
             below ix v1 = rev a ++ before /\
             (forall d, last (rev a ++ firstn 1 (before ++ [-1])) d
                        = if seen m =? -1 then -1 else seen m) /\
             (seen m = -1 \/ stub.CurrentVersion (fst (databaseDrv m)) = seen m)).
  { destruct Hcur as [[E Hne] | Hin].
    - exists []. rewrite E in *. rewrite (above_empty_state ix well_formed) in Eab.
      rewrite (below_split ix well_formed a v1 rest Eab). rewrite app_nil_r.
      simpl. split; [reflexivity | ]. split; [ | auto].
      intros d. apply last_last.
    - pose proof (version_range ix well_formed _ Hin) as Rc.
      pose proof (seen_known ix well_formed m Hin) as Ec.
      apply in_split in Hin as (pre & post & E).
      rewrite (above_split ix well_formed pre _ post E) in Eab.
      exists (seen m :: rev pre).
      assert (E2 : vs = (pre ++ seen m :: a) ++ v1 :: rest).
      { rewrite E, Eab, <- app_assoc. reflexivity. }
      rewrite (below_split ix well_formed _ v1 rest E2).
      rewrite rev_app_distr. simpl. rewrite <- app_assoc. simpl.
      split; [reflexivity | ]. split; [ | auto].
      intros d. rewrite last_last.
      destruct (Z.eqb_spec (seen m) (-1)); [lia | reflexivity]. }
  destruct Hback as (before & Eb & Hlast & Hstart).
  assert (Hfirst : firstn (Z.to_nat n) (below ix v1 ++ [-1])
                   = rev a ++ firstn 1 (before ++ [-1])).
  { rewrite Eb, <- app_assoc, firstn_app, length_rev.
    replace (Z.to_nat n) with (S (List.length a)) by lia.
    rewrite firstn_all2 by (rewrite length_rev; lia).
    replace (S (List.length a) - List.length a)%nat with 1%nat by lia. reflexivity. }
  rewrite Hfirst, Hlast in Hv2.
  split; [exact Hr1 | ]. split.
  - unfold down_end in Hr2. destruct (Z.eqb_spec n (-1)); [lia | ].
    rewrite Eb, length_app, length_rev in Hr2.
    destruct (Z.leb_spec n (Z.of_nat (List.length a + List.length before) + 1));
      [exact Hr2 | lia].
  - split.
    + rewrite Es1, Efn, last_last. reflexivity.
    + destruct (Z.eqb_spec (seen m) (-1)) as [E | Hne].
      * rewrite E. unfold seen. rewrite Hv2. reflexivity.
      * destruct (seen_range m) as [E | Hpos]; [contradiction | ].
        apply seen_at; [exact Hv2 | exact Hpos].
Qed.
End StepsRoundTrip.

Lemma Steps_forth_and_back_witness :
  exists m1 m2,
    perform suint_panics (index.driver scenario_index) (recorder stub.driver)
            (OpSteps 2) (alternate 30) (newCommon (stub_at 3, [])) = Some (m1, None) /\
    perform suint_panics (index.driver scenario_index) (recorder stub.driver)
            (OpSteps (- 2)) (alternate 30) m1 = Some (m2, None) /\
    seen m1 = 5 /\
    seen m2 = 3.
Proof.
  eexists. eexists.
  split; [vm_compute; reflexivity | ].
  split; [vm_compute; reflexivity | ].
  match goal with
  | |- seen ?a = _ /\ seen ?b = _ =>
      assert (H1 : perform suint_panics (index.driver scenario_index) (recorder stub.driver)
                           (OpSteps 2) (alternate 30) (newCommon (stub_at 3, []))
                   = Some (a, None)) by (vm_compute; reflexivity);
      assert (H2 : perform suint_panics (index.driver scenario_index) (recorder stub.driver)
                           (OpSteps (- 2)) (alternate 30) a
                   = Some (b, None)) by (vm_compute; reflexivity);
      destruct (Steps_forth_and_back suint_panics scenario_index scenario_index_well_formed
                  (newCommon (stub_at 3, [])) a b 2 (alternate 30) (alternate 30) None None
                  (ready_at 3) (or_intror (or_intror (or_introl eq_refl)))
                  ltac:(split; [reflexivity | discriminate])
                  (alternate_signal_free 30) (alternate_signal_free 30) H1 H2)
        as (_ & _ & E1 & E2)
  end.
  split; [exact E1 | exact E2].
Defined.

(** ** The presence check over an index *)

(** X16. Over an index, the presence check [versionExists] answers nil
    exactly for the versions of the index, whether they have an up payload, a
    down payload or both (the down payload is tried when the up payload does
    not exist), and [os.ErrNotExist] for every other version. *)
Theorem presence_check_over_an_index :
  forall (ix : list index.entry) (v : Z),
    (versionExists (index.driver ix) v = None <-> In v (index.versions ix)) /\
    (versionExists (index.driver ix) v <> None <->
     versionExists (index.driver ix) v = Some os_ErrNotExist).
Proof.
  intros ix v.
  assert (Hout : ~ In v (index.versions ix) ->
                 versionExists (index.driver ix) v = Some os_ErrNotExist).
  { intros H. unfold versionExists. simpl. unfold index.ReadUp, index.ReadDown.
    rewrite (lookup_unknown ix v H). reflexivity. }
  assert (Hdec : In v (index.versions ix) \/ ~ In v (index.versions ix)).
  { destruct (in_dec Z.eq_dec v (index.versions ix)); auto. }
  split; split.
  - intros H. destruct Hdec as [Hin | Hnot]; [exact Hin | ].
    rewrite (Hout Hnot) in H. discriminate.
  - apply versionExists_index.
  - intros H. destruct Hdec as [Hin | Hnot]; [ | exact (Hout Hnot)].
    exfalso. apply H. apply versionExists_index. exact Hin.
  - intros H. rewrite H. discriminate.
Qed.

(** ** Failures before the first step *)

Section EarlyFailures.
Variable suint_neg : Z -> option Z.
Variable sourceDrv : source.Driver.
Variable D : Type.
Variable drv : database.Driver D.

Local Abbreviation rec := (recorder drv).

(** X17. Failures before the first step. When the driver's [Lock] fails, a
    mutating operation returns that error as it is and calls nothing else, not
    even [Unlock]. When [Lock] succeeds and the driver's [Version] fails, a
    planning operation starts no planner: it calls [Unlock] and returns the
    error of [Version], composed with the error of [Unlock] if that fails
    too. *)
Theorem early_failures_are_returned :
  (forall (op : operation) (sched : list tick) (m : Engine (D * list call))
          (d : D) (e : error),
      mutating op ->
      isLocked m = false ->
      database.Lock drv (fst (databaseDrv m)) = (d, Some e) ->
      perform suint_neg sourceDrv rec op sched m
      = Some (set_databaseDrv (d, snd (databaseDrv m) ++ [CLock]) m, Some e)) /\
  (forall (op : operation) (sched : list tick) (m : Engine (D * list call))
          (d1 d2 d3 : D) (e : error) (u : option error),
      planning op ->
      isLocked m = false ->
      database.Lock drv (fst (databaseDrv m)) = (d1, None) ->
      database.Version drv d1 = (d2, Err e) ->
      database.Unlock drv d2 = (d3, u) ->
      exists m',
        perform suint_neg sourceDrv rec op sched m
        = Some (m', match u with
                    | None => Some e
                    | Some e' => Some (NewMultiError (Some e) (Some e'))
                    end) /\
        databaseDrv m' = (d3, snd (databaseDrv m) ++ [CLock; CVersion; CUnlock]) /\
        isLocked m' = match u with None => false | Some _ => true end).
Proof.
  split.
  - intros op sched m d e Hop Hl HL.
    assert (Hlock : lock rec m
                    = (set_databaseDrv (d, snd (databaseDrv m) ++ [CLock]) m, Some e)).
    { unfold lock. rewrite Hl. simpl. rewrite HL. reflexivity. }
    destruct op; simpl in *; unfold Migrate, Steps, Up, Down, Drop, locked_run;
      rewrite ?Hlock; try reflexivity.
    destruct (Z.eqb_spec n 0); [contradiction | reflexivity].
  - intros op sched m d1 d2 d3 e u Hop Hl HL HV HU.
    assert (Hlock : lock rec m
                    = (set_isLocked true
                         (set_databaseDrv (d1, snd (databaseDrv m) ++ [CLock]) m), None)).
    { unfold lock. rewrite Hl. simpl. rewrite HL. reflexivity. }
    rewrite (perform_planning suint_neg sourceDrv _ rec op sched m _ Hop Hlock).
    assert (Hp : primary suint_neg sourceDrv rec op sched
                   (set_isLocked true
                      (set_databaseDrv (d1, snd (databaseDrv m) ++ [CLock]) m))
                 = Some (set_databaseDrv
                           (d2, (snd (databaseDrv m) ++ [CLock]) ++ [CVersion])
                           (set_isLocked true
                              (set_databaseDrv (d1, snd (databaseDrv m) ++ [CLock]) m)),
                         Some e)).
    { unfold primary. destruct op; simpl in *; rewrite ?HV; try reflexivity.
      destruct Hop. }
    rewrite Hp. unfold unlockErr, unlock. simpl. rewrite HU.
    destruct u as [e' | ]; simpl; eexists; (split; [reflexivity | ]); simpl;
      rewrite <- !app_assoc; auto.
Qed.
End EarlyFailures.

Lemma early_failures_are_returned_witness :
  perform suint_panics (index.driver scenario_index) (recorder stub.driver) OpUp
          (alternate 30) (newCommon (fst (stub.Lock stub.Open), []))
  = Some (set_databaseDrv (fst (stub.Lock stub.Open), [] ++ [CLock])
                          (newCommon (fst (stub.Lock stub.Open), [])),
          Some database_ErrLocked).
Proof.
  apply (proj1 (early_failures_are_returned suint_panics (index.driver scenario_index)
                  stub.Stub stub.driver)); [exact I | reflexivity | reflexivity].
Defined.
